(** * Line wrapping of dialog text by pixel width

    A shallow embedding of [tools/poryscript/parser/formattext.go] and the
    properties of its tokenizer, its width calculator and its wrap engine.

    Go strings are byte sequences: they are embedded as [string], whose
    characters ([ascii]) are the bytes.  A [for ... range] loop over a string
    walks it rune by rune, decoding UTF-8; the decoder is part of the
    embedding.  Go's [int] is embedded as [Z] with the 64-bit wrap-around of
    its addition written out. *)

From Stdlib Require Import ZArith Ascii String List Lia Bool.
From stdpp Require Import base gmap strings list.

Local Open Scope Z_scope.

(** ** The Go primitives the program uses *)

Module Go.

(** The value of a byte. *)
Definition byte_val (b : ascii) : Z := Z.of_N (N_of_ascii b).

Definition byte_of (z : Z) : ascii := ascii_of_N (Z.to_N z).

(** [len(s)]. *)
Definition len (s : string) : nat := String.length s.

(** [s[n:]] and [s[:n]]. *)
Fixpoint drop (n : nat) (s : string) : string :=
  match n, s with
  | O, _ => s
  | S n', String _ t => drop n' t
  | S _, EmptyString => EmptyString
  end.

Fixpoint take (n : nat) (s : string) : string :=
  match n, s with
  | O, _ => EmptyString
  | S n', String a t => String a (take n' t)
  | S _, EmptyString => EmptyString
  end.

(** [s[i:j]].  Go panics unless [i <= j <= len(s)]; the slices of the program
    are within these bounds (see [getNextWord_in_range] below). *)
Definition slice (s : string) (i j : nat) : string := take (j - i) (drop i s).

(** [int] addition: two's complement, on the 64 bits that [int] has on the
    platforms the tool is built for. *)
Definition wrap64 (z : Z) : Z := (z + 2 ^ 63) mod 2 ^ 64 - 2 ^ 63.
Definition int_add (a b : Z) : Z := wrap64 (a + b).

(** *** UTF-8, as [range] and [string(rune)] see it *)

Definition RuneError : Z := 65533.

Definition between (lo hi x : Z) : bool := (lo <=? x) && (x <=? hi).

Definition is_cont (x : Z) : bool := between 128 191 x.

(** The rune at the head of [s] and its width in bytes.  Every malformed,
    truncated, overlong or surrogate encoding yields [RuneError] with
    width 1. *)
Definition DecodeRune (s : string) : Z * nat :=
  match s with
  | EmptyString => (RuneError, O)
  | String b0 t =>
    let x := byte_val b0 in
    if x <? 128 then (x, 1%nat)
    else if between 194 223 x then
      match t with
      | String b1 _ =>
        let y := byte_val b1 in
        if is_cont y
        then (Z.lor (Z.shiftl (Z.land x 31) 6) (Z.land y 63), 2%nat)
        else (RuneError, 1%nat)
      | _ => (RuneError, 1%nat)
      end
    else if between 224 239 x then
      match t with
      | String b1 (String b2 _) =>
        let y := byte_val b1 in
        let z := byte_val b2 in
        let lo := if x =? 224 then 160 else 128 in
        let hi := if x =? 237 then 159 else 191 in
        if between lo hi y && is_cont z
        then (Z.lor (Z.shiftl (Z.land x 15) 12)
                (Z.lor (Z.shiftl (Z.land y 63) 6) (Z.land z 63)), 3%nat)
        else (RuneError, 1%nat)
      | _ => (RuneError, 1%nat)
      end
    else if between 240 244 x then
      match t with
      | String b1 (String b2 (String b3 _)) =>
        let y := byte_val b1 in
        let z := byte_val b2 in
        let w := byte_val b3 in
        let lo := if x =? 240 then 144 else 128 in
        let hi := if x =? 244 then 143 else 191 in
        if between lo hi y && is_cont z && is_cont w
        then (Z.lor (Z.shiftl (Z.land x 7) 18)
                (Z.lor (Z.shiftl (Z.land y 63) 12)
                   (Z.lor (Z.shiftl (Z.land z 63) 6) (Z.land w 63))), 4%nat)
        else (RuneError, 1%nat)
      | _ => (RuneError, 1%nat)
      end
    else (RuneError, 1%nat)
  end.

(** [for pos, char := range s]: the byte offset and the rune of every
    iteration, in order.  [skip] counts the bytes of the current rune that
    are still to be stepped over. *)
Fixpoint range_from (pos skip : nat) (s : string) : list (nat * Z) :=
  match s with
  | EmptyString => []
  | String _ t =>
    match skip with
    | S k => range_from (S pos) k t
    | O =>
      let '(r, size) := DecodeRune s in
      (pos, r) :: range_from (S pos) (size - 1) t
    end
  end.

Definition range (s : string) : list (nat * Z) := range_from 0 0 s.

(** [string(r)]: the UTF-8 encoding of a rune. *)
Definition string_of_rune (r : Z) : string :=
  let cont (v : Z) := byte_of (Z.lor 128 (Z.land v 63)) in
  if (r <? 0) || (1114111 <? r) || between 55296 57343 r then
    String (byte_of 239) (String (byte_of 191) (String (byte_of 189) EmptyString))
  else if r <? 128 then String (byte_of r) EmptyString
  else if r <? 2048 then
    String (byte_of (Z.lor 192 (Z.shiftr r 6))) (String (cont r) EmptyString)
  else if r <? 65536 then
    String (byte_of (Z.lor 224 (Z.shiftr r 12)))
      (String (cont (Z.shiftr r 6)) (String (cont r) EmptyString))
  else
    String (byte_of (Z.lor 240 (Z.shiftr r 18)))
      (String (cont (Z.shiftr r 12))
         (String (cont (Z.shiftr r 6)) (String (cont r) EmptyString))).

(** [strings.ReplaceAll(s, "\n", " ")]. *)
Fixpoint ReplaceAll_newline_space (s : string) : string :=
  match s with
  | EmptyString => EmptyString
  | String a t =>
    String (if Ascii.eqb a "010"%char then " "%char else a)
      (ReplaceAll_newline_space t)
  end.

(** [strings.Join]. *)
Fixpoint Join (l : list string) (sep : string) : string :=
  match l with
  | [] => EmptyString
  | [x] => x
  | x :: l' => x +:+ sep +:+ Join l' sep
  end.

End Go.

(** Rune literals. *)
Definition rune (a : ascii) : Z := Go.byte_val a.

(** ** The regular expression [{[^}]*}]

    [processControlCodes] compiles this one pattern and calls
    [FindAllStringIndex] and [ReplaceAllString] on it.  A match starts at a
    left brace that has a right brace somewhere after it and ends at the
    first such right brace; matches are found leftmost first and do not
    overlap.  Braces are ASCII, so matching byte by byte and matching rune
    by rune agree. *)

Module Regexp.

Definition lbrace : ascii := "{"%char.
Definition rbrace : ascii := "}"%char.

(** Number of bytes before the first right brace of [s]. *)
Fixpoint index_rbrace (s : string) : option nat :=
  match s with
  | EmptyString => None
  | String a t =>
    if Ascii.eqb a rbrace then Some O else S <$> index_rbrace t
  end.

(** [FindAllStringIndex(s, -1)], for [s] starting at offset [pos]; [skip]
    counts the bytes of the current match still to be stepped over. *)
Fixpoint find_from (pos skip : nat) (s : string) : list (nat * nat) :=
  match s with
  | EmptyString => []
  | String a t =>
    match skip with
    | S k => find_from (S pos) k t
    | O =>
      if Ascii.eqb a lbrace then
        match index_rbrace t with
        | Some k => (pos, (pos + k + 2)%nat) :: find_from (S pos) (S k) t
        | None => []
        end
      else find_from (S pos) O t
    end
  end.

Definition FindAllStringIndex (s : string) : list (nat * nat) :=
  find_from 0 0 s.

(** [ReplaceAllString(s, "")]. *)
Fixpoint strip_from (skip : nat) (s : string) : string :=
  match s with
  | EmptyString => EmptyString
  | String a t =>
    match skip with
    | S k => strip_from k t
    | O =>
      if Ascii.eqb a lbrace then
        match index_rbrace t with
        | Some k => strip_from (S k) t
        | None => s
        end
      else String a (strip_from O t)
    end
  end.

Definition ReplaceAllString_empty (s : string) : string := strip_from 0 s.

End Regexp.

(** ** The data model

    [LoadFontConfig] reads the table from a JSON file; the embedding starts
    from the table it returns. *)

Record Fonts := mkFonts {
  Widths : gmap string Z;
  MaxLineLength : Z
}.

Record FontConfig := mkFontConfig {
  DefaultFontID : string;
  FontTable : gmap string Fonts   (* the field [Fonts] *)
}.

(** A Go [error]: [nil] or a message. *)
Definition error := option string.

Definition testFontID : string := "TEST".

Definition fallbackWidth : Z := 0.

(** ** Width lookup *)

Definition isFontIDValid (fc : FontConfig) (fontID : string) : bool :=
  bool_decide (is_Some (FontTable fc !! fontID)).

Definition readWidthFromFontConfig
    (fc : FontConfig) (value fontID : string) : Z :=
  match FontTable fc !! fontID with
  | None => fallbackWidth
  | Some font =>
    match Widths font !! value with
    | Some width => width
    | None =>
      match Widths font !! "default" with
      | Some defaultWidth => defaultWidth
      | None => fallbackWidth
      end
    end
  end.

Definition getRunePixelWidth (fc : FontConfig) (r : Z) (fontID : string) : Z :=
  if String.eqb fontID testFontID then 10
  else readWidthFromFontConfig fc (Go.string_of_rune r) fontID.

Definition getControlCodePixelWidth
    (fc : FontConfig) (code fontID : string) : Z :=
  if String.eqb fontID testFontID then 100
  else readWidthFromFontConfig fc code fontID.

(** The loop of [processControlCodes] over the match positions. *)
Definition controlCodes (word : string) : list string :=
  map (fun pos => Go.slice word pos.1 pos.2) (Regexp.FindAllStringIndex word).

Definition processControlCodes
    (fc : FontConfig) (word fontID : string) : string * Z :=
  let width :=
    fold_left
      (fun width code =>
         Go.int_add width (getControlCodePixelWidth fc code fontID))
      (controlCodes word) 0 in
  let strippedWord := Regexp.ReplaceAllString_empty word in
  (strippedWord, width).

Definition getWordPixelWidth
    (fc : FontConfig) (word fontID : string) : Z :=
  let '(word', wordWidth) := processControlCodes fc word fontID in
  fold_left
    (fun wordWidth pr => Go.int_add wordWidth (getRunePixelWidth fc pr.2 fontID))
    (Go.range word') wordWidth.

(** ** The tokenizer *)

Definition isLineBreak (word : string) : bool :=
  String.eqb word "\n" || String.eqb word "\l" || String.eqb word "\p".

Definition isParagraphBreak (word : string) : bool :=
  String.eqb word "\p".

(** The local variables of [getNextWord].  The positions and the nesting
    counter are at most [len(text)], so that they are embedded as [nat]: no
    addition on them wraps around. *)
Record scan := mkScan {
  escape : bool;
  endPos : nat;
  startPos : nat;
  foundNonSpace : bool;
  foundRegularRune : bool;
  endOnNext : bool;
  controlCodeLevel : nat
}.

Definition scan0 : scan := mkScan false 0 0 false false false 0.

Definition is_lnp (char : Z) : bool :=
  (char =? rune "l") || (char =? rune "n") || (char =? rune "p").

(** What one iteration of the loop of [getNextWord] does: it returns, or it
    goes on with new values of the variables. *)
Inductive iter :=
| Return (n : nat) (word : string) (err : error)
| Continue (s : scan).

Definition getNextWord_body
    (text : string) (s : scan) (pos : nat) (char : Z) : iter :=
  if endOnNext s then
    Return pos (Go.slice text (startPos s) pos) None
  else if escape s && is_lnp char then
    if foundRegularRune s then
      Return (endPos s) (Go.slice text (startPos s) (endPos s)) None
    else
      Continue (mkScan (escape s) (endPos s) (startPos s) (foundNonSpace s)
                  (foundRegularRune s) true (controlCodeLevel s))
  else if (char =? rune "\") && (controlCodeLevel s =? 0)%nat then
    Continue (mkScan true pos
                (if foundRegularRune s then startPos s else pos)
                true (foundRegularRune s) (endOnNext s) (controlCodeLevel s))
  else if char =? rune " " then
    if foundNonSpace s && (controlCodeLevel s =? 0)%nat then
      Return pos (Go.slice text (startPos s) pos) None
    else
      Continue (mkScan false (endPos s) (startPos s) (foundNonSpace s)
                  (foundRegularRune s) (endOnNext s) (controlCodeLevel s))
  else
    Continue (mkScan false (endPos s)
                (if foundNonSpace s then startPos s else pos)
                true true (endOnNext s)
                (if char =? rune "{" then S (controlCodeLevel s)
                 else if char =? rune "}" then Nat.pred (controlCodeLevel s)
                 else controlCodeLevel s)).

Fixpoint getNextWord_loop
    (text : string) (s : scan) (items : list (nat * Z))
    : nat * string * error :=
  match items with
  | [] =>
    if negb (foundNonSpace s) then (Go.len text, EmptyString, None)
    else (Go.len text, Go.drop (startPos s) text, None)
  | (pos, char) :: items' =>
    match getNextWord_body text s pos char with
    | Return n word err => (n, word, err)
    | Continue s' => getNextWord_loop text s' items'
    end
  end.

Definition getNextWord (text : string) : nat * string * error :=
  getNextWord_loop text scan0 (Go.range text).

(** ** The wrap engine *)

(** A real newline, as [WriteByte('\n')] appends it. *)
Definition NL : string := String "010" "".

(** The variables of [FormatText] that carry the state of the engine from
    one token to the next; [pos] is a variable of the loop below. *)
Record wrap := mkWrap {
  formattedSb : string;
  curLineSb : string;
  curWidth : Z;
  isFirstLine : bool;
  isFirstWord : bool
}.

Definition wrap0 : wrap := mkWrap "" "" 0 true true.

(** [wordWidth] as the word branch computes it. *)
Definition wordWidthOf
    (fc : FontConfig) (fontID : string) (isFirstWord : bool) (word : string)
    : Z :=
  let wordWidth := 0 in
  let wordWidth :=
    if negb isFirstWord
    then Go.int_add wordWidth (getRunePixelWidth fc (rune " ") fontID)
    else wordWidth in
  Go.int_add wordWidth (getWordPixelWidth fc word fontID).

(** The condition of the flush. *)
Definition overflows (maxWidth : Z) (w : wrap) (wordWidth : Z) : bool :=
  (maxWidth <? Go.int_add (curWidth w) wordWidth)
  && (0 <? Go.len (curLineSb w))%nat.

(** The body of the loop of [FormatText] once a non-empty [word] has been
    read. *)
Definition FormatText_word
    (fc : FontConfig) (maxWidth : Z) (fontID : string)
    (w : wrap) (word : string) : wrap :=
  if isLineBreak word then
    mkWrap (formattedSb w +:+ curLineSb w +:+ word +:+ NL)
      "" 0 (if isParagraphBreak word then true else false) true
  else
    let wordWidth := wordWidthOf fc fontID (isFirstWord w) word in
    if overflows maxWidth w wordWidth then
      mkWrap
        (formattedSb w +:+ curLineSb w
           +:+ (if isFirstLine w then "\n" else "\l") +:+ NL)
        word wordWidth false false
    else
      mkWrap (formattedSb w)
        (curLineSb w +:+ (if negb (isFirstWord w) then " " else "") +:+ word)
        (Go.int_add (curWidth w) wordWidth) (isFirstLine w) false.

(** What follows the loop. *)
Definition FormatText_finish (w : wrap) : string * error :=
  (if (0 <? Go.len (curLineSb w))%nat
   then formattedSb w +:+ curLineSb w else formattedSb w, None).

(** The loop [for pos < len(text)].  Every iteration that does not leave the
    loop advances [pos], so [len(text)] iterations are enough; [None] is the
    loop running out of [fuel]. *)
Fixpoint FormatText_loop
    (fuel : nat) (fc : FontConfig) (maxWidth : Z) (fontID : string)
    (text : string) (pos : nat) (w : wrap) : option (string * error) :=
  if (pos <? Go.len text)%nat then
    match fuel with
    | O => None
    | S fuel' =>
      let '(endPos, word, err) := getNextWord (Go.drop pos text) in
      match err with
      | Some e => Some (EmptyString, Some e)
      | None =>
        if (Go.len word =? 0)%nat then Some (FormatText_finish w)
        else
          FormatText_loop fuel' fc maxWidth fontID text (pos + endPos)
            (FormatText_word fc maxWidth fontID w word)
      end
    end
  else Some (FormatText_finish w).

(** The keys of the font table, as the [range] over the map collects them.
    Go leaves the order of that iteration open; the embedding takes the
    order of [map_to_list]. *)
Definition validFontIDs (fc : FontConfig) : list string :=
  (map_to_list (FontTable fc)).*1.

(** [fmt.Errorf] with the format of [FormatText]; [%s] prints a slice of
    strings between square brackets, separated by spaces. *)
Definition unknownFontID (fontID : string) (ids : list string) : string :=
  "unknown fontID '" +:+ fontID
    +:+ "' used in format(). List of valid fontIDs are '"
    +:+ "[" +:+ Go.Join ids " " +:+ "]" +:+ "'".

Definition FormatText_fuel
    (fuel : nat) (fc : FontConfig) (text : string) (maxWidth : Z)
    (fontID : string) : option (string * error) :=
  if negb (isFontIDValid fc fontID) && (0 <? Go.len fontID)%nat
     && negb (String.eqb fontID testFontID) then
    Some (EmptyString, Some (unknownFontID fontID (validFontIDs fc)))
  else
    let text := Go.ReplaceAll_newline_space text in
    FormatText_loop fuel fc maxWidth fontID text 0 wrap0.

Definition FormatText
    (fc : FontConfig) (text : string) (maxWidth : Z) (fontID : string)
    : option (string * error) :=
  FormatText_fuel (Go.len text) fc text maxWidth fontID.

(** * Notions used to state the properties *)

(** ** Integers and strings *)

(** The values of [int]. *)
Definition is_int (z : Z) : Prop := - 2 ^ 63 <= z < 2 ^ 63.

Definition Zsum (l : list Z) : Z := foldr Z.add 0 l.

(** [has_byte a s]: the byte [a] occurs in [s]. *)
Fixpoint has_byte (a : ascii) (s : string) : bool :=
  match s with
  | EmptyString => false
  | String b t => Ascii.eqb b a || has_byte a t
  end.

(** [t] occurs in [s] as one contiguous piece. *)
Definition substring_of (t s : string) : Prop :=
  exists pre post, s = pre +:+ t +:+ post.

(** A font table without fonts. *)
Definition noFonts : FontConfig := mkFontConfig "" ∅.

(** ** Control codes *)

(** No left brace of [s] has a right brace after it. *)
Definition no_code (s : string) : Prop :=
  forall pre post,
    s = pre +:+ String Regexp.lbrace post ->
    has_byte Regexp.rbrace post = false.

(** [code_split word codes stripped]: [word] read from the left is text
    without a left brace, then a control code, which is a left brace, a body
    without a right brace and a right brace, and so on, up to a last piece in
    which no control code is left; [codes] are the control codes in order,
    and [stripped] is the text between and after them. *)
Inductive code_split : string -> list string -> string -> Prop :=
| code_split_done s : no_code s -> code_split s [] s
| code_split_code pre body rest codes stripped :
    has_byte Regexp.lbrace pre = false ->
    has_byte Regexp.rbrace body = false ->
    code_split rest codes stripped ->
    code_split
      (pre +:+ String Regexp.lbrace body +:+ String Regexp.rbrace rest)
      ((String Regexp.lbrace body +:+ String Regexp.rbrace "") :: codes)
      (pre +:+ stripped).

(** ** The tokenizer, read byte by byte *)

(** The loop of [getNextWord] run over the bytes of the text instead of its
    runes. *)
Fixpoint scan_bytes
    (text : string) (s : scan) (pos : nat) (todo : string)
    : nat * string * error :=
  match todo with
  | EmptyString =>
    if negb (foundNonSpace s) then (Go.len text, EmptyString, None)
    else (Go.len text, Go.drop (startPos s) text, None)
  | String b todo' =>
    match getNextWord_body text s pos (Go.byte_val b) with
    | Return n word err => (n, word, err)
    | Continue s' => scan_bytes text s' (S pos) todo'
    end
  end.

(** The first [k] bytes of [s] are there and are not ASCII. *)
Fixpoint high_prefix (k : nat) (s : string) : Prop :=
  match k with
  | O => True
  | S k' =>
    match s with
    | EmptyString => False
    | String b t => 128 <= Go.byte_val b /\ high_prefix k' t
    end
  end.

(** A state in which a rune that is not ASCII has just been read. *)
Definition after_rune (s : scan) : Prop :=
  escape s = false /\ endOnNext s = false
  /\ foundNonSpace s = true /\ foundRegularRune s = true.

(** Go stops with a panic at a slice [s[i:j]] unless [i <= j <= len(s)].
    [slices_in_range text s items]: no slice that the loop of [getNextWord]
    takes, run from the variables [s] over [items], is out of range. *)
Fixpoint slices_in_range
    (text : string) (s : scan) (items : list (nat * Z)) : Prop :=
  match items with
  | [] => (startPos s <= Go.len text)%nat
  | (pos, char) :: items' =>
    match getNextWord_body text s pos char with
    | Return n _ _ => (startPos s <= n <= Go.len text)%nat
    | Continue s' => slices_in_range text s' items'
    end
  end.

(** The positions held by the variables lie at or before [pos]. *)
Definition positions_before (s : scan) (pos : nat) : Prop :=
  (startPos s <= pos)%nat
  /\ (escape s = true -> (startPos s <= endPos s <= pos)%nat).

(** [shifted k s1 s2]: the variables [s1] are the variables [s2] with the
    positions that are still to be read moved right by [k]. *)
Definition shifted (k : nat) (s1 s2 : scan) : Prop :=
  escape s1 = escape s2
  /\ foundNonSpace s1 = foundNonSpace s2
  /\ foundRegularRune s1 = foundRegularRune s2
  /\ endOnNext s1 = endOnNext s2
  /\ controlCodeLevel s1 = controlCodeLevel s2
  /\ (foundNonSpace s1 = false ->
      escape s1 = false /\ foundRegularRune s1 = false
      /\ endOnNext s1 = false)
  /\ (foundNonSpace s1 = true -> startPos s1 = (k + startPos s2)%nat)
  /\ (escape s1 = true -> endPos s1 = (k + endPos s2)%nat).

(** The variables of [getNextWord] after the bytes [todo] have been read
    without the loop returning; which iterations return does not depend on
    the text that the returned slices are taken from. *)
Fixpoint scan_state (s : scan) (pos : nat) (todo : string) : option scan :=
  match todo with
  | EmptyString => Some s
  | String b todo' =>
    match getNextWord_body "" s pos (Go.byte_val b) with
    | Return _ _ _ => None
    | Continue s' => scan_state s' (S pos) todo'
    end
  end.

(** A token that [getNextWord] reads again as it is when it stands alone. *)
Definition rescans (t : string) : Prop :=
  exists s, scan_state scan0 0 t = Some s
            /\ startPos s = 0%nat /\ foundNonSpace s = true.

(** A token that [getNextWord] reads again as it is when a space follows. *)
Definition space_ended (t : string) : Prop :=
  exists s, scan_state scan0 0 t = Some s
            /\ startPos s = 0%nat /\ foundNonSpace s = true
            /\ endOnNext s = false /\ controlCodeLevel s = 0%nat.

(** How a token ends: what follows it in the text. *)
Inductive ending (t rest : string) : Prop :=
| ending_space X : rest = String " " X -> space_ended t -> ending t rest
| ending_text : rest = "" -> rescans t -> ending t rest
| ending_break : isLineBreak t = true -> ending t rest
| ending_escape c X :
    rest = String "\" (String c X) -> is_lnp (Go.byte_val c) = true ->
    ending t rest.

(** The text starts with a byte that [getNextWord] steps over: a space, or a
    backslash that another backslash follows. *)
Definition gap_head (text : string) : bool :=
  match text with
  | String a t =>
    Ascii.eqb a " "
    || (Ascii.eqb a "\"
        && match t with
           | String b _ => Ascii.eqb b "\"
           | EmptyString => false
           end)
  | EmptyString => false
  end.

(** Only spaces and backslashes. *)
Fixpoint only_gap (s : string) : bool :=
  match s with
  | EmptyString => true
  | String a t => (Ascii.eqb a " " || Ascii.eqb a "\") && only_gap t
  end.

(** Where the loop of [getNextWord] stands after the bytes [done] of a text
    that starts with the token. *)
Inductive mode (done : string) (s : scan) : Prop :=
| mode_start : done = "" -> s = scan0 -> mode done s
| mode_backslash :
    done = "\" -> s = mkScan true 0 0 true false false 0 -> mode done s
| mode_break c :
    done = String "\" (String c "") -> is_lnp (Go.byte_val c) = true ->
    s = mkScan true 0 0 true false true 0 -> mode done s
| mode_word :
    done <> "" -> startPos s = 0%nat -> foundNonSpace s = true ->
    foundRegularRune s = true -> endOnNext s = false -> escape s = false ->
    mode done s
| mode_escape d :
    d <> "" -> done = d +:+ "\" -> startPos s = 0%nat ->
    foundNonSpace s = true -> foundRegularRune s = true ->
    endOnNext s = false -> escape s = true -> endPos s = Go.len d ->
    mode done s.

(** ** The tokens of a text and the layout of the output *)

(** The tokens the loop of [FormatText] reads from the text that is left:
    [getNextWord] is called on it until it has nothing more to give. *)
Fixpoint tokens (fuel : nat) (rest : string) : option (list string) :=
  if (0 <? Go.len rest)%nat then
    match fuel with
    | O => None
    | S fuel' =>
      let '(endPos, word, _) := getNextWord rest in
      if (Go.len word =? 0)%nat then Some []
      else (fun ws => word :: ws) <$> tokens fuel' (Go.drop endPos rest)
    end
  else Some [].

(** The engine run over a list of tokens. *)
Definition FormatText_words
    (fc : FontConfig) (maxWidth : Z) (fontID : string)
    (w : wrap) (words : list string) : wrap :=
  fold_left (FormatText_word fc maxWidth fontID) words w.

(** The flag [isFirstWord] says that the line buffer is empty. *)
Definition wrap_ok (w : wrap) : Prop :=
  isFirstWord w = true <-> curLineSb w = "".

(** What the engine puts between tokens when it wraps a line. *)
Definition wrap_marker (sep : string) : Prop :=
  sep = "\n" +:+ NL \/ sep = "\l" +:+ NL.

(** [layout first words out]: [out] is the tokens [words] in their order,
    every one as it is; a break token is followed by a newline; a word that
    is the first of its line ([first], or after a break token) follows
    directly; any other word is preceded by one space or by a marker and a
    newline. *)
Inductive layout : bool -> list string -> string -> Prop :=
| layout_nil first : layout first [] ""
| layout_break first word words out :
    isLineBreak word = true ->
    layout true words out ->
    layout first (word :: words) (word +:+ NL +:+ out)
| layout_first word words out :
    isLineBreak word = false ->
    layout false words out ->
    layout true (word :: words) (word +:+ out)
| layout_next sep word words out :
    isLineBreak word = false ->
    sep = " " \/ wrap_marker sep ->
    layout false words out ->
    layout false (word :: words) (sep +:+ word +:+ out).

(** [cut text words]: [text] is the tokens [words] in their order with, before
    each of them and at the end, bytes that belong to no token, all of them
    spaces and backslashes; every token ends as [ending] says. *)
Inductive cut : string -> list string -> Prop :=
| cut_nil gap : only_gap gap = true -> cut gap []
| cut_cons gap word rest words :
    only_gap gap = true -> word <> "" -> ending word rest ->
    cut rest words ->
    cut (gap +:+ word +:+ rest) (word :: words).

(** Neither a space nor a backslash occurs in [s]. *)
Definition clean (s : string) : Prop :=
  has_byte " " s = false /\ has_byte "\" s = false.

(** [W] is a word of [A +:+ W +:+ B] delimited by spaces. *)
Definition space_delimited (A W B : string) : Prop :=
  W <> "" /\ has_byte " " W = false
  /\ (A = "" \/ exists A', A = A' +:+ " ")
  /\ (B = "" \/ exists B', B = String " " B').

(** ** Wrapping again *)

(** The output of [FormatText] with its breaks turned back into spaces: a
    marker, which is a backslash and one of l, n, p, followed by a newline
    becomes one space. *)
Fixpoint breaks_to_spaces (s : string) : string :=
  match s with
  | EmptyString => EmptyString
  | String a t =>
    match t with
    | String c (String nl t') =>
      if Ascii.eqb a "\" && is_lnp (Go.byte_val c) && Ascii.eqb nl "010"
      then String " " (breaks_to_spaces t')
      else String a (breaks_to_spaces t)
    | _ => String a (breaks_to_spaces t)
    end
  end.

(** The text is empty or starts with a space or a backslash. *)
Definition sep_head (s : string) : bool :=
  match s with
  | EmptyString => true
  | String a _ => Ascii.eqb a " " || Ascii.eqb a "\"
  end.

(** ** Tokens, seen from outside *)

(** Only spaces. *)
Fixpoint only_spaces (s : string) : bool :=
  match s with
  | EmptyString => true
  | String a t => Ascii.eqb a " " && only_spaces t
  end.

(** The nesting counter of [getNextWord] after the bytes of [s], started at
    [lvl]: a left brace adds one, a right brace takes one off unless the
    counter is zero. *)
Fixpoint brace_level (lvl : nat) (s : string) : nat :=
  match s with
  | EmptyString => lvl
  | String a t =>
    brace_level
      (if Ascii.eqb a "{" then S lvl
       else if Ascii.eqb a "}" then Nat.pred lvl else lvl) t
  end.

(** ** Blank text and paragraphs *)

(** Only spaces and newlines. *)
Fixpoint blank (s : string) : bool :=
  match s with
  | EmptyString => true
  | String a t => (Ascii.eqb a " " || Ascii.eqb a "010") && blank t
  end.

(** [paragraphs firstLine firstWord words out]: [out] is the tokens [words]
    laid out by an engine whose flags are [firstLine] and [firstWord].  A
    break token is followed by a newline, and the next token is the first
    word of a line, which is the first line of a paragraph after the break
    backslash p only.  The first word of a line follows directly.  Any other
    word is preceded by one space, or by a marker and a newline: the marker
    is backslash n on the first line of a paragraph and backslash l on every
    later line. *)
Inductive paragraphs : bool -> bool -> list string -> string -> Prop :=
| paragraphs_nil firstLine firstWord : paragraphs firstLine firstWord [] ""
| paragraphs_break firstLine firstWord word words out :
    isLineBreak word = true ->
    paragraphs (isParagraphBreak word) true words out ->
    paragraphs firstLine firstWord (word :: words) (word +:+ NL +:+ out)
| paragraphs_first firstLine word words out :
    isLineBreak word = false ->
    paragraphs firstLine false words out ->
    paragraphs firstLine true (word :: words) (word +:+ out)
| paragraphs_space firstLine word words out :
    isLineBreak word = false ->
    paragraphs firstLine false words out ->
    paragraphs firstLine false (word :: words) (" " +:+ word +:+ out)
| paragraphs_wrap firstLine word words out :
    isLineBreak word = false ->
    paragraphs false false words out ->
    paragraphs firstLine false (word :: words)
      ((if firstLine then "\n" else "\l") +:+ NL +:+ word +:+ out).

(** ** The lines of the output *)

(** What ends a line of the output: the end of the output, an authored
    break token, or an automatic break with the marker of the first line of
    a paragraph or the marker of a later line. *)
Inductive line_end :=
| end_of_text
| end_break (word : string)
| end_wrap (firstLine : bool).

(** A line of the output: whether an automatic break opened it, its words,
    and what ends it. *)
Record line := mkLine {
  after_wrap : bool;
  line_words : list string;
  line_ends : line_end
}.

(** The lines that the engine writes.  In the state [w], with the words [cur]
    on the current line, the engine reads the tokens [words]; it closes the
    line on a break token and where it takes the branch of the flush, the
    test being its own. *)
Fixpoint lines_of
    (fc : FontConfig) (maxWidth : Z) (fontID : string)
    (w : wrap) (wrapped : bool) (cur : list string) (words : list string)
    : list line :=
  match words with
  | [] => [mkLine wrapped cur end_of_text]
  | word :: words' =>
    let w' := FormatText_word fc maxWidth fontID w word in
    if isLineBreak word then
      mkLine wrapped cur (end_break word)
        :: lines_of fc maxWidth fontID w' false [] words'
    else if overflows maxWidth w (wordWidthOf fc fontID (isFirstWord w) word)
    then
      mkLine wrapped cur (end_wrap (isFirstLine w))
        :: lines_of fc maxWidth fontID w' true [word] words'
    else lines_of fc maxWidth fontID w' wrapped (cur ++ [word]) words'
  end.

(** The lines of the output for the tokens [words]: the engine starts with
    its variables as [FormatText] sets them and with an empty line. *)
Definition lines
    (fc : FontConfig) (maxWidth : Z) (fontID : string) (words : list string)
    : list line :=
  lines_of fc maxWidth fontID wrap0 false [] words.

(** What the engine writes at the end of a line. *)
Definition render_end (e : line_end) : string :=
  match e with
  | end_of_text => ""
  | end_break word => word +:+ NL
  | end_wrap firstLine => (if firstLine then "\n" else "\l") +:+ NL
  end.

(** The text of the lines: the words of a line with one space between them,
    then what ends the line. *)
Fixpoint render (ls : list line) : string :=
  match ls with
  | [] => ""
  | l :: ls' =>
    Go.Join (line_words l) " " +:+ render_end (line_ends l) +:+ render ls'
  end.

(** The width of a line in the arithmetic of [int]: the widths of its words
    added up from the left, every word but the first with the width of a
    space, and the first as well on a line that an automatic break opened. *)
Definition line_width
    (fc : FontConfig) (fontID : string) (wrapped : bool)
    (words : list string) : Z :=
  match words with
  | [] => 0
  | word :: words' =>
    fold_left
      (fun width word => Go.int_add width (wordWidthOf fc fontID false word))
      words' (wordWidthOf fc fontID (negb wrapped) word)
  end.

(** The width of a line in pixels: the widths of its words and of one space
    between two words. *)
Definition line_pixels
    (fc : FontConfig) (fontID : string) (words : list string) : Z :=
  Zsum (map (fun word => getWordPixelWidth fc word fontID) words)
  + getRunePixelWidth fc (rune " ") fontID * (Z.of_nat (length words) - 1).

(** A line with two words or more is not wider than [maxWidth]. *)
Definition line_fits
    (fc : FontConfig) (maxWidth : Z) (fontID : string) (l : line) : Prop :=
  (2 <= length (line_words l))%nat ->
  line_width fc fontID (after_wrap l) (line_words l) <= maxWidth.

(** Every automatic break is needed: the first word of the next line, with
    its space, did not fit on the line that the break ends. *)
Fixpoint breaks_needed
    (fc : FontConfig) (maxWidth : Z) (fontID : string) (ls : list line)
    : Prop :=
  match ls with
  | l :: ls' =>
    match ls' with
    | l' :: _ =>
      forall firstLine, line_ends l = end_wrap firstLine ->
        line_words l <> [] /\ after_wrap l' = true
        /\ exists word words,
             line_words l' = word :: words
             /\ maxWidth
                < Go.int_add
                    (line_width fc fontID (after_wrap l) (line_words l))
                    (wordWidthOf fc fontID false word)
    | [] => True
    end
    /\ breaks_needed fc maxWidth fontID ls'
  | [] => True
  end.

(** The tokens laid out without an automatic break. *)
Fixpoint unwrapped (first : bool) (words : list string) : string :=
  match words with
  | [] => ""
  | word :: words' =>
    if isLineBreak word then word +:+ NL +:+ unwrapped true words'
    else (if first then "" else " ") +:+ word +:+ unwrapped false words'
  end.

(** The engine with the words [cur] on its current line. *)
Definition on_line
    (fc : FontConfig) (maxWidth : Z) (fontID : string)
    (w : wrap) (wrapped : bool) (cur : list string) : Prop :=
  curLineSb w = Go.Join cur " "
  /\ Forall (fun word => word <> "") cur
  /\ (isFirstWord w = true <-> cur = [])
  /\ (cur = [] -> wrapped = false)
  /\ curWidth w = line_width fc fontID wrapped cur
  /\ ((2 <= length cur)%nat -> curWidth w <= maxWidth).

(** ** Well-formed UTF-8 *)

(** [utf8 s]: the bytes [s] are well-formed UTF-8.  The text is empty, or
    [range] decodes at its head a rune from an encoding, which is one ASCII
    byte or two to four bytes, and what follows the encoding is well-formed
    again. *)
Inductive utf8 : string -> Prop :=
| utf8_nil : utf8 ""
| utf8_rune s r size :
    s <> "" ->
    Go.DecodeRune s = (r, size) ->
    r < 128 \/ (1 < size)%nat ->
    utf8 (Go.drop size s) ->
    utf8 s.

(** * Properties *)

(** ** The embedding at work *)

Example range_decodes_utf8 :
  Go.range (String (Go.byte_of 195) (String (Go.byte_of 169) "t"))
  = [(0%nat, 233); (2%nat, 116)].
Proof. reflexivity. Qed.

Example range_invalid_byte :
  Go.range (String (Go.byte_of 195) "t") = [(0%nat, 65533); (1%nat, 116)].
Proof. reflexivity. Qed.

Example string_of_rune_euro :
  Go.range (Go.string_of_rune 8364) = [(0%nat, 8364)].
Proof. reflexivity. Qed.

Example regexp_matches :
  Regexp.FindAllStringIndex "a{b}c{d{e}f}g{h" = [(1, 4); (5, 10)]%nat
  /\ Regexp.ReplaceAllString_empty "a{b}c{d{e}f}g{h" = "acf}g{h".
Proof. split; reflexivity. Qed.

Example getNextWord_skips_spaces :
  getNextWord "  ab cd" = (4%nat, "ab", None).
Proof. reflexivity. Qed.

Example getNextWord_only_spaces : getNextWord "   " = (3%nat, "", None).
Proof. reflexivity. Qed.

Example getNextWord_unbalanced_brace :
  getNextWord "{a b  " = (6%nat, "{a b  ", None).
Proof. reflexivity. Qed.

Example FormatText_counts_runes :
  FormatText noFonts
    (String (Go.byte_of 195) (String (Go.byte_of 169) "t xx")) 35 "TEST"
  = Some (String (Go.byte_of 195) (String (Go.byte_of 169) "t\n")
            +:+ NL +:+ "xx", None).
Proof. reflexivity. Qed.

(** ** Strings *)

Section strings.
Implicit Types s t u : string.

Lemma app_cons a s t : String a s +:+ t = String a (s +:+ t).
Proof. reflexivity. Qed.

Lemma app_empty_l s : "" +:+ s = s.
Proof. reflexivity. Qed.

Lemma app_empty_r s : s +:+ "" = s.
Proof. induction s as [|a s IH]; [done|]. by rewrite app_cons, IH. Qed.

Lemma app_assoc_str s t u : (s +:+ t) +:+ u = s +:+ (t +:+ u).
Proof. induction s as [|a s IH]; [done|]. by rewrite !app_cons, IH. Qed.

Lemma app_eq_empty s t : s +:+ t = "" -> s = "" /\ t = "".
Proof. destruct s; [done|]. by rewrite app_cons. Qed.

Lemma app_nonempty_l s t : s <> "" -> s +:+ t <> "".
Proof. destruct s; [done|]. by rewrite app_cons. Qed.

Lemma snoc_nonempty s a : s +:+ String a "" <> "".
Proof. destruct s; [done|]. by rewrite app_cons. Qed.

Lemma app_snoc s a t : s +:+ String a t = (s +:+ String a "") +:+ t.
Proof. by rewrite app_assoc_str. Qed.

Lemma app_eq_app_str x : forall a y b,
  x +:+ y = a +:+ b ->
  (exists m, a = x +:+ m /\ y = m +:+ b)
  \/ (exists m, x = a +:+ m /\ b = m +:+ y).
Proof.
  induction x as [|c x IH]; intros a y b Heq.
  - left. by exists a.
  - destruct a as [|d a].
    + right. by exists (String c x).
    + rewrite !app_cons in Heq. injection Heq as <- Heq.
      destruct (IH _ _ _ Heq) as [(m & -> & ->)|(m & -> & ->)].
      * left. by exists m.
      * right. by exists m.
Qed.

Lemma snoc_inj s t a b :
  s +:+ String a "" = t +:+ String b "" -> s = t /\ a = b.
Proof.
  revert t; induction s as [|c s IH]; intros [|d t] Heq.
  - by injection Heq.
  - rewrite app_cons in Heq. injection Heq as _ Heq. by destruct t.
  - rewrite app_cons in Heq. injection Heq as _ Heq. by destruct s.
  - rewrite !app_cons in Heq. injection Heq as <- Heq.
    destruct (IH _ Heq) as [-> ->]. done.
Qed.

Lemma str_last s : s <> "" -> exists s' c, s = s' +:+ String c "".
Proof.
  induction s as [|a s IH]; [done|]. intros _.
  destruct s as [|b s].
  - by exists "", a.
  - destruct IH as (s' & c & Hs); [done|].
    exists (String a s'), c. by rewrite app_cons, <- Hs.
Qed.

Lemma len_app s t : Go.len (s +:+ t) = (Go.len s + Go.len t)%nat.
Proof.
  induction s as [|a s IH]; [done|].
  rewrite app_cons. unfold Go.len in *. simpl. by rewrite IH.
Qed.

Lemma len_cons a s : Go.len (String a s) = S (Go.len s).
Proof. done. Qed.

Lemma len_snoc s a : Go.len (s +:+ String a "") = S (Go.len s).
Proof. rewrite len_app, len_cons. simpl. lia. Qed.

Lemma len_zero s : Go.len s = 0%nat -> s = "".
Proof. by destruct s. Qed.

Lemma len_nonzero s : (Go.len s =? 0)%nat = false -> s <> "".
Proof. by intros H ->. Qed.

Lemma len_pos_nonempty s : (0 <? Go.len s)%nat = true <-> s <> "".
Proof.
  destruct s; [done|]. unfold Go.len. simpl. split; [done|].
  intros _. by apply Nat.ltb_lt; lia.
Qed.

Lemma len_pos s : s <> "" -> (0 <? Go.len s)%nat = true.
Proof. intros. by apply len_pos_nonempty. Qed.

Lemma len_eqb_zero s : s <> "" -> (Go.len s =? 0)%nat = false.
Proof. destruct s; done. Qed.

Lemma drop_zero s : Go.drop 0 s = s.
Proof. by destruct s. Qed.

Lemma drop_empty n : Go.drop n "" = "".
Proof. by destruct n. Qed.

Lemma drop_cons n a s : Go.drop (S n) (String a s) = Go.drop n s.
Proof. done. Qed.

Lemma drop_drop n m s : Go.drop n (Go.drop m s) = Go.drop (m + n) s.
Proof.
  revert s; induction m as [|m IH]; intros s.
  - by rewrite drop_zero.
  - destruct s as [|a s]; [by rewrite !drop_empty|]. simpl. apply IH.
Qed.

Lemma len_drop n s : Go.len (Go.drop n s) = (Go.len s - n)%nat.
Proof.
  revert s; induction n as [|n IH]; intros s.
  - rewrite drop_zero. lia.
  - destruct s as [|a s]; [done|]. simpl. apply IH.
Qed.

Lemma drop_app_len s t : Go.drop (Go.len s) (s +:+ t) = t.
Proof. induction s as [|a s IH]; [apply drop_zero|]. apply IH. Qed.

Lemma drop_all s : Go.drop (Go.len s) s = "".
Proof.
  pose proof (drop_app_len s "") as H. by rewrite app_empty_r in H.
Qed.

Lemma drop_nonempty_len n s : Go.drop n s <> "" -> (0 < Go.len s)%nat.
Proof.
  destruct s as [|a s]; [by rewrite drop_empty|].
  unfold Go.len. simpl. lia.
Qed.

Lemma take_cons n a s : Go.take (S n) (String a s) = String a (Go.take n s).
Proof. done. Qed.

Lemma take_app_len s t : Go.take (Go.len s) (s +:+ t) = s.
Proof.
  induction s as [|a s IH]; [done|].
  rewrite app_cons. unfold Go.len in *. simpl. by rewrite IH.
Qed.

Lemma take_drop n s : Go.take n s +:+ Go.drop n s = s.
Proof.
  revert s; induction n as [|n IH]; intros s.
  - by rewrite drop_zero.
  - destruct s as [|a s]; [done|]. simpl. by rewrite app_cons, IH.
Qed.

Lemma take_all n s : (Go.len s <= n)%nat -> Go.take n s = s.
Proof.
  revert s; induction n as [|n IH]; intros [|a s] H; try done.
  - unfold Go.len in H. simpl in H. lia.
  - simpl. rewrite IH; [done|]. unfold Go.len in *. simpl in H. lia.
Qed.

Lemma slice_len_pos s i j : Go.slice s i j <> "" -> (0 < j)%nat.
Proof.
  unfold Go.slice. destruct j as [|j]; [|lia].
  intros H. by destruct H.
Qed.

Lemma slice_zero text n : Go.slice text 0 n = Go.take n text.
Proof. unfold Go.slice. by rewrite drop_zero, Nat.sub_0_r. Qed.

Lemma slice_drop text k a b :
  Go.slice text (k + a) (k + b) = Go.slice (Go.drop k text) a b.
Proof.
  unfold Go.slice. rewrite drop_drop. f_equal. lia.
Qed.

Lemma slice_app_len pre s n :
  Go.slice (pre +:+ s) (Go.len pre) (Go.len pre + n) = Go.take n s.
Proof.
  unfold Go.slice. rewrite drop_app_len. f_equal. lia.
Qed.

Lemma slice_prefix pre X : forall a,
  Go.slice (pre +:+ X) a (Go.len pre) = Go.drop a pre.
Proof.
  induction pre as [|c pre IH]; intros a.
  - unfold Go.slice. simpl. by rewrite drop_empty.
  - destruct a as [|a].
    + rewrite slice_zero, drop_zero. apply take_app_len.
    + rewrite app_cons, drop_cons, <- IH. done.
Qed.

Lemma slice_two pre a b X :
  Go.slice (pre +:+ String a (String b X)) (Go.len pre) (S (S (Go.len pre)))
  = String a (String b "").
Proof.
  unfold Go.slice. rewrite drop_app_len.
  by replace (S (S (Go.len pre)) - Go.len pre)%nat with 2%nat by lia.
Qed.

Lemma has_byte_app a s t :
  has_byte a (s +:+ t) = has_byte a s || has_byte a t.
Proof.
  induction s as [|b s IH]; [done|].
  rewrite app_cons. simpl. by rewrite IH, orb_assoc.
Qed.

Lemma substring_of_trans a b c :
  substring_of a b -> substring_of b c -> substring_of a c.
Proof.
  intros (p1 & q1 & ->) (p2 & q2 & ->).
  exists (p2 +:+ p1), (q1 +:+ q2). by rewrite !app_assoc_str.
Qed.

Lemma len_ReplaceAll text :
  Go.len (Go.ReplaceAll_newline_space text) = Go.len text.
Proof.
  induction text as [|a text IH]; [done|].
  unfold Go.len in *. simpl. by rewrite IH.
Qed.

Lemma has_byte_ReplaceAll text :
  has_byte "010" (Go.ReplaceAll_newline_space text) = false.
Proof.
  induction text as [|a text IH]; [done|]. simpl.
  rewrite IH, orb_false_r.
  destruct (Ascii.eqb a "010") eqn:Ha; [done|by rewrite Ha].
Qed.

Lemma ReplaceAll_id text :
  has_byte "010" text = false -> Go.ReplaceAll_newline_space text = text.
Proof.
  induction text as [|a text IH]; [done|]. simpl.
  intros [Ha Ht]%orb_false_elim. by rewrite Ha, IH.
Qed.

Lemma Join_cons t ts :
  Go.Join (t :: ts) " "
  = t +:+ match ts with [] => "" | _ => String " " (Go.Join ts " ") end.
Proof. destruct ts; [by rewrite app_empty_r|done]. Qed.

End strings.

(** ** The arithmetic of [int] *)

Lemma wrap64_int z : is_int z -> Go.wrap64 z = z.
Proof.
  unfold is_int, Go.wrap64. intros H.
  rewrite Z.mod_small; lia.
Qed.

Lemma wrap64_add_l a b : Go.wrap64 (Go.wrap64 a + b) = Go.wrap64 (a + b).
Proof.
  unfold Go.wrap64.
  replace ((a + 2 ^ 63) mod 2 ^ 64 - 2 ^ 63 + b + 2 ^ 63)
    with ((a + 2 ^ 63) mod 2 ^ 64 + b) by lia.
  rewrite Zplus_mod_idemp_l. do 2 f_equal. lia.
Qed.

Lemma wrap64_is_int z : is_int (Go.wrap64 z).
Proof.
  unfold is_int, Go.wrap64.
  pose proof (Z.mod_pos_bound (z + 2 ^ 63) (2 ^ 64) ltac:(lia)). lia.
Qed.

(** Summing with [+=] from [a] gives the sum reduced to 64 bits. *)
Lemma fold_int_add {A} (f : A -> Z) (l : list A) (a : Z) :
  Go.wrap64 (fold_left (fun acc x => Go.int_add acc (f x)) l a)
  = Go.wrap64 (a + Zsum (map f l)).
Proof.
  revert a; induction l as [|x l IH]; intros a; simpl.
  - by rewrite Z.add_0_r.
  - rewrite IH. unfold Go.int_add. rewrite wrap64_add_l. f_equal. lia.
Qed.

Lemma fold_int_add_is_int {A} (f : A -> Z) (l : list A) (a : Z) :
  is_int a -> is_int (fold_left (fun acc x => Go.int_add acc (f x)) l a).
Proof.
  revert a; induction l as [|x l IH]; intros a Ha; simpl; [done|].
  apply IH, wrap64_is_int.
Qed.

Lemma fold_int_add_sum {A} (f : A -> Z) (l : list A) (a : Z) :
  is_int a ->
  fold_left (fun acc x => Go.int_add acc (f x)) l a
  = Go.wrap64 (a + Zsum (map f l)).
Proof.
  intros Ha. rewrite <- fold_int_add.
  symmetry. by apply wrap64_int, fold_int_add_is_int.
Qed.

Lemma Zsum_const {A} (f : A -> Z) (c : Z) (l : list A) :
  (forall x, f x = c) -> Zsum (map f l) = c * Z.of_nat (length l).
Proof.
  intros Hf. induction l as [|x l IH]; [simpl; lia|].
  cbn [map Zsum foldr length]. fold (Zsum (map f l)). rewrite IH, Hf. lia.
Qed.

(** ** UTF-8 *)

Lemma byte_val_range b : 0 <= Go.byte_val b < 256.
Proof.
  unfold Go.byte_val. pose proof (N_ascii_bounded b). lia.
Qed.

Lemma byte_val_inj a b : Go.byte_val a = Go.byte_val b -> a = b.
Proof.
  unfold Go.byte_val. intros H%N2Z.inj.
  by rewrite <- (ascii_N_embedding a), <- (ascii_N_embedding b), H.
Qed.

Lemma byte_val_eqb a b : (Go.byte_val a =? rune b) = Ascii.eqb a b.
Proof.
  unfold rune. destruct (Ascii.eqb_spec a b) as [->|Hne].
  - apply Z.eqb_refl.
  - apply Z.eqb_neq. intros H. by apply Hne, byte_val_inj.
Qed.

Lemma lor_ge_128 a b :
  0 <= a -> 0 <= b -> 128 <= a \/ 128 <= b -> 128 <= Z.lor a b.
Proof.
  intros Ha Hb Hor.
  assert (Hnn : 0 <= Z.lor a b) by (by apply Z.lor_nonneg).
  assert (Hlog : 7 <= Z.log2 (Z.lor a b)).
  { rewrite Z.log2_lor by done.
    destruct Hor as [H|H]; apply (Z.log2_le_mono 128) in H;
      change (Z.log2 128) with 7 in H; lia. }
  destruct (Z.eq_dec (Z.lor a b) 0) as [Hz|Hz].
  { rewrite Hz in Hlog. simpl in Hlog. lia. }
  apply (Z.log2_le_pow2 (Z.lor a b) 7) in Hlog; [|lia].
  change (2 ^ 7) with 128 in Hlog. lia.
Qed.

Lemma land_low x k :
  0 <= k -> Z.land x (Z.ones k) = x mod 2 ^ k.
Proof. intros. by apply Z.land_ones. Qed.

Lemma shiftl_ge a n c :
  0 <= n -> c <= a * 2 ^ n -> c <= Z.shiftl a n.
Proof. intros Hn Hc. by rewrite Z.shiftl_mul_pow2. Qed.

Lemma between_true lo hi x :
  Go.between lo hi x = true <-> lo <= x <= hi.
Proof. unfold Go.between. rewrite andb_true_iff. lia. Qed.

Lemma is_cont_high x : Go.is_cont x = true -> 128 <= x.
Proof. intros H%between_true. lia. Qed.

Ltac rune_bound :=
  repeat match goal with
         | |- 128 <= Z.lor _ _ => apply lor_ge_128
         | |- 0 <= Z.lor _ _ => apply Z.lor_nonneg; split
         | |- 0 <= Z.shiftl _ _ => apply Z.shiftl_nonneg
         | |- 0 <= Z.land _ _ => apply Z.land_nonneg; right; lia
         end.

Lemma DecodeRune_ascii b t :
  Go.byte_val b < 128 -> Go.DecodeRune (String b t) = (Go.byte_val b, 1%nat).
Proof.
  intros H. unfold Go.DecodeRune.
  by destruct (Z.ltb_spec (Go.byte_val b) 128); [|lia].
Qed.

Lemma DecodeRune_high b t r size :
  128 <= Go.byte_val b ->
  Go.DecodeRune (String b t) = (r, size) ->
  128 <= r /\ (1 <= size)%nat /\ high_prefix (size - 1) t.
Proof.
  intros Hb. unfold Go.DecodeRune.
  destruct (Z.ltb_spec (Go.byte_val b) 128) as [|_]; [lia|].
  set (x := Go.byte_val b) in *.
  assert (Herr : forall r size, (Go.RuneError, 1%nat) = (r, size) ->
            128 <= r /\ (1 <= size)%nat /\ high_prefix (size - 1) t).
  { intros ? ? [= <- <-]. unfold Go.RuneError. simpl. lia. }
  destruct (Go.between 194 223 x) eqn:H2.
  { apply between_true in H2.
    destruct t as [|b1 t]; [apply Herr|].
    destruct (Go.is_cont (Go.byte_val b1)) eqn:Hc1; [|apply Herr].
    intros [= <- <-]. apply is_cont_high in Hc1. simpl.
    split; [|split; [lia|done]].
    rune_bound. left. apply shiftl_ge; [lia|].
    change 31 with (Z.ones 5). rewrite land_low by lia.
    Z.div_mod_to_equations. lia. }
  destruct (Go.between 224 239 x) eqn:H3.
  { apply between_true in H3.
    destruct t as [|b1 [|b2 t]]; try apply Herr.
    destruct (Go.between _ _ (Go.byte_val b1)) eqn:Hc1; [|apply Herr].
    destruct (Go.is_cont (Go.byte_val b2)) eqn:Hc2; [|apply Herr].
    simpl. intros [= <- <-]. apply between_true in Hc1.
    apply is_cont_high in Hc2.
    assert (128 <= Go.byte_val b1)
      by (destruct (x =? 224); lia).
    split; [|split; [lia|done]].
    rune_bound.
    destruct (Z.eqb_spec x 224) as [Hx|Hx].
    - rewrite Hx in Hc1. simpl in Hc1.
      right. rune_bound. left. apply shiftl_ge; [lia|].
      change 63 with (Z.ones 6). rewrite land_low by lia.
      pose proof (byte_val_range b1).
      Z.div_mod_to_equations. lia.
    - left. apply shiftl_ge; [lia|].
      change 15 with (Z.ones 4). rewrite land_low by lia.
      Z.div_mod_to_equations. lia. }
  destruct (Go.between 240 244 x) eqn:H4; [|apply Herr].
  apply between_true in H4.
  destruct t as [|b1 [|b2 [|b3 t]]]; try apply Herr.
  destruct (Go.between _ _ (Go.byte_val b1)) eqn:Hc1; [|apply Herr].
  destruct (Go.is_cont (Go.byte_val b2)) eqn:Hc2; [|apply Herr].
  destruct (Go.is_cont (Go.byte_val b3)) eqn:Hc3; [|apply Herr].
  simpl. intros [= <- <-]. apply between_true in Hc1.
  apply is_cont_high in Hc2. apply is_cont_high in Hc3.
  assert (128 <= Go.byte_val b1)
    by (destruct (x =? 240); lia).
  split; [|split; [lia|done]].
  rune_bound.
  destruct (Z.eqb_spec x 240) as [Hx|Hx].
  - rewrite Hx in Hc1. simpl in Hc1.
    right. rune_bound. left. apply shiftl_ge; [lia|].
    change 63 with (Z.ones 6). rewrite land_low by lia.
    pose proof (byte_val_range b1).
    Z.div_mod_to_equations. lia.
  - left. apply shiftl_ge; [lia|].
    change 7 with (Z.ones 3). rewrite land_low by lia.
    Z.div_mod_to_equations. lia.
Qed.

(** ** Control codes *)

Lemma index_rbrace_None s :
  Regexp.index_rbrace s = None <-> has_byte Regexp.rbrace s = false.
Proof.
  induction s as [|a s IH]; [done|]. simpl.
  destruct (Ascii.eqb a Regexp.rbrace); [done|]. simpl.
  rewrite <- IH. by destruct (Regexp.index_rbrace s).
Qed.

Lemma index_rbrace_Some s k :
  Regexp.index_rbrace s = Some k ->
  s = Go.take k s +:+ String Regexp.rbrace (Go.drop (S k) s)
  /\ has_byte Regexp.rbrace (Go.take k s) = false
  /\ Go.len (Go.take k s) = k.
Proof.
  revert k; induction s as [|a s IH]; intros k; [done|].
  cbn [Regexp.index_rbrace].
  destruct (Ascii.eqb a Regexp.rbrace) eqn:Ha.
  - intros [= <-]. apply Ascii.eqb_eq in Ha as ->.
    by rewrite drop_cons, drop_zero.
  - destruct (Regexp.index_rbrace s) as [k'|]; [|done].
    intros [= <-]. destruct (IH k' eq_refl) as (Hs & Hnone & Hlen).
    rewrite take_cons, drop_cons, app_cons, <- Hs. cbn [has_byte].
    rewrite Ha, Hnone, len_cons, Hlen. done.
Qed.

Lemma find_from_skip s : forall pos skip,
  Regexp.find_from pos skip s
  = Regexp.find_from (pos + skip) 0 (Go.drop skip s).
Proof.
  induction s as [|a s IH]; intros pos skip.
  - by rewrite drop_empty.
  - destruct skip as [|skip].
    + by rewrite drop_zero, Nat.add_0_r.
    + rewrite drop_cons. cbn [Regexp.find_from]. rewrite IH. f_equal. lia.
Qed.

Lemma strip_from_skip s : forall skip,
  Regexp.strip_from skip s = Regexp.strip_from 0 (Go.drop skip s).
Proof.
  induction s as [|a s IH]; intros skip.
  - by rewrite drop_empty.
  - destruct skip as [|skip]; [by rewrite drop_zero|].
    rewrite drop_cons. cbn [Regexp.strip_from]. apply IH.
Qed.

Lemma no_code_empty : no_code "".
Proof. intros [|b pre] post Heq; [done|]. by rewrite app_cons in Heq. Qed.

Lemma no_code_cons a s :
  a <> Regexp.lbrace -> no_code s -> no_code (String a s).
Proof.
  intros Ha Hs pre post Heq. destruct pre as [|b pre].
  - rewrite app_empty_l in Heq. congruence.
  - rewrite app_cons in Heq. injection Heq as _ Heq. by eapply Hs.
Qed.

Lemma no_code_open s :
  has_byte Regexp.rbrace s = false -> no_code (String Regexp.lbrace s).
Proof.
  intros Hs pre post Heq. destruct pre as [|b pre].
  - rewrite app_empty_l in Heq. congruence.
  - rewrite app_cons in Heq. injection Heq as _ ->.
    rewrite has_byte_app in Hs. apply orb_false_elim in Hs as [_ Hs].
    by simpl in Hs.
Qed.

Lemma code_split_cons a s codes stripped :
  a <> Regexp.lbrace ->
  code_split s codes stripped ->
  code_split (String a s) codes (String a stripped).
Proof.
  intros Ha Hsplit. destruct Hsplit as [s Hs|pre body rest codes stripped].
  - constructor. by apply no_code_cons.
  - rewrite <- !app_cons. constructor; try done.
    simpl. apply Ascii.eqb_neq in Ha. by rewrite Ha.
Qed.

(** What [FindAllStringIndex] and [ReplaceAllString] find in a word. *)
Lemma code_split_from n : forall s pre,
  (Go.len s <= n)%nat ->
  code_split s
    (map (fun pos => Go.slice (pre +:+ s) pos.1 pos.2)
       (Regexp.find_from (Go.len pre) 0 s))
    (Regexp.strip_from 0 s).
Proof.
  induction n as [|n IH]; intros s pre Hlen.
  { destruct s; [|rewrite len_cons in Hlen; lia].
    constructor. apply no_code_empty. }
  destruct s as [|a s]; [constructor; apply no_code_empty|].
  rewrite len_cons in Hlen.
  cbn [Regexp.find_from Regexp.strip_from].
  destruct (Ascii.eqb a Regexp.lbrace) eqn:Ha.
  - apply Ascii.eqb_eq in Ha as ->.
    destruct (Regexp.index_rbrace s) as [k|] eqn:Hk.
    + destruct (index_rbrace_Some s k Hk) as (Hsplit & Hbody & Hklen).
      rewrite find_from_skip, strip_from_skip.
      set (body := Go.take k s) in *. set (rest := Go.drop (S k) s) in *.
      cbn [map fst snd].
      replace (Go.len pre + k + 2)%nat with (Go.len pre + (S (S k)))%nat by lia.
      rewrite slice_app_len.
      assert (Htake : Go.take (S (S k)) (String Regexp.lbrace s)
                      = String Regexp.lbrace body
                          +:+ String Regexp.rbrace "").
      { rewrite take_cons, app_cons. f_equal. rewrite Hsplit.
        rewrite app_snoc.
        replace (S k) with (Go.len (body +:+ String Regexp.rbrace ""))
          by (by rewrite len_snoc, Hklen).
        apply take_app_len. }
      rewrite Htake.
      pose proof (IH rest
        (pre +:+ String Regexp.lbrace body +:+ String Regexp.rbrace "")) as IH'.
      replace (Go.len (pre +:+ String Regexp.lbrace body
                         +:+ String Regexp.rbrace ""))
        with (S (Go.len pre) + S k)%nat in IH'
        by (rewrite !len_app, !len_cons, Hklen; simpl; lia).
      replace ((pre +:+ String Regexp.lbrace body +:+ String Regexp.rbrace "")
                 +:+ rest)
        with (pre +:+ String Regexp.lbrace s) in IH'.
      2:{ rewrite app_assoc_str. f_equal. rewrite app_assoc_str, app_cons.
          f_equal. exact Hsplit. }
      rewrite Hsplit at 1.
      apply (code_split_code "" body rest); try done.
      apply IH'. subst rest. rewrite len_drop. lia.
    + constructor. apply no_code_open. by apply index_rbrace_None.
  - apply Ascii.eqb_neq in Ha.
    apply code_split_cons; [done|].
    rewrite (app_snoc pre a s), <- len_snoc with (a := a).
    apply IH. lia.
Qed.

Lemma controlCodes_split word :
  code_split word (controlCodes word) (Regexp.ReplaceAllString_empty word).
Proof.
  apply (code_split_from (Go.len word) word ""). lia.
Qed.

(** ** Width lookup *)

Lemma getWordPixelWidth_is_int fc word fontID :
  is_int (getWordPixelWidth fc word fontID).
Proof.
  unfold getWordPixelWidth, processControlCodes.
  apply fold_int_add_is_int, fold_int_add_is_int. unfold is_int. lia.
Qed.

Lemma getWordPixelWidth_sum fc word fontID :
  getWordPixelWidth fc word fontID
  = Go.wrap64
      (Zsum (map (fun code => getControlCodePixelWidth fc code fontID)
               (controlCodes word))
       + Zsum (map (fun pr : nat * Z => getRunePixelWidth fc pr.2 fontID)
                 (Go.range (Regexp.ReplaceAllString_empty word)))).
Proof.
  unfold getWordPixelWidth, processControlCodes.
  rewrite (fold_int_add_sum (fun pr : nat * Z => getRunePixelWidth fc pr.2 fontID)).
  2:{ apply fold_int_add_is_int. unfold is_int. lia. }
  rewrite (fold_int_add_sum (fun code => getControlCodePixelWidth fc code fontID));
    [|unfold is_int; lia].
  by rewrite Z.add_0_l, wrap64_add_l.
Qed.

Lemma wordWidthOf_first fc fontID word :
  wordWidthOf fc fontID true word = getWordPixelWidth fc word fontID.
Proof.
  unfold wordWidthOf, Go.int_add. simpl.
  apply wrap64_int, getWordPixelWidth_is_int.
Qed.

Lemma wordWidthOf_later fc fontID word :
  wordWidthOf fc fontID false word
  = Go.wrap64 (getRunePixelWidth fc (rune " ") fontID
               + getWordPixelWidth fc word fontID).
Proof.
  unfold wordWidthOf, Go.int_add. simpl. by rewrite wrap64_add_l.
Qed.

(** C5: the width lookup is a total function with a chain of fallbacks.  The
    test font gives 10 to every rune and 100 to every control code whatever
    the table holds.  Any other font identifier is looked up in the table: a
    font that is not there gives 0; a font that is there gives the width
    stored under the key, else the width stored under "default", else 0. *)
Theorem width_lookup_fallback_chain
    (fc : FontConfig) (r : Z) (code key fontID : string) :
  getRunePixelWidth fc r testFontID = 10
  /\ getControlCodePixelWidth fc code testFontID = 100
  /\ (fontID <> testFontID ->
      getRunePixelWidth fc r fontID
      = readWidthFromFontConfig fc (Go.string_of_rune r) fontID
      /\ getControlCodePixelWidth fc code fontID
         = readWidthFromFontConfig fc code fontID)
  /\ (FontTable fc !! fontID = None ->
      readWidthFromFontConfig fc key fontID = 0)
  /\ (forall font, FontTable fc !! fontID = Some font ->
      (forall width, Widths font !! key = Some width ->
         readWidthFromFontConfig fc key fontID = width)
      /\ (Widths font !! key = None ->
          forall width, Widths font !! "default" = Some width ->
            readWidthFromFontConfig fc key fontID = width)
      /\ (Widths font !! key = None -> Widths font !! "default" = None ->
          readWidthFromFontConfig fc key fontID = 0)).
Proof.
  split; [done|]. split; [done|]. split; [|split].
  - intros Hne%String.eqb_neq.
    unfold getRunePixelWidth, getControlCodePixelWidth. by rewrite Hne.
  - intros Hnone. unfold readWidthFromFontConfig. by rewrite Hnone.
  - intros font Hfont. unfold readWidthFromFontConfig. rewrite Hfont.
    split; [|split].
    + by intros width ->.
    + by intros -> width ->.
    + by intros -> ->.
Qed.

(** ** The tokenizer: runes and bytes *)

Lemma is_lnp_byte c :
  is_lnp (Go.byte_val c)
  = Ascii.eqb c "l" || Ascii.eqb c "n" || Ascii.eqb c "p".
Proof. unfold is_lnp. by rewrite !byte_val_eqb. Qed.

Lemma is_lnp_break c :
  is_lnp (Go.byte_val c) = true ->
  isLineBreak (String "\" (String c "")) = true.
Proof.
  rewrite is_lnp_byte. rewrite !orb_true_iff.
  intros [[H|H]|H]; apply Ascii.eqb_eq in H; by subst.
Qed.

Lemma isLineBreak_inv word :
  isLineBreak word = true ->
  exists c, word = String "\" (String c "").
Proof.
  unfold isLineBreak. rewrite !orb_true_iff.
  intros [[H|H]|H]; apply String.eqb_eq in H; subst; by eexists.
Qed.

Lemma special_high r :
  128 <= r ->
  is_lnp r = false /\ (r =? rune "\") = false /\ (r =? rune " ") = false
  /\ (r =? rune "{") = false /\ (r =? rune "}") = false.
Proof.
  intros Hr. unfold is_lnp.
  change (rune "l") with 108. change (rune "n") with 110.
  change (rune "p") with 112. change (rune "\") with 92.
  change (rune " ") with 32. change (rune "{") with 123.
  change (rune "}") with 125.
  repeat split; repeat (apply orb_false_intro); apply Z.eqb_neq; lia.
Qed.

Lemma getNextWord_body_high text s pos r :
  128 <= r ->
  getNextWord_body text s pos r
  = if endOnNext s then Return pos (Go.slice text (startPos s) pos) None
    else Continue (mkScan false (endPos s)
                     (if foundNonSpace s then startPos s else pos)
                     true true (endOnNext s) (controlCodeLevel s)).
Proof.
  intros (Hlnp & Hbs & Hsp & Hlb & Hrb)%special_high.
  unfold getNextWord_body.
  by rewrite Hlnp, Hbs, Hsp, Hlb, Hrb, andb_false_r.
Qed.

Lemma getNextWord_body_after_rune text s pos r :
  128 <= r -> after_rune s -> getNextWord_body text s pos r = Continue s.
Proof.
  intros Hr (Hesc & Hend & Hns & Hreg).
  rewrite getNextWord_body_high by done. destruct s. simpl in *. by subst.
Qed.

(** Walking the runes and walking the bytes give the same token: no byte of
    a rune that is not ASCII is one of the characters the loop looks for. *)
Lemma getNextWord_loop_bytes text : forall todo pos skip s,
  skip = 0%nat \/ (after_rune s /\ high_prefix skip todo) ->
  getNextWord_loop text s (Go.range_from pos skip todo)
  = scan_bytes text s pos todo.
Proof.
  induction todo as [|b todo IH]; intros pos skip s Hskip.
  { by destruct skip. }
  destruct skip as [|skip].
  - cbn [Go.range_from scan_bytes].
    destruct (Go.DecodeRune (String b todo)) as [r size] eqn:Hdec.
    cbn [getNextWord_loop].
    destruct (Z.lt_ge_cases (Go.byte_val b) 128) as [Hlow|Hhigh].
    + rewrite DecodeRune_ascii in Hdec by done. injection Hdec as <- <-.
      destruct (getNextWord_body _ _ _ _); [done|]. apply IH. by left.
    + destruct (DecodeRune_high _ _ _ _ Hhigh Hdec) as (Hr & Hsize & Hpre).
      rewrite (getNextWord_body_high _ _ _ r),
        (getNextWord_body_high _ _ _ (Go.byte_val b)) by done.
      destruct (endOnNext s) eqn:Hend; [done|]. apply IH.
      right. split; [|done]. by rewrite <- Hend.
  - destruct Hskip as [|[Hs [Hb Hpre]]]; [done|].
    cbn [Go.range_from scan_bytes].
    rewrite getNextWord_body_after_rune by done. apply IH. by right.
Qed.

Lemma getNextWord_bytes text :
  getNextWord text = scan_bytes text scan0 0 text.
Proof. apply getNextWord_loop_bytes. by left. Qed.

(** [getNextWord] returns no error, and what it returns with a word that is
    not empty is a positive number of bytes. *)
Lemma getNextWord_loop_ok text s items n word err :
  getNextWord_loop text s items = (n, word, err) ->
  err = None /\ (word <> "" -> (0 < n)%nat).
Proof.
  revert s; induction items as [|[pos char] items IH]; intros s; simpl.
  - destruct (negb (foundNonSpace s)); intros [= <- <- <-]; split; try done.
    apply drop_nonempty_len.
  - destruct (getNextWord_body text s pos char) as [n' word' err'|s'] eqn:Hbody;
      [|by apply IH].
    intros [= <- <- <-]. unfold getNextWord_body in Hbody.
    repeat match type of Hbody with
           | (if ?b then _ else _) = _ => destruct b
           end; inversion Hbody; subst; split; try done;
      apply slice_len_pos.
Qed.

Lemma getNextWord_no_error text n word err :
  getNextWord text = (n, word, err) -> err = None.
Proof. intros H. by apply getNextWord_loop_ok in H as [? _]. Qed.

Lemma getNextWord_progress text n word err :
  getNextWord text = (n, word, err) -> word <> "" -> (0 < n)%nat.
Proof. intros H. by apply getNextWord_loop_ok in H as [_ ?]. Qed.

(** ** The tokenizer: slices *)

Lemma positions_before_mono s pos pos' :
  positions_before s pos -> (pos <= pos')%nat -> positions_before s pos'.
Proof. intros [H1 H2] Hle. split; [lia|]. intros H. specialize (H2 H). lia. Qed.

Lemma getNextWord_body_in_range text s pos c :
  positions_before s pos -> (pos < Go.len text)%nat ->
  match getNextWord_body text s pos c with
  | Return n _ _ => (startPos s <= n <= Go.len text)%nat
  | Continue s' => positions_before s' (S pos)
  end.
Proof.
  intros [Hstart Hesc] Hpos. unfold getNextWord_body, positions_before.
  destruct (endOnNext s); [lia|].
  destruct (escape s) eqn:Hescape; simpl.
  - specialize (Hesc eq_refl).
    destruct (is_lnp c).
    { destruct (foundRegularRune s); simpl; [lia|]. split; [lia|]. lia. }
    destruct (_ && _).
    { simpl. destruct (foundRegularRune s); split; lia. }
    destruct (c =? rune " ").
    { destruct (_ && _); simpl; [lia|]. split; [lia|done]. }
    simpl. split; [|done]. destruct (foundNonSpace s); lia.
  - destruct (_ && _).
    { simpl. destruct (foundRegularRune s); split; lia. }
    destruct (c =? rune " ").
    { destruct (_ && _); simpl; [lia|]. split; [lia|done]. }
    simpl. split; [|done]. destruct (foundNonSpace s); lia.
Qed.

Lemma range_from_in_range text : forall todo done skip s,
  text = done +:+ todo ->
  positions_before s (Go.len done) ->
  slices_in_range text s (Go.range_from (Go.len done) skip todo).
Proof.
  induction todo as [|b todo IH]; intros done skip s Htext Hs.
  - rewrite app_empty_r in Htext. subst done. by destruct Hs.
  - assert (Hlen : (Go.len done < Go.len text)%nat).
    { rewrite Htext, len_app, len_cons. lia. }
    rewrite app_snoc in Htext. cbn [Go.range_from].
    destruct skip as [|skip].
    + destruct (Go.DecodeRune (String b todo)) as [r size].
      cbn [slices_in_range].
      pose proof (getNextWord_body_in_range text s (Go.len done) r Hs Hlen)
        as Hbody.
      destruct (getNextWord_body text s (Go.len done) r); [done|].
      rewrite <- (len_snoc done b). apply IH; [done|].
      by rewrite len_snoc.
    + rewrite <- (len_snoc done b). apply IH; [done|].
      rewrite len_snoc. eapply positions_before_mono; [done|lia].
Qed.

(** No slice of [getNextWord] is out of range, on any text. *)
Lemma getNextWord_in_range text :
  slices_in_range text scan0 (Go.range text).
Proof.
  apply (range_from_in_range text text "" 0 scan0); [done|].
  split; [done|]. done.
Qed.

(** ** The tokenizer: what is stepped over *)

Lemma getNextWord_body_shift k text s1 s2 p c :
  shifted k s1 s2 ->
  match getNextWord_body text s1 (k + p) c,
        getNextWord_body (Go.drop k text) s2 p c with
  | Return n1 w1 e1, Return n2 w2 e2 =>
    n1 = (k + n2)%nat /\ w1 = w2 /\ e1 = e2
  | Continue s1', Continue s2' => shifted k s1' s2'
  | _, _ => False
  end.
Proof.
  destruct s1 as [esc1 end1 start1 ns1 reg1 eon1 lvl1].
  destruct s2 as [esc2 end2 start2 ns2 reg2 eon2 lvl2].
  unfold shifted. simpl.
  intros (<- & <- & <- & <- & <- & Hsane & Hstart & Hend).
  unfold getNextWord_body. simpl.
  destruct ns1.
  - specialize (Hstart eq_refl) as ->. clear Hsane.
    destruct eon1; [by rewrite slice_drop|].
    destruct esc1; simpl.
    + specialize (Hend eq_refl) as ->.
      destruct (is_lnp c).
      { destruct reg1; [by rewrite slice_drop|done]. }
      destruct ((c =? rune "\") && (lvl1 =? 0)%nat); [by destruct reg1|].
      destruct (c =? rune " "); [|done].
      destruct (lvl1 =? 0)%nat; [by rewrite slice_drop|done].
    + destruct ((c =? rune "\") && (lvl1 =? 0)%nat); [by destruct reg1|].
      destruct (c =? rune " "); [|done].
      destruct (lvl1 =? 0)%nat; [by rewrite slice_drop|done].
  - destruct (Hsane eq_refl) as (-> & -> & ->). simpl.
    destruct ((c =? rune "\") && (lvl1 =? 0)%nat); [done|].
    destruct (c =? rune " "); done.
Qed.

Lemma scan_bytes_shift k text : (k <= Go.len text)%nat ->
  forall todo p s1 s2,
  shifted k s1 s2 ->
  scan_bytes text s1 (k + p) todo
  = let '(n, w, e) := scan_bytes (Go.drop k text) s2 p todo in
    ((k + n)%nat, w, e).
Proof.
  intros Hk. induction todo as [|b todo IH]; intros p s1 s2 Hsh.
  - destruct Hsh as (_ & Hns & _ & _ & _ & _ & Hstart & _). simpl.
    rewrite <- Hns, len_drop.
    destruct (foundNonSpace s1); simpl.
    + rewrite (Hstart eq_refl), drop_drop. f_equal. f_equal. lia.
    + do 2 f_equal. lia.
  - cbn [scan_bytes].
    pose proof (getNextWord_body_shift k text s1 s2 p (Go.byte_val b) Hsh)
      as Hbody.
    destruct (getNextWord_body text s1 (k + p) (Go.byte_val b)),
      (getNextWord_body (Go.drop k text) s2 p (Go.byte_val b));
      try done.
    + by destruct Hbody as (-> & -> & ->).
    + replace (S (k + p)) with (k + S p)%nat by lia. by apply IH.
Qed.

(** A space at the head of the text is stepped over. *)
Lemma getNextWord_space X :
  getNextWord (String " " X)
  = let '(n, w, e) := getNextWord X in (S n, w, e).
Proof.
  rewrite !getNextWord_bytes. cbn [scan_bytes].
  change (getNextWord_body _ scan0 0 (Go.byte_val " ")) with (Continue scan0).
  apply (scan_bytes_shift 1 (String " " X)) with (p := 0%nat);
    [rewrite len_cons; lia|done].
Qed.

(** Of two backslashes at the head of the text the first is stepped over. *)
Lemma getNextWord_backslashes X :
  getNextWord (String "\" (String "\" X))
  = let '(n, w, e) := getNextWord (String "\" X) in (S n, w, e).
Proof.
  rewrite !getNextWord_bytes. cbn [scan_bytes].
  change (getNextWord_body _ scan0 0 (Go.byte_val "\"))
    with (Continue (mkScan true 0 0 true false false 0)).
  change (getNextWord_body _ (mkScan true 0 0 true false false 0) 1
            (Go.byte_val "\"))
    with (Continue (mkScan true 1 1 true false false 0)).
  apply (scan_bytes_shift 1 (String "\" (String "\" X))) with (p := 1%nat);
    [rewrite len_cons; lia|].
  repeat split; done.
Qed.

Lemma getNextWord_break c X :
  is_lnp (Go.byte_val c) = true ->
  getNextWord (String "\" (String c X))
  = (2%nat, String "\" (String c ""), None).
Proof.
  intros Hlnp. rewrite getNextWord_bytes. cbn [scan_bytes].
  change (getNextWord_body _ scan0 0 (Go.byte_val "\"))
    with (Continue (mkScan true 0 0 true false false 0)).
  unfold getNextWord_body at 1. simpl. rewrite Hlnp.
  by destruct X.
Qed.

(** ** The tokenizer: the token *)

Lemma getNextWord_body_text text1 text2 s pos c :
  match getNextWord_body text1 s pos c, getNextWord_body text2 s pos c with
  | Return n1 _ e1, Return n2 _ e2 => n1 = n2 /\ e1 = e2
  | Continue s1, Continue s2 => s1 = s2
  | _, _ => False
  end.
Proof.
  unfold getNextWord_body.
  repeat match goal with
         | |- context [if ?b then _ else _] => destruct b
         end; done.
Qed.

Lemma getNextWord_body_continue text1 text2 s pos c s' :
  getNextWord_body text1 s pos c = Continue s' ->
  getNextWord_body text2 s pos c = Continue s'.
Proof.
  intros H. pose proof (getNextWord_body_text text1 text2 s pos c) as Hb.
  rewrite H in Hb. destruct (getNextWord_body text2 s pos c); [done|].
  by subst.
Qed.

Lemma scan_bytes_state text b : forall a s p s',
  scan_state s p a = Some s' ->
  scan_bytes text s p (a +:+ b) = scan_bytes text s' (p + Go.len a) b.
Proof.
  induction a as [|c a IH]; intros s p s'.
  - intros [= ->]. rewrite app_empty_l. f_equal. simpl. lia.
  - cbn [scan_state]. rewrite app_cons. cbn [scan_bytes].
    destruct (getNextWord_body "" s p (Go.byte_val c)) as [|s1] eqn:Hbody;
      [done|].
    rewrite (getNextWord_body_continue _ text _ _ _ _ Hbody).
    intros Hrec. rewrite (IH _ _ _ Hrec), len_cons. f_equal. lia.
Qed.

Lemma scan_state_snoc c : forall a s p s',
  scan_state s p a = Some s' ->
  scan_state s p (a +:+ String c "")
  = match getNextWord_body "" s' (p + Go.len a) (Go.byte_val c) with
    | Return _ _ _ => None
    | Continue s'' => Some s''
    end.
Proof.
  induction a as [|d a IH]; intros s p s'.
  - intros [= ->]. rewrite app_empty_l. cbn [scan_state].
    replace (p + Go.len "")%nat with p by (simpl; lia).
    by destruct (getNextWord_body _ _ _ _).
  - cbn [scan_state]. rewrite app_cons. cbn [scan_state].
    destruct (getNextWord_body "" s p (Go.byte_val d)) as [|s1]; [done|].
    intros Hrec. rewrite (IH _ _ _ Hrec), len_cons.
    by replace (S p + Go.len a)%nat with (p + S (Go.len a))%nat by lia.
Qed.

(** Reading a token again. *)
Lemma rescans_getNextWord t :
  rescans t -> getNextWord t = (Go.len t, t, None).
Proof.
  intros (s & Hs & Hstart & Hns).
  rewrite getNextWord_bytes.
  pose proof (scan_bytes_state t "" t scan0 0 s Hs) as Hrun.
  rewrite app_empty_r in Hrun. rewrite Hrun. simpl.
  by rewrite Hns, Hstart, drop_zero.
Qed.

Lemma space_ended_rescans t : space_ended t -> rescans t.
Proof. intros (s & ? & ? & ? & _). by exists s. Qed.

Lemma space_ended_getNextWord t Y :
  space_ended t ->
  getNextWord (t +:+ String " " Y) = (Go.len t, t, None).
Proof.
  intros (s & Hs & Hstart & Hns & Hend & Hlvl).
  rewrite getNextWord_bytes.
  rewrite (scan_bytes_state _ _ _ _ _ _ Hs). cbn [scan_bytes].
  unfold getNextWord_body. rewrite Hend, Hns, Hlvl, Hstart.
  change (is_lnp (Go.byte_val " ")) with false. rewrite andb_false_r.
  change (Go.byte_val " " =? rune "\") with false.
  change (Go.byte_val " " =? rune " ") with true. simpl.
  unfold Go.slice. rewrite drop_zero, Nat.sub_0_r. by rewrite take_app_len.
Qed.

Lemma mode_step text done c todo s :
  gap_head text = false ->
  text = done +:+ String c todo ->
  mode done s ->
  scan_state scan0 0 done = Some s ->
  match getNextWord_body text s (Go.len done) (Go.byte_val c) with
  | Continue s' => mode (done +:+ String c "") s'
  | Return n w e =>
    e = None /\ w = Go.take n text /\ w <> "" /\ n = Go.len w
    /\ ending w (Go.drop n text)
  end.
Proof.
  intros Hgap Htext Hmode Hstate.
  unfold getNextWord_body. rewrite !byte_val_eqb.
  destruct Hmode as [-> ->| -> ->|c0 -> Hc0 ->
                     |Hne Hstart Hns Hreg Heon Hesc
                     |d Hd -> Hstart Hns Hreg Heon Hesc Hend].
  - (* nothing read *)
    rewrite app_empty_l in Htext. subst text. simpl in Hgap.
    apply orb_false_elim in Hgap as [Hsp Hbs]. simpl.
    rewrite app_empty_l.
    destruct (Ascii.eqb_spec c "\") as [->|Hc]; simpl.
    + by apply mode_backslash.
    + rewrite Hsp. by apply mode_word.
  - (* one backslash read *)
    subst text. simpl in Hgap. rewrite Hgap. simpl.
    destruct (is_lnp (Go.byte_val c)) eqn:Hlnp.
    { by eapply mode_break. }
    destruct (Ascii.eqb_spec c " ") as [->|Hsp]; simpl.
    + repeat split; try done.
      eapply ending_space; [done|]. by eexists.
    + by apply mode_word.
  - (* a break read *)
    subst text. simpl. rewrite slice_zero. simpl.
    repeat split; try done. apply ending_break. by apply is_lnp_break.
  - (* inside a word *)
    rewrite Heon, Hesc, Hns, Hreg, Hstart. simpl.
    destruct (_ && _) eqn:Hbs.
    { apply andb_true_iff in Hbs as [->%Ascii.eqb_eq _].
      by eapply (mode_escape _ _ done). }
    destruct (Ascii.eqb_spec c " ") as [->|Hsp].
    + destruct (controlCodeLevel s =? 0)%nat eqn:Hlvl.
      * rewrite slice_zero. subst text. rewrite take_app_len.
        repeat split; try done.
        rewrite drop_app_len. eapply ending_space; [done|].
        exists s. apply Nat.eqb_eq in Hlvl. by repeat split.
      * apply mode_word; try done. apply snoc_nonempty.
    + apply mode_word; try done. apply snoc_nonempty.
  - (* inside a word, after a backslash *)
    rewrite Heon, Hesc, Hns, Hreg, Hstart, Hend. simpl.
    destruct (is_lnp (Go.byte_val c)) eqn:Hlnp.
    { rewrite slice_zero. subst text.
      rewrite app_assoc_str, take_app_len, drop_app_len.
      repeat split; try done. by eapply ending_escape. }
    destruct (_ && _) eqn:Hbs.
    { apply andb_true_iff in Hbs as [->%Ascii.eqb_eq _].
      eapply (mode_escape _ _ (d +:+ "\")); try done.
      by apply app_nonempty_l. }
    destruct (Ascii.eqb_spec c " ") as [->|Hsp].
    + destruct (controlCodeLevel s =? 0)%nat eqn:Hlvl.
      * rewrite slice_zero. subst text. rewrite take_app_len.
        repeat split; try done; [by apply app_nonempty_l|].
        rewrite drop_app_len. eapply ending_space; [done|].
        exists s. apply Nat.eqb_eq in Hlvl. by repeat split.
      * apply mode_word; try done. apply snoc_nonempty.
    + apply mode_word; try done. apply snoc_nonempty.
Qed.

Lemma lead_free_run text :
  gap_head text = false -> text <> "" ->
  forall todo done s,
  text = done +:+ todo ->
  mode done s ->
  scan_state scan0 0 done = Some s ->
  exists n w,
    scan_bytes text s (Go.len done) todo = (n, w, None)
    /\ w = Go.take n text /\ w <> "" /\ n = Go.len w
    /\ ending w (Go.drop n text).
Proof.
  intros Hgap Hne. induction todo as [|c todo IH]; intros done s Htext Hmode Hs.
  - rewrite app_empty_r in Htext. subst done. simpl.
    assert (Hends : foundNonSpace s = true /\ startPos s = 0%nat
                    /\ ending text "").
    { destruct Hmode as [? ->| -> ->|c0 -> Hc0 ->
                         |_ Hstart Hns Hreg Heon Hesc
                         |d Hd -> Hstart Hns Hreg Heon Hesc Hend];
        try done; repeat split; try done.
      - apply ending_text; [done|]. by eexists.
      - by apply ending_break, is_lnp_break.
      - apply ending_text; [done|]. by exists s.
      - apply ending_text; [done|]. by exists s. }
    destruct Hends as (-> & -> & Hending). simpl.
    exists (Go.len text), text.
    rewrite take_all, drop_all by lia. by repeat split.
  - cbn [scan_bytes].
    pose proof (mode_step text done c todo s Hgap Htext Hmode Hs) as Hstep.
    destruct (getNextWord_body text s (Go.len done) (Go.byte_val c))
      as [n w e|s'] eqn:Hbody.
    + destruct Hstep as (-> & Hw & Hwne & Hn & Hend). by exists n, w.
    + rewrite <- len_snoc with (a := c). apply IH; [|done|].
      * by rewrite <- app_snoc.
      * rewrite (scan_state_snoc _ _ _ _ _ Hs). simpl.
        by rewrite (getNextWord_body_continue _ "" _ _ _ _ Hbody).
Qed.

Lemma only_gap_app s t : only_gap (s +:+ t) = only_gap s && only_gap t.
Proof.
  induction s as [|a s IH]; [done|].
  rewrite app_cons. simpl. by rewrite IH, andb_assoc.
Qed.

(** What [getNextWord] returns: after bytes it steps over, which are spaces
    and backslashes, a token that is a piece of the text, and the number of
    bytes up to the end of the token; or no token, for a text of spaces. *)
Lemma getNextWord_spec rest : forall n t e,
  getNextWord rest = (n, t, e) ->
  (t = "" -> only_gap rest = true)
  /\ (t <> "" ->
      exists gap,
        only_gap gap = true
        /\ rest = gap +:+ t +:+ Go.drop n rest
        /\ n = (Go.len gap + Go.len t)%nat
        /\ ending t (Go.drop n rest)).
Proof.
  induction rest as [|a X IH]; intros n t e Hnext.
  { by injection Hnext as <- <- <-. }
  destruct (gap_head (String a X)) eqn:Hgap.
  - assert (Hskip : getNextWord (String a X)
              = (let '(n, w, e) := getNextWord X in (S n, w, e))
            /\ (Ascii.eqb a " " || Ascii.eqb a "\") = true).
    { simpl in Hgap. destruct (Ascii.eqb_spec a " ") as [->|Hsp].
      - split; [apply getNextWord_space|done].
      - simpl in Hgap. apply andb_true_iff in Hgap as [->%Ascii.eqb_eq Hb].
        destruct X as [|b X]; [done|]. apply Ascii.eqb_eq in Hb as ->.
        split; [apply getNextWord_backslashes|done]. }
    destruct Hskip as [Hskip Ha]. rewrite Hskip in Hnext.
    destruct (getNextWord X) as [[n' t'] e'] eqn:HX.
    injection Hnext as <- <- <-.
    destruct (IH n' t' e' eq_refl) as [Hempty Htoken]. split.
    + intros Ht. simpl. by rewrite Ha, (Hempty Ht).
    + intros Ht. destruct (Htoken Ht) as (gap & Hg & HXeq & Hn & Hend).
      exists (String a gap). rewrite drop_cons. repeat split.
      * simpl. by rewrite Ha, Hg.
      * rewrite app_cons. by f_equal.
      * rewrite len_cons. lia.
      * done.
  - destruct (lead_free_run (String a X) Hgap ltac:(done)
                (String a X) "" scan0 eq_refl (mode_start _ _ eq_refl eq_refl)
                eq_refl) as (n0 & w & Hrun & Hw & Hne & Hn & Hend).
    rewrite getNextWord_bytes in Hnext. simpl Go.len in Hrun.
    rewrite Hrun in Hnext. injection Hnext as <- <- <-.
    split; [done|]. intros _. exists "". rewrite !app_empty_l.
    repeat split; try done.
    rewrite Hw at 1. by rewrite take_drop.
Qed.

Lemma getNextWord_body_space_in_braces text s pos :
  endOnNext s = false -> controlCodeLevel s <> 0%nat ->
  getNextWord_body text s pos (rune " ")
  = Continue (mkScan false (endPos s) (startPos s) (foundNonSpace s)
                (foundRegularRune s) false (controlCodeLevel s)).
Proof.
  intros Heon Hlvl. unfold getNextWord_body. rewrite Heon.
  change (is_lnp (rune " ")) with false. rewrite andb_false_r.
  change (rune " " =? rune "\") with false.
  change (rune " " =? rune " ") with true. simpl.
  apply Nat.eqb_neq in Hlvl. by rewrite Hlvl, andb_false_r.
Qed.

(** ** The tokenizer: escapes *)

(** C7, amended: the tokenizer at brace depth zero, having read [pre], meets
    a backslash and a character [c].  If [c] is l, n or p and ordinary
    characters have been found, it returns the word read so far, which ends
    just before the backslash, and the number of bytes before the backslash,
    so that the next call starts at the escape and returns it.  If [c] is l,
    n or p and no ordinary character has been found, it returns the two
    characters of the escape, a break token.  If [c] is a space, the token
    ends there with the backslash as its last character.  If [c] is anything
    else but a backslash, the loop goes on with the backslash and [c] inside
    the token. *)
Theorem backslash_escape_in_tokenizer
    (pre rest : string) (c : ascii) (s : scan) :
  scan_state scan0 0 pre = Some s ->
  controlCodeLevel s = 0%nat ->
  endOnNext s = false ->
  let text := pre +:+ String "\" (String c rest) in
  let start := if foundRegularRune s then startPos s else Go.len pre in
  (is_lnp (Go.byte_val c) = true -> foundRegularRune s = true ->
   getNextWord text = (Go.len pre, Go.drop (startPos s) pre, None)
   /\ Go.drop (Go.len pre) text = String "\" (String c rest)
   /\ getNextWord (String "\" (String c rest))
      = (2%nat, String "\" (String c ""), None))
  /\ (is_lnp (Go.byte_val c) = true -> foundRegularRune s = false ->
      getNextWord text
      = ((Go.len pre + 2)%nat, String "\" (String c ""), None)
      /\ isLineBreak (String "\" (String c "")) = true)
  /\ (c = " "%char ->
      getNextWord text
      = ((Go.len pre + 1)%nat, Go.drop start (pre +:+ "\"), None))
  /\ (is_lnp (Go.byte_val c) = false -> c <> " "%char -> c <> "\"%char ->
      exists s',
        scan_state scan0 0 (pre +:+ String "\" (String c "")) = Some s'
        /\ startPos s' = start
        /\ foundNonSpace s' = true /\ foundRegularRune s' = true
        /\ escape s' = false /\ endOnNext s' = false).
Proof.
  intros Hs Hlvl Heon text start.
  assert (Hbreak : forall X, is_lnp (Go.byte_val c) = true ->
            getNextWord (String "\" (String c X))
            = (2%nat, String "\" (String c ""), None)).
  { intros X Hlnp. rewrite getNextWord_bytes. cbn [scan_bytes].
    change (getNextWord_body _ scan0 0 (Go.byte_val "\"))
      with (Continue (mkScan true 0 0 true false false 0)).
    unfold getNextWord_body at 1. simpl. rewrite Hlnp.
    by destruct X. }
  assert (Hrun : getNextWord text
            = scan_bytes text
                (mkScan true (Go.len pre) start true (foundRegularRune s)
                   false 0)
                (S (Go.len pre)) (String c rest)).
  { rewrite getNextWord_bytes. unfold text at 2.
    rewrite (scan_bytes_state _ _ _ _ _ _ Hs). cbn [scan_bytes].
    unfold getNextWord_body at 1. rewrite Heon, Hlvl, byte_val_eqb.
    change (is_lnp (Go.byte_val "\")) with false. rewrite andb_false_r.
    reflexivity. }
  split; [|split; [|split]].
  - intros Hlnp Hreg. split; [|split; [apply drop_app_len|by apply Hbreak]].
    rewrite Hrun. cbn [scan_bytes]. unfold getNextWord_body. simpl.
    rewrite Hlnp, Hreg. subst start. rewrite Hreg. unfold text.
    by rewrite slice_prefix.
  - intros Hlnp Hreg. split; [|by apply is_lnp_break].
    rewrite Hrun. cbn [scan_bytes]. unfold getNextWord_body at 1. simpl.
    rewrite Hlnp, Hreg. subst start. rewrite Hreg.
    replace (Go.len pre + 2)%nat with (S (S (Go.len pre))) by lia.
    destruct rest as [|b rest]; simpl.
    + unfold text. rewrite drop_app_len, len_app. do 2 f_equal.
      simpl. lia.
    + unfold text. by rewrite slice_two.
  - intros ->. rewrite Hrun. cbn [scan_bytes].
    unfold getNextWord_body. simpl.
    unfold text. rewrite (app_snoc pre "\"), <- (len_snoc pre "\").
    rewrite slice_prefix. do 2 f_equal. rewrite len_snoc. lia.
  - intros Hlnp Hsp Hbs.
    assert (Hs1 : scan_state scan0 0 (pre +:+ "\")
              = Some (mkScan true (Go.len pre) start true
                        (foundRegularRune s) false 0)).
    { rewrite (scan_state_snoc _ _ _ _ _ Hs).
      unfold getNextWord_body. rewrite Heon, Hlvl, byte_val_eqb.
      change (is_lnp (Go.byte_val "\")) with false.
      by rewrite andb_false_r. }
    rewrite (app_snoc pre "\"), (scan_state_snoc _ _ _ _ _ Hs1).
    unfold getNextWord_body. simpl. rewrite Hlnp, !byte_val_eqb.
    apply Ascii.eqb_neq in Hsp, Hbs. rewrite Hsp, Hbs. simpl.
    eexists. by repeat split.
Qed.

Lemma backslash_escape_in_tokenizer_witness :
  getNextWord "hello\p world" = (5%nat, "hello", None)
  /\ Go.drop 5 "hello\p world" = "\p world"
  /\ getNextWord "\p world" = (2%nat, "\p", None).
Proof.
  refine (proj1 (backslash_escape_in_tokenizer "hello" " world" "p"
                   (mkScan false 0 0 true true false 0) _ _ _) _ _);
    reflexivity.
Defined.

(** C7, as stated, fails: the first of two backslashes is followed by a
    character that is not l, n or p, and it is not kept as text: the token
    starts at the second backslash, and the first is in no token. *)
Lemma backslash_before_backslash_dropped :
  getNextWord "\\x" = (3%nat, "\x", None)
  /\ FormatText noFonts "\\x" 100 "TEST" = Some ("\x", None)
  /\ ~ substring_of "\\x" "\x".
Proof.
  split; [done|]. split; [done|].
  intros (pre & post & Heq). apply (f_equal Go.len) in Heq.
  rewrite !len_app in Heq. simpl in Heq. lia.
Qed.

(** ** The wrap engine, one token at a time *)

Lemma FormatText_fuel_test fuel fc text maxWidth :
  FormatText_fuel fuel fc text maxWidth testFontID
  = FormatText_loop fuel fc maxWidth testFontID
      (Go.ReplaceAll_newline_space text) 0 wrap0.
Proof.
  unfold FormatText_fuel. rewrite String.eqb_refl. simpl negb.
  by rewrite andb_false_r.
Qed.

Lemma overflows_nonempty maxWidth w wordWidth :
  overflows maxWidth w wordWidth = true -> curLineSb w <> "".
Proof.
  unfold overflows. rewrite andb_true_iff. intros [_ H].
  by apply len_pos_nonempty.
Qed.

(** A line is flushed only before a word that is not the first of its
    line. *)
Lemma overflows_not_first maxWidth w wordWidth :
  wrap_ok w -> overflows maxWidth w wordWidth = true ->
  isFirstWord w = false.
Proof.
  intros Hok Hover%overflows_nonempty.
  destruct (isFirstWord w) eqn:Hfirst; [|done].
  destruct Hover. by apply Hok.
Qed.

Lemma wrap0_ok : wrap_ok wrap0.
Proof. done. Qed.

Lemma FormatText_word_ok fc maxWidth fontID w word :
  word <> "" -> wrap_ok (FormatText_word fc maxWidth fontID w word).
Proof.
  intros Hword. unfold FormatText_word, wrap_ok.
  destruct (isLineBreak word); [done|].
  destruct (overflows _ _ _); simpl; split; try done.
  intros [_ [_ ?]%app_eq_empty]%app_eq_empty. done.
Qed.

Lemma FormatText_word_keeps_word fc maxWidth fontID w word :
  isLineBreak word = false ->
  exists line,
    curLineSb (FormatText_word fc maxWidth fontID w word) = line +:+ word.
Proof.
  intros Hbreak. unfold FormatText_word. rewrite Hbreak.
  destruct (overflows _ _ _); simpl.
  - by exists "".
  - eexists. by rewrite <- app_assoc_str.
Qed.

(** C1: with the test font and a maximal width of 25, "ab cd" is formatted
    without error as "ab", the two characters backslash and n, a newline, and
    "cd".  The first word has width 20 and goes on the empty line; the second
    has width 10 + 20 = 30 with its space; 20 + 30 = 50 exceeds 25 on a line
    that is not empty, so the line is flushed, and the marker is the one of
    the first line of a paragraph. *)
Theorem FormatText_ab_cd_test_font (fc : FontConfig) :
  FormatText fc "ab cd" 25 "TEST" = Some ("ab\n" +:+ NL +:+ "cd", None)
  /\ wordWidthOf fc "TEST" true "ab" = 20
  /\ FormatText_word fc 25 "TEST" wrap0 "ab" = mkWrap "" "ab" 20 true false
  /\ wordWidthOf fc "TEST" false "cd" = 30
  /\ Go.int_add 20 30 = 50
  /\ overflows 25 (mkWrap "" "ab" 20 true false) 30 = true
  /\ FormatText_word fc 25 "TEST" (mkWrap "" "ab" 20 true false) "cd"
     = mkWrap ("ab\n" +:+ NL) "cd" 30 false false.
Proof.
  repeat split; try (vm_compute; reflexivity).
  unfold FormatText. change "TEST" with testFontID.
  rewrite FormatText_fuel_test. vm_compute. reflexivity.
Qed.

(** C4: an authored break token, one of the two-character texts backslash n,
    backslash l, backslash p, makes the engine append the current line, the
    token as it is and a newline to the output, empty the line, reset its
    width to 0, and mark the next word as the first of its line; the next
    line is the first of a paragraph exactly when the token is backslash p.
    So "hello\p world" under the test font gives "hello\p", a newline, and
    "world". *)
Theorem break_token_flushes_line
    (fc : FontConfig) (maxWidth : Z) (fontID : string) (w : wrap)
    (word : string) :
  word = "\n" \/ word = "\l" \/ word = "\p" ->
  isLineBreak word = true
  /\ FormatText_word fc maxWidth fontID w word
     = mkWrap (formattedSb w +:+ curLineSb w +:+ word +:+ NL)
         "" 0 (bool_decide (word = "\p")) true
  /\ getNextWord "hello\p world" = (5%nat, "hello", None)
  /\ getNextWord "\p world" = (2%nat, "\p", None)
  /\ FormatText fc "hello\p world" 1000 "TEST"
     = Some ("hello\p" +:+ NL +:+ "world", None).
Proof.
  intros Hword. repeat split.
  - by destruct Hword as [->|[->| ->]].
  - by destruct Hword as [->|[->| ->]].
  - unfold FormatText. change "TEST" with testFontID.
    rewrite FormatText_fuel_test. vm_compute. reflexivity.
Qed.

Lemma break_token_flushes_line_witness :
  FormatText_word noFonts 40 "TEST" (mkWrap "" "ab cd" 50 true false) "\l"
  = mkWrap ("ab cd\l" +:+ NL) "" 0 false true.
Proof.
  apply (break_token_flushes_line noFonts 40 "TEST"
           (mkWrap "" "ab cd" 50 true false) "\l").
  right; left; reflexivity.
Defined.

(** C3: when a word that is not the first of its line overflows a line that
    is not empty, the line is flushed and the width recorded for the new line
    is the width computed for the word, the width of one space included, so
    it exceeds the width of the glyphs of the word, which is all the new line
    holds, by one space; and the next word is not the first of the line. *)
Theorem auto_wrap_keeps_space_width
    (fc : FontConfig) (maxWidth : Z) (fontID : string) (w : wrap)
    (word : string) :
  isLineBreak word = false ->
  isFirstWord w = false ->
  overflows maxWidth w (wordWidthOf fc fontID false word) = true ->
  let w' := FormatText_word fc maxWidth fontID w word in
  let space := getRunePixelWidth fc (rune " ") fontID in
  let glyphs := getWordPixelWidth fc word fontID in
  curLineSb w <> ""
  /\ formattedSb w'
     = formattedSb w +:+ curLineSb w
         +:+ (if isFirstLine w then "\n" else "\l") +:+ NL
  /\ curLineSb w' = word
  /\ curWidth w' = wordWidthOf fc fontID false word
  /\ curWidth w' = Go.wrap64 (space + glyphs)
  /\ wordWidthOf fc fontID true word = glyphs
  /\ (is_int (space + glyphs) -> curWidth w' = glyphs + space)
  /\ isFirstWord w' = false
  /\ isFirstLine w' = false.
Proof.
  intros Hbreak Hfirst Hover w' space glyphs. subst w'.
  unfold FormatText_word. rewrite Hbreak, Hfirst, Hover. simpl.
  split.
  { unfold overflows in Hover. apply andb_true_iff in Hover as [_ Hlen].
    intros Hempty. by rewrite Hempty in Hlen. }
  repeat split.
  - apply wordWidthOf_later.
  - apply wordWidthOf_first.
  - intros Hint. rewrite wordWidthOf_later. fold space glyphs.
    rewrite wrap64_int; [lia|done].
Qed.

Lemma auto_wrap_keeps_space_width_witness :
  curWidth (FormatText_word noFonts 25 "TEST" (mkWrap "" "ab" 20 true false) "cd")
  = 30.
Proof.
  refine (proj1 (proj2 (proj2 (proj2 (proj2
    (auto_wrap_keeps_space_width noFonts 25 "TEST"
       (mkWrap "" "ab" 20 true false) "cd" _ _ _)))))); reflexivity.
Defined.

(** C6: the width measured for a word is the sum of the widths of its control
    codes, each looked up under its whole text with the braces, and of the
    widths of the runes of what is left of the word once the control codes
    are taken out; the sum is the one of [int], which is the sum of the
    numbers whenever that is an [int]; with the test font it is 100 for every
    control code and 10 for every rune.  The word goes into the line as it
    is, control codes included: "{COLOR RED}hi" has width 120 under the test
    font and is the output as it is. *)
Theorem word_width_is_codes_plus_glyphs
    (fc : FontConfig) (maxWidth : Z) (fontID : string) (w : wrap)
    (word : string) :
  let codes := controlCodes word in
  let stripped := Regexp.ReplaceAllString_empty word in
  let codeWidths :=
    Zsum (map (fun code => getControlCodePixelWidth fc code fontID) codes) in
  let glyphWidths :=
    Zsum (map (fun pr : nat * Z => getRunePixelWidth fc pr.2 fontID)
            (Go.range stripped)) in
  code_split word codes stripped
  /\ getWordPixelWidth fc word fontID = Go.wrap64 (codeWidths + glyphWidths)
  /\ (is_int (codeWidths + glyphWidths) ->
      getWordPixelWidth fc word fontID = codeWidths + glyphWidths)
  /\ getWordPixelWidth fc word testFontID
     = Go.wrap64 (100 * Z.of_nat (length codes)
                  + 10 * Z.of_nat (length (Go.range stripped)))
  /\ (isLineBreak word = false ->
      exists line,
        curLineSb (FormatText_word fc maxWidth fontID w word)
        = line +:+ word)
  /\ controlCodes "{COLOR RED}hi" = ["{COLOR RED}"]
  /\ Regexp.ReplaceAllString_empty "{COLOR RED}hi" = "hi"
  /\ getWordPixelWidth fc "{COLOR RED}hi" "TEST" = 120
  /\ FormatText fc "{COLOR RED}hi" 1000 "TEST"
     = Some ("{COLOR RED}hi", None).
Proof.
  intros codes stripped codeWidths glyphWidths.
  subst codes stripped codeWidths glyphWidths.
  split; [apply controlCodes_split|].
  split; [apply getWordPixelWidth_sum|].
  split; [intros Hint; by rewrite getWordPixelWidth_sum, wrap64_int|].
  split.
  { rewrite getWordPixelWidth_sum.
    by rewrite (Zsum_const _ 100), (Zsum_const _ 10). }
  split; [apply FormatText_word_keeps_word|].
  split; [done|]. split; [done|]. split; [done|].
  unfold FormatText. change "TEST" with testFontID.
  rewrite FormatText_fuel_test. vm_compute. reflexivity.
Qed.

(** ** The loop of [FormatText] *)

Lemma tokens_S fuel rest :
  tokens (S fuel) rest
  = if (0 <? Go.len rest)%nat then
      let '(endPos, word, _) := getNextWord rest in
      if (Go.len word =? 0)%nat then Some []
      else (fun ws => word :: ws) <$> tokens fuel (Go.drop endPos rest)
    else Some [].
Proof. done. Qed.

Lemma tokens_empty fuel : tokens fuel "" = Some [].
Proof. by destruct fuel. Qed.

Lemma tokens_enough fuel rest :
  (Go.len rest <= fuel)%nat -> is_Some (tokens fuel rest).
Proof.
  revert rest; induction fuel as [|fuel IH]; intros rest Hlen; simpl.
  - destruct (0 <? Go.len rest)%nat eqn:Hpos; [|done].
    apply Nat.ltb_lt in Hpos. lia.
  - destruct (0 <? Go.len rest)%nat eqn:Hpos; [|done].
    apply Nat.ltb_lt in Hpos.
    destruct (getNextWord rest) as [[n word] err] eqn:Hnext.
    destruct (Go.len word =? 0)%nat eqn:Hword; [done|].
    apply len_nonzero in Hword.
    pose proof (getNextWord_progress _ _ _ _ Hnext Hword) as Hn.
    destruct (IH (Go.drop n rest)) as [ws Hws].
    { rewrite len_drop. lia. }
    rewrite Hws. by eexists.
Qed.

Lemma tokens_fuel fuel fuel' rest ws :
  tokens fuel rest = Some ws -> (fuel <= fuel')%nat ->
  tokens fuel' rest = Some ws.
Proof.
  revert fuel' rest ws; induction fuel as [|fuel IH];
    intros fuel' rest ws; simpl.
  - destruct (0 <? Go.len rest)%nat eqn:Hpos; [done|].
    intros [= <-] _. destruct fuel'; simpl; by rewrite Hpos.
  - destruct (0 <? Go.len rest)%nat eqn:Hpos.
    2:{ intros [= <-] _. destruct fuel'; simpl; by rewrite Hpos. }
    intros Hws Hle. destruct fuel' as [|fuel']; [lia|]. simpl. rewrite Hpos.
    destruct (getNextWord rest) as [[n word] err].
    destruct (Go.len word =? 0)%nat; [done|].
    destruct (tokens fuel (Go.drop n rest)) as [ws'|] eqn:Hrec; [|done].
    rewrite (IH fuel' _ ws' Hrec); [done|lia].
Qed.

Lemma tokens_unique f1 f2 rest ws1 ws2 :
  tokens f1 rest = Some ws1 -> tokens f2 rest = Some ws2 -> ws1 = ws2.
Proof.
  intros H1 H2.
  apply (tokens_fuel _ (f1 `max` f2)) in H1; [|lia].
  apply (tokens_fuel _ (f1 `max` f2)) in H2; [|lia]. congruence.
Qed.

Lemma tokens_nonempty fuel rest ws :
  tokens fuel rest = Some ws -> Forall (fun word => word <> "") ws.
Proof.
  revert rest ws; induction fuel as [|fuel IH]; intros rest ws; simpl.
  - destruct (0 <? Go.len rest)%nat; [done|]. by intros [= <-].
  - destruct (0 <? Go.len rest)%nat; [|by intros [= <-]].
    destruct (getNextWord rest) as [[n word] err].
    destruct (Go.len word =? 0)%nat eqn:Hword; [by intros [= <-]|].
    destruct (tokens fuel (Go.drop n rest)) as [ws'|] eqn:Hrec; [|done].
    intros [= <-]. constructor; [by apply len_nonzero|by eapply IH].
Qed.

(** The loop is the engine run over the tokens of the text that is left. *)
Lemma FormatText_loop_tokens fuel fc maxWidth fontID text pos w :
  FormatText_loop fuel fc maxWidth fontID text pos w
  = (fun ws => FormatText_finish (FormatText_words fc maxWidth fontID w ws))
      <$> tokens fuel (Go.drop pos text).
Proof.
  revert pos w; induction fuel as [|fuel IH]; intros pos w; simpl;
    rewrite len_drop;
    replace (0 <? Go.len text - pos)%nat with (pos <? Go.len text)%nat
      by (destruct (Nat.ltb_spec pos (Go.len text));
          destruct (Nat.ltb_spec 0 (Go.len text - pos)); done || lia);
    destruct (pos <? Go.len text)%nat; try done.
  destruct (getNextWord (Go.drop pos text)) as [[n word] err] eqn:Hnext.
  rewrite (getNextWord_no_error _ _ _ _ Hnext).
  destruct (Go.len word =? 0)%nat; [done|].
  rewrite IH, drop_drop.
  by destruct (tokens fuel (Go.drop (pos + n) text)).
Qed.

(** Whether [FormatText] rejects the font identifier. *)
Lemma font_check fc fontID :
  negb (isFontIDValid fc fontID) && (0 <? Go.len fontID)%nat
    && negb (String.eqb fontID testFontID) = true
  <-> fontID <> "" /\ fontID <> testFontID /\ FontTable fc !! fontID = None.
Proof.
  unfold isFontIDValid. rewrite !andb_true_iff, !negb_true_iff.
  rewrite String.eqb_neq, bool_decide_eq_false, Nat.ltb_lt.
  rewrite <- eq_None_not_Some.
  split.
  - intros [[Hnone Hlen] Htest]. repeat split; try done.
    intros ->. unfold Go.len in Hlen. simpl in Hlen. lia.
  - intros (Hne & Htest & Hnone). repeat split; try done.
    destruct fontID; [done|]. unfold Go.len. simpl. lia.
Qed.

Lemma font_check_accepts fc fontID :
  fontID = "" \/ fontID = testFontID \/ is_Some (FontTable fc !! fontID) ->
  negb (isFontIDValid fc fontID) && (0 <? Go.len fontID)%nat
    && negb (String.eqb fontID testFontID) = false.
Proof.
  intros Hok. apply not_true_is_false.
  intros (Hne & Htest & Hnone)%font_check.
  destruct Hok as [?|[?|[font Hfont]]]; congruence.
Qed.

(** With a font identifier it accepts, [FormatText] is the engine run over
    the tokens of the normalized text. *)
Lemma FormatText_accepted fc text maxWidth fontID :
  negb (isFontIDValid fc fontID) && (0 <? Go.len fontID)%nat
    && negb (String.eqb fontID testFontID) = false ->
  exists ws,
    tokens (Go.len text) (Go.ReplaceAll_newline_space text) = Some ws
    /\ FormatText fc text maxWidth fontID
       = Some (FormatText_finish
                 (FormatText_words fc maxWidth fontID wrap0 ws)).
Proof.
  intros Hcheck. unfold FormatText, FormatText_fuel. rewrite Hcheck.
  destruct (tokens_enough (Go.len text) (Go.ReplaceAll_newline_space text))
    as [ws Hws]; [by rewrite len_ReplaceAll|].
  exists ws. split; [done|].
  rewrite FormatText_loop_tokens, drop_zero. by rewrite Hws.
Qed.



(** ** The shape of the output *)

(** The output of the engine started in the state [w]: what [w] holds, then
    the tokens laid out. *)
Lemma FormatText_words_layout fc maxWidth fontID ws : forall w,
  Forall (fun word => word <> "") ws -> wrap_ok w ->
  exists out,
    (FormatText_finish (FormatText_words fc maxWidth fontID w ws)).1
    = formattedSb w +:+ curLineSb w +:+ out
    /\ layout (isFirstWord w) ws out.
Proof.
  induction ws as [|word ws IH]; intros w Hws Hok.
  - exists "". split; [|constructor]. unfold FormatText_finish. simpl.
    rewrite app_empty_r.
    destruct (0 <? Go.len (curLineSb w))%nat eqn:Hlen; [done|].
    destruct (curLineSb w); [by rewrite app_empty_r|done].
  - apply Forall_cons in Hws as [Hword Hws].
    destruct (IH (FormatText_word fc maxWidth fontID w word) Hws
                (FormatText_word_ok _ _ _ _ _ Hword)) as (out & Hout & Hlay).
    unfold FormatText_words in *. cbn [fold_left]. rewrite Hout.
    clear Hout IH.
    unfold FormatText_word in *.
    destruct (isLineBreak word) eqn:Hbreak.
    { exists (word +:+ NL +:+ out). simpl in *. split.
      - by rewrite !app_assoc_str.
      - by constructor. }
    destruct (overflows _ _ _) eqn:Hover; simpl in *.
    { apply overflows_nonempty in Hover.
      destruct (isFirstWord w) eqn:Hfirst.
      { destruct Hover. by apply Hok. }
      exists (((if isFirstLine w then "\n" else "\l") +:+ NL)
                +:+ word +:+ out).
      split; [by rewrite !app_assoc_str|].
      constructor; [done| |done]. right.
      unfold wrap_marker. destruct (isFirstLine w); auto. }
    destruct (isFirstWord w) eqn:Hfirst; simpl in *.
    + exists (word +:+ out). split; [|by constructor].
      rewrite (proj1 Hok Hfirst). by rewrite !app_assoc_str.
    + exists (" " +:+ word +:+ out). split; [by rewrite !app_assoc_str|].
      constructor; auto.
Qed.

Lemma layout_substring first ws out :
  layout first ws out -> Forall (fun word => substring_of word out) ws.
Proof.
  induction 1 as [|first word words out Hbreak _ IH
                  |word words out Hbreak _ IH
                  |sep word words out Hbreak Hsep _ IH]; [done|..];
    constructor.
  - by exists "", (NL +:+ out).
  - eapply Forall_impl; [exact IH|]. intros t (pre & post & ->).
    exists (word +:+ NL +:+ pre), post. by rewrite !app_assoc_str.
  - by exists "", out.
  - eapply Forall_impl; [exact IH|]. intros t (pre & post & ->).
    exists (word +:+ pre), post. by rewrite !app_assoc_str.
  - by exists sep, out.
  - eapply Forall_impl; [exact IH|]. intros t (pre & post & ->).
    exists (sep +:+ word +:+ pre), post. by rewrite !app_assoc_str.
Qed.

(** With a font identifier it accepts, [FormatText] lays out the tokens of
    the normalized text. *)
Lemma FormatText_layout fc text maxWidth fontID :
  negb (isFontIDValid fc fontID) && (0 <? Go.len fontID)%nat
    && negb (String.eqb fontID testFontID) = false ->
  exists ws out,
    tokens (Go.len text) (Go.ReplaceAll_newline_space text) = Some ws
    /\ FormatText fc text maxWidth fontID = Some (out, None)
    /\ layout true ws out.
Proof.
  intros Hcheck.
  destruct (FormatText_accepted fc text maxWidth fontID Hcheck)
    as (ws & Hws & ->).
  destruct (FormatText_words_layout fc maxWidth fontID ws wrap0)
    as (out & Hout & Hlay);
    [by eapply tokens_nonempty|apply wrap0_ok|].
  exists ws, out. split; [done|]. split; [|done].
  rewrite !app_empty_l in Hout. rewrite <- Hout.
  by unfold FormatText_finish.
Qed.

(** C10: the engine wraps a line only when the line buffer holds something.
    A word that arrives at an empty line is put on it whole, whatever its
    width and whatever the maximal width, zero and negative ones included;
    when a line is flushed, the flushed line is not empty and the new line is
    the whole word.  So for every text and every font identifier that is
    accepted, [FormatText] returns an output without error, and the output
    holds every token whole, in order, with a marker and a newline only
    before a word that is not the first of its line. *)
Theorem oversized_word_placed_whole
    (fc : FontConfig) (text : string) (maxWidth : Z) (fontID : string)
    (w : wrap) (word : string) :
  let wordWidth := wordWidthOf fc fontID (isFirstWord w) word in
  let w' := FormatText_word fc maxWidth fontID w word in
  (curLineSb w = "" -> overflows maxWidth w wordWidth = false)
  /\ (isLineBreak word = false -> overflows maxWidth w wordWidth = false ->
      w' = mkWrap (formattedSb w)
             (curLineSb w +:+ (if negb (isFirstWord w) then " " else "")
                +:+ word)
             (Go.int_add (curWidth w) wordWidth) (isFirstLine w) false)
  /\ (isLineBreak word = false -> overflows maxWidth w wordWidth = true ->
      curLineSb w <> ""
      /\ w' = mkWrap
                (formattedSb w +:+ curLineSb w
                   +:+ (if isFirstLine w then "\n" else "\l") +:+ NL)
                word wordWidth false false)
  /\ (fontID = "" \/ fontID = testFontID
      \/ is_Some (FontTable fc !! fontID) ->
      exists ws out,
        tokens (Go.len text) (Go.ReplaceAll_newline_space text) = Some ws
        /\ FormatText fc text maxWidth fontID = Some (out, None)
        /\ layout true ws out
        /\ Forall (fun word => substring_of word out) ws)
  /\ FormatText fc "abcdefgh" 0 "TEST" = Some ("abcdefgh", None)
  /\ FormatText fc "abcdefgh ij" (-5) "TEST"
     = Some ("abcdefgh\n" +:+ NL +:+ "ij", None).
Proof.
  intros wordWidth w'. subst wordWidth w'.
  split; [|split; [|split; [|split; [|split]]]].
  - intros Hempty. unfold overflows. rewrite Hempty. apply andb_false_r.
  - intros Hbreak Hover. unfold FormatText_word. by rewrite Hbreak, Hover.
  - intros Hbreak Hover. split; [by eapply overflows_nonempty|].
    unfold FormatText_word. by rewrite Hbreak, Hover.
  - intros Hfont%font_check_accepts.
    destruct (FormatText_layout fc text maxWidth fontID Hfont)
      as (ws & out & Hws & Hout & Hlay).
    exists ws, out. repeat split; try done. by eapply layout_substring.
  - unfold FormatText. change "TEST" with testFontID.
    rewrite FormatText_fuel_test. vm_compute. reflexivity.
  - unfold FormatText. change "TEST" with testFontID.
    rewrite FormatText_fuel_test. vm_compute. reflexivity.
Qed.

(** ** Words of the text in the output *)

Lemma tokens_cut fuel : forall rest ws,
  tokens fuel rest = Some ws -> cut rest ws.
Proof.
  induction fuel as [|fuel IH]; intros rest ws; simpl.
  - destruct (0 <? Go.len rest)%nat eqn:Hlen; [done|]. intros [= <-].
    destruct rest; [by constructor|done].
  - destruct (0 <? Go.len rest)%nat eqn:Hlen.
    2:{ intros [= <-]. destruct rest; [by constructor|done]. }
    destruct (getNextWord rest) as [[n word] err] eqn:Hnext.
    destruct (getNextWord_spec rest n word err Hnext) as [Hempty Htoken].
    destruct (Go.len word =? 0)%nat eqn:Hword.
    { intros [= <-]. constructor. apply Hempty.
      by apply len_zero, Nat.eqb_eq. }
    apply len_nonzero in Hword.
    destruct (tokens fuel (Go.drop n rest)) as [ws'|] eqn:Hrec; [|done].
    intros [= <-].
    destruct (Htoken Hword) as (gap & Hgap & Hrest & _ & Hend).
    rewrite Hrest. constructor; try done. by apply IH.
Qed.

Lemma clean_app s t : clean (s +:+ t) <-> clean s /\ clean t.
Proof.
  unfold clean. rewrite !has_byte_app, !orb_false_iff. tauto.
Qed.

Lemma clean_head a s :
  clean (String a s) -> Ascii.eqb a " " = false /\ Ascii.eqb a "\" = false.
Proof.
  intros [H1 H2]. simpl in *.
  apply orb_false_elim in H1 as [H1 _]. apply orb_false_elim in H2 as [H2 _].
  done.
Qed.

(** A clean piece does not start where a gap starts. *)
Lemma clean_gap_conflict W B m Y :
  clean W -> W <> "" -> m <> "" -> only_gap m = true ->
  W +:+ B = m +:+ Y -> False.
Proof.
  intros Hclean HW Hm Hgap Heq.
  destruct W as [|w W]; [done|]. destruct m as [|c m]; [done|].
  rewrite !app_cons in Heq. injection Heq as -> _.
  apply clean_head in Hclean as [H1 H2]. simpl in Hgap.
  by rewrite H1, H2 in Hgap.
Qed.

Lemma clean_starts_not W B a X :
  clean W -> W <> "" -> W +:+ B = String a X ->
  Ascii.eqb a " " = false /\ Ascii.eqb a "\" = false.
Proof.
  intros Hclean HW Heq. destruct W as [|w W]; [done|].
  rewrite app_cons in Heq. injection Heq as -> _. by eapply clean_head.
Qed.

(** A clean piece [W] that starts at or after the start of the token [word]
    lies inside the token, or starts after it and after a space or directly
    after the token. *)
Lemma word_in_token gap word rest m W B :
  word <> "" -> ending word rest ->
  word +:+ rest = m +:+ W +:+ B ->
  W <> "" -> clean W ->
  (gap +:+ m = "" \/ exists A', gap +:+ m = A' +:+ " ") ->
  substring_of W word
  \/ exists k, rest = k +:+ W +:+ B /\ (k = "" \/ exists k', k = k' +:+ " ").
Proof.
  intros Hword Hend Hm HW Hclean HA.
  destruct (app_eq_app_str _ _ _ _ Hm) as [(k & -> & Hk)|(k & -> & Hk)].
  { (* [W] starts after the token *)
    right. exists k. split; [done|].
    destruct (decide (k = "")) as [|Hkne]; [by left|]. right.
    destruct HA as [HA|[A' HA]].
    { apply app_eq_empty in HA as [_ HA].
      by apply app_eq_empty in HA as [_ HA]. }
    destruct (str_last k Hkne) as (k' & c & ->).
    rewrite <- !app_assoc_str in HA.
    apply snoc_inj in HA as [_ ->]. by exists k'. }
  (* [W] starts inside the token *)
  destruct (decide (k = "")) as [->|Hkne].
  { right. exists "". rewrite app_empty_l in Hk. split; [done|by left]. }
  destruct (app_eq_app_str _ _ _ _ Hk) as [(j & -> & Hj)|(j & -> & Hj)].
  { left. by exists m, j. }
  destruct (decide (j = "")) as [->|Hjne].
  { left. exists m, "". by rewrite !app_empty_r. }
  exfalso. apply clean_app in Hclean as [Hcleank Hcleanj].
  destruct Hend as [X -> Hsp| -> _|Hbreak|c X -> Hc].
  - by destruct (clean_starts_not j B " " X Hcleanj Hjne (eq_sym Hj))
      as [? _].
  - symmetry in Hj. by apply app_eq_empty in Hj as [? _].
  - destruct (isLineBreak_inv _ Hbreak) as [c Hc].
    destruct m as [|m0 [|m1 m]].
    + rewrite app_empty_l in Hc. subst k. by destruct Hcleank.
    + rewrite app_cons, app_empty_l in Hc. injection Hc as -> ->.
      destruct HA as [HA|[A' HA]].
      * by apply app_eq_empty in HA as [_ ?].
      * by apply snoc_inj in HA as [_ ?].
    + rewrite !app_cons in Hc. injection Hc as _ _ Hc.
      by apply app_eq_empty in Hc as [_ ?].
  - by destruct (clean_starts_not j B "\" _ Hcleanj Hjne (eq_sym Hj))
      as [_ ?].
Qed.

(** A clean piece that starts the text or follows a space lies inside one
    token. *)
Lemma cut_word text ws :
  cut text ws ->
  forall A W B,
    text = A +:+ W +:+ B ->
    W <> "" -> clean W ->
    (A = "" \/ exists A', A = A' +:+ " ") ->
    exists t, t ∈ ws /\ substring_of W t.
Proof.
  induction 1 as [gap Hgap|gap word rest words Hgap Hword Hend Hcut IH];
    intros A W B Htext HW Hclean HA.
  - exfalso. subst gap. rewrite !only_gap_app in Hgap.
    apply andb_true_iff in Hgap as [_ [Hg _]%andb_true_iff].
    destruct W as [|w W]; [done|].
    apply clean_head in Hclean as [H1 H2]. simpl in Hg.
    by rewrite H1, H2 in Hg.
  - assert (Hmain : forall m, A = gap +:+ m ->
              word +:+ rest = m +:+ W +:+ B ->
              exists t, t ∈ word :: words /\ substring_of W t).
    { intros m -> Hm.
      destruct (word_in_token gap word rest m W B Hword Hend Hm HW Hclean HA)
        as [Hsub|(k & Hk & HkA)].
      - exists word. split; [by left|done].
      - destruct (IH k W B Hk HW Hclean HkA) as (t & Ht & Hsub).
        exists t. split; [by right|done]. }
    destruct (app_eq_app_str _ _ _ _ Htext) as [(m & -> & Hm)|(m & -> & Hm)].
    + by apply (Hmain m).
    + destruct (decide (m = "")) as [->|Hmne].
      * apply (Hmain ""); [by rewrite !app_empty_r|].
        by rewrite app_empty_l in *.
      * exfalso. rewrite only_gap_app in Hgap.
        apply andb_true_iff in Hgap as [_ Hgap].
        by eapply (clean_gap_conflict W B m).
Qed.

Lemma getNextWord_body_space_at_depth_zero text s pos :
  endOnNext s = false -> foundNonSpace s = true ->
  controlCodeLevel s = 0%nat ->
  getNextWord_body text s pos (rune " ")
  = Return pos (Go.slice text (startPos s) pos) None.
Proof.
  intros Heon Hns Hlvl. unfold getNextWord_body. rewrite Heon, Hns, Hlvl.
  change (is_lnp (rune " ")) with false. by rewrite andb_false_r.
Qed.

(** C8, amended: for every text, maximal width and accepted font identifier,
    [FormatText] returns an output; the normalized text is cut into the
    tokens of the tokenizer with only spaces and backslashes left out, and
    the output is these tokens, whole and in order, with nothing between them
    but a space or a marker and a newline, and a newline after a break token.
    So every token is one contiguous piece of the output, and so is every
    word of the normalized text that is delimited by spaces and holds no
    backslash.  A space read while the nesting counter is not zero does not
    end the token; one read while it is zero, after something else than
    spaces, does. *)
Theorem words_intact_in_output
    (fc : FontConfig) (text : string) (maxWidth : Z) (fontID : string) :
  fontID = "" \/ fontID = testFontID \/ is_Some (FontTable fc !! fontID) ->
  exists ws out,
    tokens (Go.len text) (Go.ReplaceAll_newline_space text) = Some ws
    /\ FormatText fc text maxWidth fontID = Some (out, None)
    /\ cut (Go.ReplaceAll_newline_space text) ws
    /\ layout true ws out
    /\ Forall (fun word => substring_of word out) ws
    /\ (forall A W B,
          Go.ReplaceAll_newline_space text = A +:+ W +:+ B ->
          space_delimited A W B -> has_byte "\" W = false ->
          substring_of W out)
    /\ (forall text' s pos,
          endOnNext s = false -> controlCodeLevel s <> 0%nat ->
          getNextWord_body text' s pos (rune " ")
          = Continue (mkScan false (endPos s) (startPos s) (foundNonSpace s)
                        (foundRegularRune s) false (controlCodeLevel s)))
    /\ (forall text' s pos,
          endOnNext s = false -> foundNonSpace s = true ->
          controlCodeLevel s = 0%nat ->
          getNextWord_body text' s pos (rune " ")
          = Return pos (Go.slice text' (startPos s) pos) None)
    /\ getNextWord "{COLOR RED}hi there" = (13%nat, "{COLOR RED}hi", None).
Proof.
  intros Hfont%font_check_accepts.
  destruct (FormatText_layout fc text maxWidth fontID Hfont)
    as (ws & out & Hws & Hout & Hlay).
  pose proof (tokens_cut _ _ _ Hws) as Hcut.
  pose proof (layout_substring _ _ _ Hlay) as Hsub.
  exists ws, out. repeat split; try done.
  - intros A W B Htext (HW & Hsp & HA & _) Hbs.
    destruct (cut_word _ _ Hcut A W B Htext HW (conj Hsp Hbs) HA)
      as (t & Ht & HWt).
    eapply substring_of_trans; [exact HWt|].
    rewrite Forall_forall in Hsub. by apply Hsub.
  - intros text' s pos. apply getNextWord_body_space_in_braces.
  - intros text' s pos. apply getNextWord_body_space_at_depth_zero.
Qed.

Lemma words_intact_in_output_witness :
  exists ws out,
    tokens 5 "ab cd" = Some ws
    /\ FormatText noFonts "ab cd" 25 "TEST" = Some (out, None)
    /\ layout true ws out
    /\ substring_of "cd" out.
Proof.
  destruct (words_intact_in_output noFonts "ab cd" 25 "TEST")
    as (ws & out & Hws & Hout & _ & Hlay & _ & Hword & _).
  { right; left; reflexivity. }
  exists ws, out. repeat split; try done.
  apply (Hword "ab " "cd" ""); [reflexivity| |reflexivity].
  repeat split; try done; [right; by exists "ab"|by left].
Defined.

(** C8, as stated, fails: the text "a\nb" is one word delimited by spaces;
    the tokenizer cuts it into a word, an authored break and a word, and the
    engine puts a newline after the break, inside the word. *)
Lemma authored_break_splits_word :
  FormatText noFonts "a\nb" 100 "TEST" = Some ("a\n" +:+ NL +:+ "b", None)
  /\ space_delimited "" "a\nb" ""
  /\ ~ substring_of "a\nb" ("a\n" +:+ NL +:+ "b").
Proof.
  split; [done|]. split; [by repeat split; auto|].
  intros (pre & post & Heq).
  destruct pre as [|x [|y pre]].
  - cbv in Heq. by injection Heq.
  - cbv in Heq. by injection Heq.
  - apply (f_equal Go.len) in Heq. rewrite !len_app, !len_cons in Heq.
    simpl in Heq. lia.
Qed.

(** ** Wrapping the output again *)

Lemma sep_head_not_lnp a s :
  sep_head (String a s) = true ->
  is_lnp (Go.byte_val a) = false /\ Ascii.eqb a "010" = false.
Proof.
  simpl. rewrite is_lnp_byte.
  intros [H|H]%orb_true_iff; apply Ascii.eqb_eq in H; by subst.
Qed.

Lemma breaks_to_spaces_word t : forall rest,
  has_byte "010" t = false -> sep_head rest = true ->
  breaks_to_spaces (t +:+ rest) = t +:+ breaks_to_spaces rest.
Proof.
  induction t as [|a t IH]; intros rest Ht Hrest; [done|].
  simpl in Ht. apply orb_false_elim in Ht as [Ha Ht].
  rewrite !app_cons. cbn [breaks_to_spaces]. rewrite (IH rest Ht Hrest).
  destruct t as [|c [|nl t]].
  - rewrite app_empty_l. destruct rest as [|c [|nl rest]]; try done.
    destruct (sep_head_not_lnp _ _ Hrest) as [-> _].
    by rewrite andb_false_r.
  - rewrite app_cons, app_empty_l. destruct rest as [|nl rest]; [done|].
    destruct (sep_head_not_lnp _ _ Hrest) as [_ ->].
    by rewrite andb_false_r.
  - rewrite !app_cons. simpl in Ht.
    apply orb_false_elim in Ht as [_ [Hnl _]%orb_false_elim].
    by rewrite Hnl, andb_false_r.
Qed.

Lemma breaks_to_spaces_space X :
  breaks_to_spaces (String " " X) = String " " (breaks_to_spaces X).
Proof. by destruct X as [|c [|nl X]]. Qed.

Lemma breaks_to_spaces_marker sep X :
  wrap_marker sep ->
  breaks_to_spaces (sep +:+ X) = String " " (breaks_to_spaces X).
Proof. by intros [-> | ->]. Qed.

(** Turning the breaks of a layout of words back into spaces gives the words
    with one space between them. *)
Lemma layout_breaks_to_spaces first ws out :
  layout first ws out ->
  Forall (fun word => isLineBreak word = false) ws ->
  Forall (fun word => has_byte "010" word = false) ws ->
  (first = false -> sep_head out = true)
  /\ breaks_to_spaces out
     = match ws with
       | [] => ""
       | _ => (if first then "" else " ") +:+ Go.Join ws " "
       end.
Proof.
  induction 1 as [first|first word words out Hbreak _ IH
                  |word words out Hbreak _ IH
                  |sep word words out Hbreak Hsep _ IH];
    intros Hnb Hnl.
  - done.
  - apply Forall_cons in Hnb as [Hnb _]. congruence.
  - apply Forall_cons in Hnb as [_ Hnb]. apply Forall_cons in Hnl as [Hw Hnl].
    destruct (IH Hnb Hnl) as [Hhead Hout]. split; [done|].
    rewrite breaks_to_spaces_word, Hout, Join_cons, app_empty_l by auto.
    by destruct words.
  - apply Forall_cons in Hnb as [_ Hnb]. apply Forall_cons in Hnl as [Hw Hnl].
    destruct (IH Hnb Hnl) as [Hhead Hout]. split.
    { intros _. unfold wrap_marker in Hsep.
      destruct Hsep as [->|[->| ->]]; by rewrite app_cons. }
    assert (Hstep : breaks_to_spaces (sep +:+ word +:+ out)
                    = String " " (breaks_to_spaces (word +:+ out))).
    { destruct Hsep as [->|Hsep]; [apply breaks_to_spaces_space|].
      by apply breaks_to_spaces_marker. }
    rewrite Hstep, breaks_to_spaces_word, Hout, Join_cons by auto.
    by destruct words.
Qed.

Lemma cut_no_newline text ws :
  cut text ws -> has_byte "010" text = false ->
  Forall (fun word => has_byte "010" word = false) ws.
Proof.
  induction 1 as [|gap word rest words _ _ _ _ IH]; [done|].
  rewrite !has_byte_app. intros [_ [Hw Hr]%orb_false_elim]%orb_false_elim.
  constructor; auto.
Qed.

Lemma Join_no_newline ws :
  Forall (fun word => has_byte "010" word = false) ws ->
  has_byte "010" (Go.Join ws " ") = false.
Proof.
  induction 1 as [|t ts Ht _ IH]; [done|].
  rewrite Join_cons, has_byte_app, Ht. destruct ts; [done|]. by simpl.
Qed.

(** A space at the head of the text changes no token. *)
Lemma tokens_space fuel J :
  tokens (S fuel) (String " " J) = tokens (S fuel) J.
Proof.
  cbn [tokens]. rewrite getNextWord_space.
  destruct J as [|a J].
  - by vm_compute.
  - rewrite !len_cons. simpl (0 <? _)%nat.
    destruct (getNextWord (String a J)) as [[n w] e]. by rewrite drop_cons.
Qed.

Lemma tokens_break_next fuel c X ws :
  is_lnp (Go.byte_val c) = true ->
  tokens fuel (String "\" (String c X)) = Some ws ->
  exists ws', ws = String "\" (String c "") :: ws'.
Proof.
  intros Hc. destruct fuel as [|fuel]; [done|]. cbn [tokens].
  rewrite !len_cons. simpl (0 <? _)%nat.
  rewrite (getNextWord_break c X Hc). simpl.
  destruct (tokens fuel _) as [ws'|]; [|done]. intros [= <-]. by eexists.
Qed.

(** The tokens of a text without authored breaks, joined by single spaces,
    are read again as the same tokens. *)
Lemma retokenize fuel : forall rest ws,
  tokens fuel rest = Some ws ->
  Forall (fun word => isLineBreak word = false) ws ->
  ws <> [] ->
  exists fuel', tokens fuel' (Go.Join ws " ") = Some ws.
Proof.
  induction fuel as [|fuel IH]; intros rest ws Hws Hnb Hne.
  { simpl in Hws. destruct (0 <? Go.len rest)%nat; [done|]. congruence. }
  cbn [tokens] in Hws.
  destruct (0 <? Go.len rest)%nat; [|congruence].
  destruct (getNextWord rest) as [[n t] e] eqn:Hnext.
  destruct (getNextWord_spec rest n t e Hnext) as [_ Htoken].
  destruct (Go.len t =? 0)%nat eqn:Hlen; [congruence|].
  apply len_nonzero in Hlen.
  destruct (Htoken Hlen) as (gap & _ & _ & _ & Hend).
  destruct (tokens fuel (Go.drop n rest)) as [ws'|] eqn:Hrec; [|done].
  injection Hws as <-. apply Forall_cons in Hnb as [Ht Hnb].
  destruct ws' as [|t2 ws''].
  - (* the last token *)
    assert (Hre : rescans t).
    { destruct Hend as [X _ Hsp|_ Hre|Hbreak|c X HX Hc].
      - by apply space_ended_rescans.
      - done.
      - congruence.
      - rewrite HX in Hrec.
        by destruct (tokens_break_next _ _ _ _ Hc Hrec). }
    exists 1%nat. cbn [Go.Join]. rewrite tokens_S.
    rewrite (len_pos _ Hlen), (rescans_getNextWord _ Hre).
    by rewrite (len_eqb_zero _ Hlen), drop_all.
  - (* a token that another one follows *)
    assert (Hsp : space_ended t).
    { destruct Hend as [X _ Hsp|HX _|Hbreak|c X HX Hc].
      - done.
      - rewrite HX, tokens_empty in Hrec. done.
      - congruence.
      - rewrite HX in Hrec.
        destruct (tokens_break_next _ _ _ _ Hc Hrec) as [? [= -> _]].
        apply Forall_cons in Hnb as [Hnb _].
        by rewrite (is_lnp_break _ Hc) in Hnb. }
    destruct (IH _ _ Hrec Hnb ltac:(done)) as [fuel' Hjoin].
    destruct fuel' as [|fuel'].
    { simpl in Hjoin. by destruct (0 <? _)%nat. }
    exists (S (S fuel')).
    change (Go.Join (t :: t2 :: ws'') " ")
      with (t +:+ String " " (Go.Join (t2 :: ws'') " ")).
    rewrite tokens_S.
    rewrite len_pos by (by apply app_nonempty_l).
    rewrite (space_ended_getNextWord _ _ Hsp), (len_eqb_zero _ Hlen).
    by rewrite drop_app_len, tokens_space, Hjoin.
Qed.

(** C9, amended: for every text in which the tokenizer finds no authored
    break token, turning the breaks of the output of [FormatText] back into
    spaces gives the tokens of the text with one space between them, and
    [FormatText] on that text, with the same maximal width and font
    identifier, returns the same output. *)
Theorem rewrap_without_authored_breaks
    (fc : FontConfig) (text : string) (maxWidth : Z) (fontID : string)
    (ws : list string) (out : string) :
  tokens (Go.len text) (Go.ReplaceAll_newline_space text) = Some ws ->
  Forall (fun word => isLineBreak word = false) ws ->
  FormatText fc text maxWidth fontID = Some (out, None) ->
  breaks_to_spaces out = Go.Join ws " "
  /\ FormatText fc (breaks_to_spaces out) maxWidth fontID = Some (out, None).
Proof.
  intros Hws Hnb Hout.
  destruct (negb (isFontIDValid fc fontID) && (0 <? Go.len fontID)%nat
            && negb (String.eqb fontID testFontID)) eqn:Hcheck.
  { unfold FormatText, FormatText_fuel in Hout. by rewrite Hcheck in Hout. }
  destruct (FormatText_accepted fc text maxWidth fontID Hcheck)
    as (ws0 & Hws0 & Hrun).
  rewrite Hws in Hws0. injection Hws0 as <-.
  destruct (FormatText_words_layout fc maxWidth fontID ws wrap0)
    as (out' & Hout' & Hlay); [by eapply tokens_nonempty|apply wrap0_ok|].
  assert (Hfin : FormatText_finish
                   (FormatText_words fc maxWidth fontID wrap0 ws)
                 = (out, None)) by congruence.
  assert (out' = out) as ->.
  { rewrite Hfin, !app_empty_l in Hout'. by simpl in Hout'. }
  pose proof (cut_no_newline _ _ (tokens_cut _ _ _ Hws)
                (has_byte_ReplaceAll text)) as Hnl.
  destruct (layout_breaks_to_spaces _ _ _ Hlay Hnb Hnl) as [_ Hjoin].
  assert (Hbts : breaks_to_spaces out = Go.Join ws " ").
  { rewrite Hjoin. by destruct ws. }
  split; [done|]. rewrite Hbts.
  destruct (FormatText_accepted fc (Go.Join ws " ") maxWidth fontID Hcheck)
    as (ws1 & Hws1 & ->).
  rewrite ReplaceAll_id in Hws1 by (by apply Join_no_newline).
  assert (ws1 = ws) as ->.
  { destruct ws as [|t ws].
    - simpl in Hws1. congruence.
    - destruct (retokenize _ _ _ Hws Hnb ltac:(done)) as [fuel' Hre].
      by eapply tokens_unique. }
  by rewrite Hfin.
Qed.

Lemma rewrap_without_authored_breaks_witness :
  breaks_to_spaces ("ab\n" +:+ NL +:+ "cd") = "ab cd"
  /\ FormatText noFonts (breaks_to_spaces ("ab\n" +:+ NL +:+ "cd")) 25 "TEST"
     = Some ("ab\n" +:+ NL +:+ "cd", None).
Proof.
  apply (rewrap_without_authored_breaks noFonts "ab cd" 25 "TEST"
           ["ab"; "cd"] ("ab\n" +:+ NL +:+ "cd")).
  - reflexivity.
  - repeat constructor.
  - reflexivity.
Defined.

(** C9, as stated, fails: an authored break is a break marker of the output
    too; once it has become a space, the second run has no reason to break
    the line there. *)
Lemma rewrap_after_authored_break_differs :
  FormatText noFonts "hello\p world" 1000 "TEST"
  = Some ("hello\p" +:+ NL +:+ "world", None)
  /\ breaks_to_spaces ("hello\p" +:+ NL +:+ "world") = "hello world"
  /\ FormatText noFonts "hello world" 1000 "TEST"
     = Some ("hello world", None)
  /\ "hello world" <> "hello\p" +:+ NL +:+ "world".
Proof. repeat split; done. Qed.

(** * Further properties

    What the tokenizer, the wrap engine and the width calculator do beyond
    the properties above. *)

(** ** The tokenizer: a token read again *)

Lemma scan_state_app b : forall a s p s',
  scan_state s p (a +:+ b) = Some s' ->
  exists s1, scan_state s p a = Some s1
             /\ scan_state s1 (p + Go.len a) b = Some s'.
Proof.
  induction a as [|c a IH]; intros s p s'.
  - rewrite app_empty_l. intros H. exists s. split; [done|].
    by replace (p + Go.len "")%nat with p by (simpl; lia).
  - rewrite app_cons. cbn [scan_state].
    destruct (getNextWord_body "" s p (Go.byte_val c)) as [|s2]; [done|].
    intros H. destruct (IH _ _ _ H) as (s1 & H1 & H2). exists s1.
    split; [done|]. rewrite len_cons.
    by replace (p + S (Go.len a))%nat with (S p + Go.len a)%nat by lia.
Qed.

Lemma getNextWord_body_regular text s pos c s' :
  (foundRegularRune s = true -> foundNonSpace s = true) ->
  getNextWord_body text s pos c = Continue s' ->
  (foundRegularRune s' = true -> foundNonSpace s' = true)
  /\ (foundNonSpace s = true -> foundNonSpace s' = true).
Proof.
  intros Hs. unfold getNextWord_body.
  repeat match goal with
         | |- context [if ?b then _ else _] => destruct b eqn:?
         end; intros [= <-]; simpl; split; try done; auto.
Qed.

Lemma scan_state_regular a : forall s p s',
  (foundRegularRune s = true -> foundNonSpace s = true) ->
  scan_state s p a = Some s' ->
  (foundRegularRune s' = true -> foundNonSpace s' = true)
  /\ (foundNonSpace s = true -> foundNonSpace s' = true).
Proof.
  induction a as [|c a IH]; intros s p s' Hs.
  - by intros [= <-].
  - cbn [scan_state].
    destruct (getNextWord_body "" s p (Go.byte_val c)) as [|s1] eqn:Hbody;
      [done|].
    destruct (getNextWord_body_regular _ _ _ _ _ Hs Hbody) as [H1 H2].
    intros H. destruct (IH _ _ _ H1 H) as [H3 H4]. split; auto.
Qed.

(** The token that ends before an authored break is read again as it is. *)
Lemma rescans_before_escape d s :
  scan_state scan0 0 (d +:+ "\") = Some s ->
  startPos s = 0%nat -> foundRegularRune s = true -> escape s = true ->
  rescans d.
Proof.
  intros Hs Hstart Hreg Hesc.
  destruct (scan_state_app _ _ _ _ _ Hs) as (s1 & H1 & H2).
  exists s1. split; [done|].
  destruct (scan_state_regular d scan0 0%nat s1 ltac:(done) H1) as [Hsane _].
  cbn [scan_state] in H2.
  destruct (getNextWord_body "" s1 (0 + Go.len d) (Go.byte_val "\"))
    as [|s2] eqn:Hbody; [done|].
  injection H2 as ->. revert Hbody. unfold getNextWord_body.
  change (is_lnp (Go.byte_val "\")) with false. rewrite andb_false_r.
  change (Go.byte_val "\" =? rune "\") with true.
  change (Go.byte_val "\" =? rune " ") with false.
  destruct (endOnNext s1); [done|]. simpl.
  destruct (controlCodeLevel s1 =? 0)%nat.
  - intros [= <-]. simpl in *. rewrite Hreg in Hstart. auto.
  - intros [= <-]. done.
Qed.

Lemma mode_step_rescans text done c todo s :
  gap_head text = false ->
  text = done +:+ String c todo ->
  mode done s ->
  scan_state scan0 0 done = Some s ->
  match getNextWord_body text s (Go.len done) (Go.byte_val c) with
  | Continue s' => True
  | Return n w e => rescans w
  end.
Proof.
  intros Hgap Htext Hmode Hstate.
  unfold getNextWord_body. rewrite !byte_val_eqb.
  destruct Hmode as [-> ->| -> ->|c0 -> Hc0 ->
                     |Hne Hstart Hns Hreg Heon Hesc
                     |d Hd -> Hstart Hns Hreg Heon Hesc Hend].
  - simpl. by repeat case_match.
  - subst text. simpl in Hgap. rewrite Hgap. simpl.
    destruct (is_lnp (Go.byte_val c)); [done|].
    destruct (Ascii.eqb_spec c " ") as [->|Hsp]; simpl; [|done].
    by eexists.
  - subst text. simpl. rewrite slice_zero. simpl. by eexists.
  - rewrite Heon, Hesc, Hns, Hreg, Hstart. simpl.
    destruct (_ && _) eqn:Hbs; [done|].
    destruct (Ascii.eqb_spec c " ") as [->|Hsp]; [|done].
    destruct (controlCodeLevel s =? 0)%nat eqn:Hlvl; [|done].
    rewrite slice_zero. subst text. rewrite take_app_len. by exists s.
  - rewrite Heon, Hesc, Hns, Hreg, Hstart, Hend. simpl.
    destruct (is_lnp (Go.byte_val c)) eqn:Hlnp.
    { rewrite slice_zero. subst text.
      rewrite app_assoc_str, take_app_len.
      by apply (rescans_before_escape d s). }
    destruct (_ && _) eqn:Hbs; [done|].
    destruct (Ascii.eqb_spec c " ") as [->|Hsp]; [|done].
    destruct (controlCodeLevel s =? 0)%nat eqn:Hlvl; [|done].
    rewrite slice_zero. subst text. rewrite take_app_len. by exists s.
Qed.

Lemma lead_free_rescans text :
  gap_head text = false -> text <> "" ->
  forall todo done s,
  text = done +:+ todo ->
  mode done s ->
  scan_state scan0 0 done = Some s ->
  rescans (scan_bytes text s (Go.len done) todo).1.2.
Proof.
  intros Hgap Hne. induction todo as [|c todo IH]; intros done s Htext Hmode Hs.
  - rewrite app_empty_r in Htext. subst done. simpl.
    assert (Hends : foundNonSpace s = true /\ startPos s = 0%nat).
    { destruct Hmode as [? ->| -> ->|c0 -> Hc0 ->
                         |_ Hstart Hns Hreg Heon Hesc
                         |d Hd -> Hstart Hns Hreg Heon Hesc Hend];
        try done. }
    destruct Hends as [Hns Hstart]. rewrite Hns, Hstart. simpl.
    try rewrite drop_zero. by exists s.
  - cbn [scan_bytes].
    pose proof (mode_step text done c todo s Hgap Htext Hmode Hs) as Hstep.
    pose proof (mode_step_rescans text done c todo s Hgap Htext Hmode Hs)
      as Hagain.
    destruct (getNextWord_body text s (Go.len done) (Go.byte_val c))
      as [n w e|s'] eqn:Hbody; [done|].
    rewrite <- len_snoc with (a := c). apply IH; [|done|].
    + by rewrite <- app_snoc.
    + rewrite (scan_state_snoc _ _ _ _ _ Hs). simpl.
      by rewrite (getNextWord_body_continue _ "" _ _ _ _ Hbody).
Qed.

(** Every token that [getNextWord] returns is read again as it is. *)
Lemma getNextWord_rescans rest : forall n t e,
  getNextWord rest = (n, t, e) -> t <> "" -> rescans t.
Proof.
  induction rest as [|a X IH]; intros n t e Hnext Ht.
  { by injection Hnext as <- <- <-. }
  destruct (gap_head (String a X)) eqn:Hgap.
  - assert (Hskip : getNextWord (String a X)
              = (let '(n, w, e) := getNextWord X in (S n, w, e))).
    { simpl in Hgap. destruct (Ascii.eqb_spec a " ") as [->|Hsp].
      - apply getNextWord_space.
      - simpl in Hgap. apply andb_true_iff in Hgap as [->%Ascii.eqb_eq Hb].
        destruct X as [|b X]; [done|]. apply Ascii.eqb_eq in Hb as ->.
        apply getNextWord_backslashes. }
    rewrite Hskip in Hnext.
    destruct (getNextWord X) as [[n' t'] e'] eqn:HX.
    injection Hnext as <- <- <-. by eapply IH.
  - pose proof (lead_free_rescans (String a X) Hgap ltac:(done)
                  (String a X) "" scan0 eq_refl
                  (mode_start _ _ eq_refl eq_refl) eq_refl) as Hrun.
    rewrite getNextWord_bytes in Hnext. simpl Go.len in Hrun.
    by rewrite Hnext in Hrun.
Qed.

Lemma only_spaces_gap s : only_spaces s = true -> only_gap s = true.
Proof.
  induction s as [|a s IH]; [done|]. simpl.
  intros [-> ->%IH]%andb_true_iff. done.
Qed.

Lemma getNextWord_only_spaces_run s :
  only_spaces s = true -> getNextWord s = (Go.len s, "", None).
Proof.
  induction s as [|a s IH]; [done|]. simpl.
  intros [->%Ascii.eqb_eq Hs]%andb_true_iff.
  by rewrite getNextWord_space, (IH Hs).
Qed.

Lemma getNextWord_empty_spaces s : forall n e,
  getNextWord s = (n, "", e) -> only_spaces s = true.
Proof.
  induction s as [|a X IH]; intros n e Hnext; [done|].
  destruct (gap_head (String a X)) eqn:Hgap.
  - simpl in Hgap. destruct (Ascii.eqb_spec a " ") as [->|Hsp].
    + rewrite getNextWord_space in Hnext.
      destruct (getNextWord X) as [[n' t'] e'] eqn:HX.
      injection Hnext as <- -> <-. simpl. by eapply IH.
    + simpl in Hgap. apply andb_true_iff in Hgap as [->%Ascii.eqb_eq Hb].
      destruct X as [|b X]; [done|]. apply Ascii.eqb_eq in Hb as ->.
      rewrite getNextWord_backslashes in Hnext.
      destruct (getNextWord (String "\" X)) as [[n' t'] e'] eqn:HX.
      injection Hnext as <- -> <-. by specialize (IH _ _ eq_refl).
  - destruct (lead_free_run (String a X) Hgap ltac:(done)
                (String a X) "" scan0 eq_refl (mode_start _ _ eq_refl eq_refl)
                eq_refl) as (n0 & w & Hrun & Hw & Hne & Hn & Hend).
    rewrite getNextWord_bytes in Hnext. simpl Go.len in Hrun.
    rewrite Hrun in Hnext. by injection Hnext as _ Hempty _.
Qed.

Lemma getNextWord_len rest n t e :
  getNextWord rest = (n, t, e) ->
  (n <= Go.len rest)%nat /\ (Go.len t <= n)%nat.
Proof.
  intros Hnext. destruct (getNextWord_spec _ _ _ _ Hnext) as [_ Htoken].
  destruct (decide (t = "")) as [->|Ht].
  - pose proof (getNextWord_empty_spaces _ _ _ Hnext) as Hsp.
    rewrite (getNextWord_only_spaces_run _ Hsp) in Hnext.
    injection Hnext as <- _. simpl. lia.
  - destruct (Htoken Ht) as (gap & _ & Hrest & Hn & _).
    apply (f_equal Go.len) in Hrest. rewrite !len_app in Hrest. lia.
Qed.

Lemma getNextWord_gap_head rest n t e :
  getNextWord rest = (n, t, e) -> gap_head t = false.
Proof.
  intros Hnext. destruct (decide (t = "")) as [->|Ht]; [done|].
  pose proof (rescans_getNextWord _ (getNextWord_rescans _ _ _ _ Hnext Ht))
    as Hagain.
  destruct (gap_head t) eqn:Hgap; [|done]. exfalso.
  destruct t as [|a X]; [done|].
  assert (Hskip : getNextWord (String a X)
            = (let '(n, w, e) := getNextWord X in (S n, w, e))).
  { simpl in Hgap. destruct (Ascii.eqb_spec a " ") as [->|Hsp].
    - apply getNextWord_space.
    - simpl in Hgap. apply andb_true_iff in Hgap as [->%Ascii.eqb_eq Hb].
      destruct X as [|b X]; [done|]. apply Ascii.eqb_eq in Hb as ->.
      apply getNextWord_backslashes. }
  rewrite Hskip in Hagain.
  destruct (getNextWord X) as [[n' t'] e'] eqn:HX.
  injection Hagain as Hn Ht' _.
  destruct (getNextWord_len _ _ _ _ HX) as [H1 H2].
  apply (f_equal Go.len) in Ht'. rewrite len_cons in *. lia.
Qed.

Lemma scan_state_level a : forall s p s',
  scan_state s p a = Some s' ->
  controlCodeLevel s' = brace_level (controlCodeLevel s) a.
Proof.
  induction a as [|c a IH]; intros s p s'.
  - by intros [= <-].
  - cbn [scan_state brace_level].
    destruct (getNextWord_body "" s p (Go.byte_val c)) as [|s1] eqn:Hbody;
      [done|].
    intros H. rewrite (IH _ _ _ H). f_equal.
    revert Hbody. unfold getNextWord_body. rewrite !byte_val_eqb.
    rewrite is_lnp_byte.
    destruct (endOnNext s); [done|].
    destruct (Ascii.eqb_spec c "{") as [->|?];
      [|destruct (Ascii.eqb_spec c "}") as [->|?]]; simpl.
    + rewrite andb_false_r. by intros [= <-].
    + rewrite andb_false_r. by intros [= <-].
    + repeat match goal with
             | |- context [if ?b then _ else _] => destruct b eqn:?
             end; by intros [= <-].
Qed.

Lemma scan_state_no_token a : forall p s',
  scan_state scan0 p a = Some s' -> foundNonSpace s' = false ->
  only_spaces a = true.
Proof.
  induction a as [|c a IH]; intros p s'; [done|].
  cbn [scan_state]. unfold getNextWord_body. rewrite !byte_val_eqb. simpl.
  destruct (Ascii.eqb_spec c "\") as [->|Hbs]; simpl.
  { intros H Hns.
    pose proof (fun Hs => proj2 (scan_state_regular _ _ _ _ Hs H)) as Hmono.
    simpl in Hmono. rewrite Hmono in Hns; done. }
  destruct (Ascii.eqb_spec c " ") as [->|Hsp]; simpl.
  - apply IH.
  - intros H Hns.
    pose proof (fun Hs => proj2 (scan_state_regular _ _ _ _ Hs H)) as Hmono.
    simpl in Hmono. rewrite Hmono in Hns; done.
Qed.

(** ** Further properties of the tokenizer *)

(** X1: [getNextWord] never stops with a panic: on every text, each slice
    that it takes has its bounds within the text; and the offset that it
    returns lies between the length of the token and the length of the
    text, so that the slice [text[pos:]] of the next iteration of
    [FormatText] is within bounds as well. *)
Theorem getNextWord_slices_within_text (text : string) :
  slices_in_range text scan0 (Go.range text)
  /\ (Go.len (getNextWord text).1.2 <= (getNextWord text).1.1
      <= Go.len text)%nat.
Proof.
  split; [apply getNextWord_in_range|].
  destruct (getNextWord text) as [[n t] e] eqn:Hnext. simpl.
  destruct (getNextWord_len _ _ _ _ Hnext). lia.
Qed.

(** X2: a token that [getNextWord] returns is a contiguous piece of the
    text.  Before it the text has only bytes that are stepped over, which
    are spaces and backslashes; the offset returned is the end of the token;
    the token does not start with a space or with two backslashes; and the
    text after it is empty, or starts with a space, or starts with the
    escape of an authored break, unless the token is such a break itself. *)
Theorem getNextWord_token_in_text (text : string) (n : nat) (word : string)
    (err : error) :
  getNextWord text = (n, word, err) ->
  word <> "" ->
  exists gap,
    text = gap +:+ word +:+ Go.drop n text
    /\ n = (Go.len gap + Go.len word)%nat
    /\ only_gap gap = true
    /\ gap_head word = false
    /\ err = None
    /\ (isLineBreak word = true
        \/ Go.drop n text = ""
        \/ (exists X, Go.drop n text = String " " X)
        \/ (exists c X, Go.drop n text = String "\" (String c X)
                        /\ is_lnp (Go.byte_val c) = true)).
Proof.
  intros Hnext Hword.
  destruct (getNextWord_spec _ _ _ _ Hnext) as [_ Htoken].
  destruct (Htoken Hword) as (gap & Hgap & Htext & Hn & Hend).
  exists gap. repeat split; try done.
  - by eapply getNextWord_gap_head.
  - by eapply getNextWord_no_error.
  - destruct Hend as [X HX _|Hrest _|Hbreak|c X HX Hc].
    + right; right; left. by exists X.
    + by right; left.
    + by left.
    + right; right; right. by exists c, X.
Qed.

Lemma getNextWord_token_in_text_witness :
  exists gap,
    "  ab cd" = gap +:+ "ab" +:+ Go.drop 4 "  ab cd"
    /\ 4%nat = (Go.len gap + Go.len "ab")%nat
    /\ only_gap gap = true
    /\ gap_head "ab" = false
    /\ (None : error) = None
    /\ (isLineBreak "ab" = true
        \/ Go.drop 4 "  ab cd" = ""
        \/ (exists X, Go.drop 4 "  ab cd" = String " " X)
        \/ (exists c X, Go.drop 4 "  ab cd" = String "\" (String c X)
                        /\ is_lnp (Go.byte_val c) = true)).
Proof.
  apply (getNextWord_token_in_text "  ab cd" 4 "ab" None);
    [reflexivity|discriminate].
Defined.

(** X3: [getNextWord] returns the empty token exactly on a text that
    consists of spaces only, the empty text included, and it then returns
    the length of the text as the offset and no error. *)
Theorem getNextWord_empty_iff_spaces (text : string) :
  ((getNextWord text).1.2 = "" <-> only_spaces text = true)
  /\ (only_spaces text = true -> getNextWord text = (Go.len text, "", None)).
Proof.
  split; [split|].
  - destruct (getNextWord text) as [[n t] e] eqn:Hnext. simpl. intros ->.
    by eapply getNextWord_empty_spaces.
  - intros H. by rewrite (getNextWord_only_spaces_run _ H).
  - apply getNextWord_only_spaces_run.
Qed.

(** X4: a token that [getNextWord] returns is a fixed point of it: called on
    the token alone, [getNextWord] returns the whole token, with its length
    as the offset. *)
Theorem getNextWord_token_read_again (text : string) (n : nat) (word : string)
    (err : error) :
  getNextWord text = (n, word, err) ->
  getNextWord word = (Go.len word, word, None).
Proof.
  intros Hnext. destruct (decide (word = "")) as [->|Hword]; [done|].
  by eapply rescans_getNextWord, getNextWord_rescans.
Qed.

Lemma getNextWord_token_read_again_witness :
  getNextWord "hello" = (Go.len "hello", "hello", None).
Proof.
  apply (getNextWord_token_read_again "  hello\p world" 7 "hello" None).
  reflexivity.
Defined.

(** X5: a token has a space only inside braces: before every space of a
    token, the token has more left braces than right braces that close one;
    and a token that is followed by a space in the text has every left
    brace closed. *)
Theorem token_spaces_inside_braces (text : string) (n : nat) (word : string)
    (err : error) :
  getNextWord text = (n, word, err) ->
  (forall a b, word = a +:+ String " " b -> (0 < brace_level 0 a)%nat)
  /\ (forall X, Go.drop n text = String " " X -> brace_level 0 word = 0%nat).
Proof.
  intros Hnext. split.
  - intros a b Hword.
    assert (Hne : word <> "").
    { rewrite Hword. destruct a; [done|]. by rewrite app_cons. }
    destruct (getNextWord_rescans _ _ _ _ Hnext Hne) as (s & Hs & _ & _).
    pose proof (getNextWord_gap_head _ _ _ _ Hnext) as Hhead.
    rewrite Hword in Hs.
    destruct (scan_state_app _ _ _ _ _ Hs) as (s1 & H1 & H2).
    rewrite <- (scan_state_level _ _ _ _ H1 : _ = brace_level 0 a).
    cbn [scan_state] in H2. revert H2. unfold getNextWord_body.
    destruct (endOnNext s1); [done|].
    change (is_lnp (Go.byte_val " ")) with false. rewrite andb_false_r.
    change (Go.byte_val " " =? rune "\") with false.
    change (Go.byte_val " " =? rune " ") with true. simpl.
    destruct (foundNonSpace s1) eqn:Hns; simpl.
    + destruct (controlCodeLevel s1); [done|]. intros _. lia.
    + intros _. exfalso.
      pose proof (scan_state_no_token _ _ _ H1 Hns) as Hsp.
      rewrite Hword in Hhead. destruct a as [|c a]; [done|].
      simpl in Hsp. apply andb_true_iff in Hsp as [Hc _].
      rewrite app_cons in Hhead. simpl in Hhead. by rewrite Hc in Hhead.
  - intros X HX. destruct (decide (word = "")) as [->|Hne]; [done|].
    destruct (getNextWord_spec _ _ _ _ Hnext) as [_ Htoken].
    destruct (Htoken Hne) as (gap & _ & _ & _ & Hend).
    destruct Hend as [Y _ Hsp|Hrest _|Hbreak|c Y HY _].
    + destruct Hsp as (s & Hs & _ & _ & _ & Hlvl).
      by rewrite <- (scan_state_level _ _ _ _ Hs : _ = brace_level 0 word).
    + by rewrite Hrest in HX.
    + unfold isLineBreak in Hbreak.
      apply orb_true_iff in Hbreak as [Hbreak|Hbreak];
        [apply orb_true_iff in Hbreak as [Hbreak|Hbreak]|];
        apply String.eqb_eq in Hbreak; by subst.
    + by rewrite HY in HX.
Qed.

Lemma token_spaces_inside_braces_witness :
  (forall a b, "{a b}" = a +:+ String " " b -> (0 < brace_level 0 a)%nat)
  /\ (forall X, Go.drop 5 "{a b} c" = String " " X ->
        brace_level 0 "{a b}" = 0%nat).
Proof.
  apply (token_spaces_inside_braces "{a b} c" 5 "{a b}" None). reflexivity.
Defined.

(** X6: [getNextWord] returns the same whether its loop walks the runes of
    the text, as [range] decodes them from UTF-8, or the bytes of the text
    one by one: a byte that is not ASCII, and a rune that is not ASCII,
    never end a token and are never read as a backslash, a brace or a
    break. *)
Theorem getNextWord_reads_bytes (text : string) :
  getNextWord text = scan_bytes text scan0 0 text
  /\ (forall s pos r,
        128 <= r -> endOnNext s = false ->
        getNextWord_body text s pos r
        = Continue (mkScan false (endPos s)
                      (if foundNonSpace s then startPos s else pos)
                      true true false (controlCodeLevel s))).
Proof.
  split; [apply getNextWord_bytes|].
  intros s pos r Hr Heon. rewrite getNextWord_body_high by done.
  by rewrite Heon.
Qed.

(** ** Further properties of [FormatText]: blank text *)

Lemma ReplaceAll_app s t :
  Go.ReplaceAll_newline_space (s +:+ t)
  = Go.ReplaceAll_newline_space s +:+ Go.ReplaceAll_newline_space t.
Proof.
  induction s as [|a s IH]; [done|]. rewrite app_cons. simpl.
  by rewrite IH.
Qed.

Lemma blank_spaces s :
  only_spaces (Go.ReplaceAll_newline_space s) = blank s.
Proof.
  induction s as [|a s IH]; [done|]. simpl. rewrite IH. f_equal.
  destruct (Ascii.eqb_spec a "010") as [->|Hnl]; [done|].
  by rewrite orb_false_r.
Qed.

Lemma tokens_spaces fuel sp J :
  only_spaces sp = true ->
  tokens (S fuel) (sp +:+ J) = tokens (S fuel) J.
Proof.
  induction sp as [|a sp IH]; [done|]. cbn [only_spaces].
  intros [->%Ascii.eqb_eq Hsp]%andb_true_iff.
  by rewrite app_cons, tokens_space, IH.
Qed.

Lemma tokens_only_spaces fuel sp :
  only_spaces sp = true -> (Go.len sp <= fuel)%nat ->
  tokens fuel sp = Some [].
Proof.
  intros Hsp Hlen. destruct fuel as [|fuel].
  - destruct sp as [|a sp]; [done|]. rewrite len_cons in Hlen. lia.
  - rewrite tokens_S. destruct (0 <? Go.len sp)%nat; [|done].
    by rewrite getNextWord_only_spaces_run.
Qed.

Lemma tokens_none fuel rest :
  tokens fuel rest = Some [] -> only_spaces rest = true.
Proof.
  destruct fuel as [|fuel]; simpl.
  - destruct (0 <? Go.len rest)%nat eqn:Hlen; [done|]. intros _.
    destruct rest; [done|]. unfold Go.len in Hlen. simpl in Hlen.
    apply Nat.ltb_ge in Hlen. lia.
  - destruct (0 <? Go.len rest)%nat eqn:Hlen.
    2:{ intros _. destruct rest; [done|]. unfold Go.len in Hlen.
        simpl in Hlen. apply Nat.ltb_ge in Hlen. lia. }
    destruct (getNextWord rest) as [[n word] err] eqn:Hnext.
    destruct (Go.len word =? 0)%nat eqn:Hword.
    + intros _. apply Nat.eqb_eq, len_zero in Hword. subst word.
      by eapply getNextWord_empty_spaces.
    + by destruct (tokens fuel (Go.drop n rest)).
Qed.

Lemma layout_empty first ws :
  Forall (fun word => word <> "") ws -> layout first ws "" -> ws = [].
Proof.
  intros Hws Hlay.
  assert (H : forall out, layout first ws out -> out = "" -> ws = []);
    [|by eapply H].
  clear Hlay. intros out Hlay Hout.
  destruct Hlay as [|first word words out Hbreak _
                    |word words out Hbreak _
                    |sep word words out Hbreak Hsep _]; [done|..];
    apply Forall_cons in Hws as [Hword _]; exfalso.
  - by apply app_eq_empty in Hout as [? _].
  - by apply app_eq_empty in Hout as [? _].
  - apply app_eq_empty in Hout as [_ Hout].
    by apply app_eq_empty in Hout as [? _].
Qed.

(** X7: blank text before the text does not count: [FormatText] returns the
    same for a text and for the text with spaces and newlines put before it;
    and a newline of the text counts as a space. *)
Theorem FormatText_leading_blank
    (fc : FontConfig) (b text : string) (maxWidth : Z) (fontID : string) :
  blank b = true ->
  FormatText fc (b +:+ text) maxWidth fontID
  = FormatText fc text maxWidth fontID
  /\ FormatText fc (Go.ReplaceAll_newline_space text) maxWidth fontID
     = FormatText fc text maxWidth fontID.
Proof.
  intros Hb. split.
  - destruct (negb (isFontIDValid fc fontID) && (0 <? Go.len fontID)%nat
              && negb (String.eqb fontID testFontID)) eqn:Hcheck.
    { unfold FormatText, FormatText_fuel. by rewrite Hcheck. }
    destruct (FormatText_accepted fc (b +:+ text) maxWidth fontID Hcheck)
      as (ws1 & Hws1 & ->).
    destruct (FormatText_accepted fc text maxWidth fontID Hcheck)
      as (ws2 & Hws2 & ->).
    rewrite ReplaceAll_app in Hws1.
    rewrite <- blank_spaces in Hb.
    destruct (Go.len (b +:+ text)) as [|fuel] eqn:Hlen.
    + apply len_zero, app_eq_empty in Hlen as [-> ->].
      simpl in Hws1, Hws2. congruence.
    + rewrite tokens_spaces in Hws1 by done.
      by rewrite (tokens_unique _ _ _ _ _ Hws1 Hws2).
  - unfold FormatText, FormatText_fuel.
    rewrite len_ReplaceAll.
    by rewrite (ReplaceAll_id _ (has_byte_ReplaceAll text)).
Qed.

Lemma FormatText_leading_blank_witness :
  FormatText noFonts ("  " +:+ NL +:+ "ab cd") 25 "TEST"
  = FormatText noFonts "ab cd" 25 "TEST"
  /\ FormatText noFonts (Go.ReplaceAll_newline_space "ab cd") 25 "TEST"
     = FormatText noFonts "ab cd" 25 "TEST".
Proof.
  apply (FormatText_leading_blank noFonts ("  " +:+ NL) "ab cd" 25 "TEST").
  reflexivity.
Defined.

(** X8: with a font identifier that is accepted, the output of [FormatText]
    is empty exactly when the text is blank, which is when it has only
    spaces and newlines; the empty text is blank. *)
Theorem FormatText_empty_iff_blank
    (fc : FontConfig) (text : string) (maxWidth : Z) (fontID : string) :
  fontID = "" \/ fontID = testFontID \/ is_Some (FontTable fc !! fontID) ->
  FormatText fc text maxWidth fontID = Some ("", None) <-> blank text = true.
Proof.
  intros Hcheck%font_check_accepts.
  destruct (FormatText_layout fc text maxWidth fontID Hcheck)
    as (ws & out & Hws & Hout & Hlay).
  rewrite <- blank_spaces. split.
  - rewrite Hout. intros [= ->].
    apply layout_empty in Hlay as ->; [|by eapply tokens_nonempty].
    by eapply tokens_none.
  - intros Hsp. rewrite (tokens_only_spaces _ _ Hsp) in Hws
      by (by rewrite len_ReplaceAll).
    injection Hws as <-. inversion Hlay; by subst.
Qed.

Lemma FormatText_empty_iff_blank_witness :
  FormatText noFonts ("  " +:+ NL +:+ " ") 25 "TEST" = Some ("", None)
  <-> blank ("  " +:+ NL +:+ " ") = true.
Proof.
  apply (FormatText_empty_iff_blank noFonts ("  " +:+ NL +:+ " ") 25 "TEST").
  right. by left.
Defined.

(** ** Further properties of [FormatText]: paragraphs *)

Lemma FormatText_words_paragraphs fc maxWidth fontID ws : forall w,
  Forall (fun word => word <> "") ws -> wrap_ok w ->
  exists out,
    (FormatText_finish (FormatText_words fc maxWidth fontID w ws)).1
    = formattedSb w +:+ curLineSb w +:+ out
    /\ paragraphs (isFirstLine w) (isFirstWord w) ws out.
Proof.
  induction ws as [|word ws IH]; intros w Hws Hok.
  - exists "". split; [|constructor]. unfold FormatText_finish. simpl.
    rewrite app_empty_r.
    destruct (0 <? Go.len (curLineSb w))%nat eqn:Hlen; [done|].
    destruct (curLineSb w); [by rewrite app_empty_r|done].
  - apply Forall_cons in Hws as [Hword Hws].
    destruct (IH (FormatText_word fc maxWidth fontID w word) Hws
                (FormatText_word_ok _ _ _ _ _ Hword)) as (out & Hout & Hlay).
    unfold FormatText_words in *. cbn [fold_left]. rewrite Hout.
    clear Hout IH.
    unfold FormatText_word in *.
    destruct (isLineBreak word) eqn:Hbreak.
    { exists (word +:+ NL +:+ out). simpl in *. split.
      - by rewrite !app_assoc_str.
      - constructor; [done|]. by destruct (isParagraphBreak word). }
    destruct (overflows _ _ _) eqn:Hover; simpl in *.
    { apply overflows_nonempty in Hover.
      destruct (isFirstWord w) eqn:Hfirst.
      { destruct Hover. by apply Hok. }
      exists ((if isFirstLine w then "\n" else "\l") +:+ NL +:+ word +:+ out).
      split; [by rewrite !app_assoc_str|].
      by constructor. }
    destruct (isFirstWord w) eqn:Hfirst; simpl in *.
    + exists (word +:+ out). split; [|by constructor].
      rewrite (proj1 Hok Hfirst). by rewrite !app_assoc_str.
    + exists (" " +:+ word +:+ out). split; [by rewrite !app_assoc_str|].
      by constructor.
Qed.

(** X9: which marker an automatic break gets.  With a font identifier that
    is accepted, the output is the tokens of the text laid out in paragraphs:
    the first automatic break of a paragraph is backslash n, every later one
    of the paragraph is backslash l; the authored break backslash p starts a
    new paragraph, and after the authored breaks backslash n and backslash l
    every automatic break is backslash l. *)
Theorem FormatText_paragraph_markers
    (fc : FontConfig) (text : string) (maxWidth : Z) (fontID : string) :
  fontID = "" \/ fontID = testFontID \/ is_Some (FontTable fc !! fontID) ->
  exists ws out,
    tokens (Go.len text) (Go.ReplaceAll_newline_space text) = Some ws
    /\ FormatText fc text maxWidth fontID = Some (out, None)
    /\ paragraphs true true ws out.
Proof.
  intros Hcheck%font_check_accepts.
  destruct (FormatText_accepted fc text maxWidth fontID Hcheck)
    as (ws & Hws & ->).
  destruct (FormatText_words_paragraphs fc maxWidth fontID ws wrap0)
    as (out & Hout & Hlay);
    [by eapply tokens_nonempty|apply wrap0_ok|].
  exists ws, out. split; [done|]. split; [|done].
  rewrite !app_empty_l in Hout. rewrite <- Hout.
  by unfold FormatText_finish.
Qed.

Lemma FormatText_paragraph_markers_witness :
  exists ws out,
    tokens 14 "aa bb cc\p d e" = Some ws
    /\ FormatText noFonts "aa bb cc\p d e" 25 "TEST" = Some (out, None)
    /\ paragraphs true true ws out.
Proof.
  apply (FormatText_paragraph_markers noFonts "aa bb cc\p d e" 25 "TEST").
  right. by left.
Defined.

(** ** Further properties of [FormatText]: the lines of the output *)

Lemma Join_nonempty cur :
  Forall (fun word => word <> "") cur -> cur <> [] -> Go.Join cur " " <> "".
Proof.
  destruct cur as [|t ts]; [done|]. intros [Ht _]%Forall_cons _.
  rewrite Join_cons. by apply app_nonempty_l.
Qed.

Lemma Join_snoc cur word :
  cur <> [] -> Go.Join (cur ++ [word]) " " = Go.Join cur " " +:+ " " +:+ word.
Proof.
  induction cur as [|t ts IH]; [done|]. intros _.
  destruct ts as [|t' ts]; [done|].
  change ((t :: t' :: ts) ++ [word]) with (t :: ((t' :: ts) ++ [word])).
  rewrite (Join_cons t ((t' :: ts) ++ [word])), IH by done.
  rewrite (Join_cons t (t' :: ts)). simpl app.
  by rewrite !app_assoc_str.
Qed.

Lemma wordWidthOf_is_int fc fontID first word :
  is_int (wordWidthOf fc fontID first word).
Proof. apply wrap64_is_int. Qed.

Lemma line_width_snoc fc fontID wrapped cur word :
  cur <> [] ->
  line_width fc fontID wrapped (cur ++ [word])
  = Go.int_add (line_width fc fontID wrapped cur)
      (wordWidthOf fc fontID false word).
Proof.
  destruct cur as [|t ts]; [done|]. intros _. simpl.
  by rewrite fold_left_app.
Qed.

Lemma on_line_start fc maxWidth fontID :
  on_line fc maxWidth fontID wrap0 false [].
Proof. repeat split; try done. simpl. lia. Qed.

Lemma on_line_ok fc maxWidth fontID w wrapped cur :
  on_line fc maxWidth fontID w wrapped cur -> wrap_ok w.
Proof.
  intros (Hline & Hne & Hfirst & _). unfold wrap_ok. rewrite Hfirst, Hline.
  split; [by intros ->|]. intros Hjoin.
  destruct cur as [|t ts]; [done|]. by destruct (Join_nonempty (t :: ts)).
Qed.

(** One token: what the engine does to its current line. *)
Lemma on_line_step fc maxWidth fontID w wrapped cur word :
  on_line fc maxWidth fontID w wrapped cur -> word <> "" ->
  let w' := FormatText_word fc maxWidth fontID w word in
  if isLineBreak word then
    on_line fc maxWidth fontID w' false []
    /\ formattedSb w'
       = formattedSb w +:+ Go.Join cur " " +:+ render_end (end_break word)
  else if overflows maxWidth w (wordWidthOf fc fontID (isFirstWord w) word)
  then
    on_line fc maxWidth fontID w' true [word]
    /\ formattedSb w'
       = formattedSb w +:+ Go.Join cur " "
           +:+ render_end (end_wrap (isFirstLine w))
    /\ cur <> []
    /\ maxWidth
       < Go.int_add (line_width fc fontID wrapped cur)
           (wordWidthOf fc fontID false word)
  else
    on_line fc maxWidth fontID w' wrapped (cur ++ [word])
    /\ formattedSb w' = formattedSb w.
Proof.
  intros Hon Hword. pose proof (on_line_ok _ _ _ _ _ _ Hon) as Hok.
  destruct Hon as (Hline & Hne & Hfirst & Hwrapped & Hwidth & Hfits).
  unfold FormatText_word. destruct (isLineBreak word) eqn:Hbreak.
  { simpl. split; [|by rewrite Hline].
    repeat split; try done. simpl. lia. }
  destruct (overflows _ _ _) eqn:Hover.
  - pose proof (overflows_not_first _ _ _ Hok Hover) as Hnot.
    assert (Hcur : cur <> []).
    { intros Hnil. apply Hfirst in Hnil. congruence. }
    simpl. rewrite Hnot in *. split; [|split; [by rewrite Hline|split]].
    + repeat split; try done.
      * by constructor.
      * simpl. lia.
    + done.
    + unfold overflows in Hover. apply andb_true_iff in Hover as [Hover _].
      apply Z.ltb_lt in Hover. by rewrite <- Hwidth.
  - simpl. split; [|done].
    destruct (isFirstWord w) eqn:Hfirstword.
    + assert (Hcur : cur = []) by by apply Hfirst.
      subst cur. rewrite (Hwrapped eq_refl) in *. simpl in *.
      rewrite Hline. repeat split; try done.
      * by constructor.
      * rewrite Hwidth. unfold Go.int_add. rewrite Z.add_0_l.
        apply wrap64_int, wordWidthOf_is_int.
      * simpl. lia.
    + assert (Hcur : cur <> []).
      { intros Hnil. apply Hfirst in Hnil. congruence. }
      simpl. repeat split.
      * rewrite Join_snoc by done. by rewrite Hline.
      * apply Forall_app. split; [done|by constructor].
      * intros ?. done.
      * by intros [? _]%app_eq_nil.
      * by intros [? _]%app_eq_nil.
      * rewrite line_width_snoc by done. by rewrite Hwidth.
      * intros _. unfold overflows in Hover.
        apply andb_false_iff in Hover as [Hover|Hover].
        -- by apply Z.ltb_ge in Hover.
        -- rewrite Hline in Hover.
           rewrite len_pos in Hover; [done|by apply Join_nonempty].
Qed.

Lemma FormatText_words_render fc maxWidth fontID ws : forall w wrapped cur,
  Forall (fun word => word <> "") ws ->
  on_line fc maxWidth fontID w wrapped cur ->
  (FormatText_finish (FormatText_words fc maxWidth fontID w ws)).1
  = formattedSb w +:+ render (lines_of fc maxWidth fontID w wrapped cur ws).
Proof.
  induction ws as [|word ws IH]; intros w wrapped cur Hws Hon.
  - destruct Hon as (Hline & _). simpl. rewrite !app_empty_r, <- Hline.
    destruct (0 <? Go.len (curLineSb w))%nat eqn:Hlen; [done|].
    destruct (curLineSb w); [by rewrite app_empty_r|done].
  - apply Forall_cons in Hws as [Hword Hws].
    pose proof (on_line_step _ _ _ _ _ _ _ Hon Hword) as Hstep.
    unfold FormatText_words in *. cbn [fold_left lines_of]. cbv zeta in Hstep.
    destruct (isLineBreak word).
    { destruct Hstep as [Hon' Hout]. rewrite (IH _ _ _ Hws Hon'), Hout.
      cbn [render line_words line_ends]. by rewrite !app_assoc_str. }
    destruct (overflows _ _ _).
    + destruct Hstep as (Hon' & Hout & _).
      rewrite (IH _ _ _ Hws Hon'), Hout.
      cbn [render line_words line_ends]. by rewrite !app_assoc_str.
    + destruct Hstep as [Hon' Hout]. by rewrite (IH _ _ _ Hws Hon'), Hout.
Qed.

Lemma lines_of_fit fc maxWidth fontID ws : forall w wrapped cur,
  Forall (fun word => word <> "") ws ->
  on_line fc maxWidth fontID w wrapped cur ->
  Forall (line_fits fc maxWidth fontID)
    (lines_of fc maxWidth fontID w wrapped cur ws).
Proof.
  induction ws as [|word ws IH]; intros w wrapped cur Hws Hon.
  - constructor; [|done].
    destruct Hon as (_ & _ & _ & _ & Hwidth & Hfits).
    unfold line_fits. simpl. by rewrite <- Hwidth.
  - apply Forall_cons in Hws as [Hword Hws].
    pose proof (on_line_step _ _ _ _ _ _ _ Hon Hword) as Hstep.
    cbn [lines_of]. cbv zeta in Hstep.
    destruct Hon as (_ & _ & _ & _ & Hwidth & Hfits).
    destruct (isLineBreak word).
    { destruct Hstep as [Hon' _]. constructor; [|by apply IH].
      unfold line_fits. simpl. by rewrite <- Hwidth. }
    destruct (overflows _ _ _).
    + destruct Hstep as (Hon' & _). constructor; [|by apply IH].
      unfold line_fits. simpl. by rewrite <- Hwidth.
    + destruct Hstep as [Hon' _]. by apply IH.
Qed.

Lemma lines_of_head fc maxWidth fontID ws : forall w wrapped cur,
  exists more e ls,
    lines_of fc maxWidth fontID w wrapped cur ws
    = mkLine wrapped (cur ++ more) e :: ls.
Proof.
  induction ws as [|word ws IH]; intros w wrapped cur; cbn [lines_of].
  - exists [], end_of_text, []. by rewrite app_nil_r.
  - destruct (isLineBreak word).
    { eexists [], _, _. by rewrite app_nil_r. }
    destruct (overflows _ _ _).
    + eexists [], _, _. by rewrite app_nil_r.
    + destruct (IH (FormatText_word fc maxWidth fontID w word) wrapped
                  (cur ++ [word])) as (more & e & ls & ->).
      exists (word :: more), e, ls. by rewrite <- app_assoc.
Qed.

Lemma lines_of_needed fc maxWidth fontID ws : forall w wrapped cur,
  Forall (fun word => word <> "") ws ->
  on_line fc maxWidth fontID w wrapped cur ->
  breaks_needed fc maxWidth fontID
    (lines_of fc maxWidth fontID w wrapped cur ws).
Proof.
  induction ws as [|word ws IH]; intros w wrapped cur Hws Hon; [done|].
  apply Forall_cons in Hws as [Hword Hws].
  pose proof (on_line_step _ _ _ _ _ _ _ Hon Hword) as Hstep.
  cbn [lines_of]. cbv zeta in Hstep.
  destruct (isLineBreak word).
  { destruct Hstep as [Hon' _]. cbn [breaks_needed].
    split; [|by apply IH].
    destruct (lines_of_head fc maxWidth fontID ws
                (FormatText_word fc maxWidth fontID w word) false [])
      as (more & e & ls & ->). done. }
  destruct (overflows _ _ _).
  - destruct Hstep as (Hon' & _ & Hcur & Hover). cbn [breaks_needed].
    split; [|by apply IH].
    destruct (lines_of_head fc maxWidth fontID ws
                (FormatText_word fc maxWidth fontID w word) true [word])
      as (more & e & ls & ->).
    intros firstLine _. simpl. repeat split; try done.
    by exists word, more.
  - destruct Hstep as [Hon' _]. by apply IH.
Qed.

Lemma lines_of_words fc maxWidth fontID ws : forall w wrapped cur,
  concat (map line_words (lines_of fc maxWidth fontID w wrapped cur ws))
  = cur ++ filter (fun word => isLineBreak word = false) ws.
Proof.
  induction ws as [|word ws IH]; intros w wrapped cur; cbn [lines_of].
  - simpl. by rewrite !app_nil_r.
  - rewrite filter_cons.
    destruct (isLineBreak word) eqn:Hbreak.
    { rewrite decide_False by done. simpl. by rewrite IH. }
    rewrite decide_True by done.
    destruct (overflows _ _ _); simpl; rewrite IH.
    + done.
    + by rewrite <- app_assoc.
Qed.

(** The width of a line in pixels, when no addition wraps around. *)
Lemma fold_width_exact fc fontID words : forall a,
  let space := getRunePixelWidth fc (rune " ") fontID in
  0 <= space ->
  Forall (fun word => 0 <= getWordPixelWidth fc word fontID) words ->
  0 <= a ->
  a + Zsum (map (fun word => space + getWordPixelWidth fc word fontID) words)
    < 2 ^ 63 ->
  fold_left
    (fun width word => Go.int_add width (wordWidthOf fc fontID false word))
    words a
  = a + Zsum (map (fun word => space + getWordPixelWidth fc word fontID)
                words).
Proof.
  intros a space Hspace. revert a.
  induction words as [|word words IH]; intros a Hwords Ha Hsum.
  - simpl. lia.
  - apply Forall_cons in Hwords as [Hword Hwords].
    cbn [map Zsum foldr] in *. fold (Zsum (map (fun word => space + getWordPixelWidth fc word fontID) words)) in *.
    assert (Hrest : 0 <= Zsum (map (fun word =>
                      space + getWordPixelWidth fc word fontID) words)).
    { clear -Hspace Hwords. induction Hwords; simpl; [done|]. lia. }
    cbn [fold_left]. rewrite wordWidthOf_later. fold space.
    rewrite (wrap64_int (space + _)) by (unfold is_int; lia).
    unfold Go.int_add. rewrite wrap64_int by (unfold is_int; lia).
    rewrite IH; [lia|done|lia|lia].
Qed.

Lemma line_width_pixels fc fontID wrapped words :
  let space := getRunePixelWidth fc (rune " ") fontID in
  0 <= space ->
  Forall (fun word => 0 <= getWordPixelWidth fc word fontID) words ->
  Zsum (map (fun word => space + getWordPixelWidth fc word fontID) words)
    < 2 ^ 63 ->
  words <> [] ->
  line_width fc fontID wrapped words
  = line_pixels fc fontID words + (if wrapped then space else 0).
Proof.
  intros space Hspace Hwords Hsum Hne.
  destruct words as [|word words]; [done|]. clear Hne.
  apply Forall_cons in Hwords as [Hword Hwords].
  unfold line_width, line_pixels. fold space.
  cbn [map Zsum foldr length] in *.
  fold (Zsum (map (fun word => space + getWordPixelWidth fc word fontID)
                words)) in *.
  fold (Zsum (map (fun word => getWordPixelWidth fc word fontID) words)).
  assert (Hrest : 0 <= Zsum (map (fun word =>
                    space + getWordPixelWidth fc word fontID) words)).
  { clear -Hspace Hwords. induction Hwords; simpl; [done|]. lia. }
  assert (Hsplit : Zsum (map (fun word =>
                     space + getWordPixelWidth fc word fontID) words)
                   = Zsum (map (fun word => getWordPixelWidth fc word fontID)
                             words)
                     + space * Z.of_nat (length words)).
  { clear. induction words as [|t ts IH]; simpl; [lia|].
    rewrite IH. lia. }
  assert (Hfirst : wordWidthOf fc fontID (negb wrapped) word
                   = getWordPixelWidth fc word fontID
                     + (if wrapped then space else 0)).
  { destruct wrapped; simpl negb.
    - rewrite wordWidthOf_later. fold space.
      rewrite wrap64_int by (unfold is_int; lia). lia.
    - rewrite wordWidthOf_first. lia. }
  rewrite fold_width_exact; fold space; try done.
  - rewrite Hfirst, Hsplit. destruct wrapped; lia.
  - rewrite Hfirst. destruct wrapped; lia.
  - rewrite Hfirst. destruct wrapped; lia.
Qed.

(** X10: the lines of the output fit.  With a font identifier that is
    accepted, the output is the text of the lines that the engine writes;
    the words of the lines are the tokens that are not breaks, in order;
    and on every line with two words or more, the widths of the words, added
    up as [FormatText] adds them, are at most [maxWidth].  When the widths
    are not negative and their sum does not wrap around, the width of such a
    line in pixels, one space between two words, is at most [maxWidth]. *)
Theorem FormatText_lines_fit
    (fc : FontConfig) (text : string) (maxWidth : Z) (fontID : string) :
  fontID = "" \/ fontID = testFontID \/ is_Some (FontTable fc !! fontID) ->
  let space := getRunePixelWidth fc (rune " ") fontID in
  exists ws,
    tokens (Go.len text) (Go.ReplaceAll_newline_space text) = Some ws
    /\ FormatText fc text maxWidth fontID
       = Some (render (lines fc maxWidth fontID ws), None)
    /\ concat (map line_words (lines fc maxWidth fontID ws))
       = filter (fun word => isLineBreak word = false) ws
    /\ Forall
         (fun l =>
            (2 <= length (line_words l))%nat ->
            line_width fc fontID (after_wrap l) (line_words l) <= maxWidth
            /\ (0 <= space ->
                Forall (fun word => 0 <= getWordPixelWidth fc word fontID)
                  (line_words l) ->
                Zsum (map (fun word =>
                             space + getWordPixelWidth fc word fontID)
                        (line_words l)) < 2 ^ 63 ->
                line_pixels fc fontID (line_words l) <= maxWidth))
         (lines fc maxWidth fontID ws).
Proof.
  intros Hcheck%font_check_accepts space.
  destruct (FormatText_accepted fc text maxWidth fontID Hcheck)
    as (ws & Hws & ->).
  pose proof (tokens_nonempty _ _ _ Hws) as Hne.
  exists ws. split; [done|]. split; [|split].
  - pose proof (FormatText_words_render fc maxWidth fontID ws wrap0 false []
                  Hne (on_line_start _ _ _)) as Hout.
    rewrite app_empty_l in Hout. unfold lines. rewrite <- Hout.
    by unfold FormatText_finish.
  - apply (lines_of_words fc maxWidth fontID ws wrap0 false []).
  - eapply Forall_impl;
      [apply (lines_of_fit fc maxWidth fontID ws wrap0 false [] Hne
                (on_line_start _ _ _))|].
    intros l Hfits Hlen. specialize (Hfits Hlen). split; [done|].
    intros Hspace Hwords Hsum.
    rewrite line_width_pixels in Hfits; try done.
    + fold space in Hfits. destruct (after_wrap l); lia.
    + intros Hnil. rewrite Hnil in Hlen. simpl in Hlen. lia.
Qed.

Lemma FormatText_lines_fit_witness :
  exists ws,
    tokens 8 "aa bb cc" = Some ws
    /\ FormatText noFonts "aa bb cc" 50 "TEST"
       = Some (render (lines noFonts 50 "TEST" ws), None)
    /\ concat (map line_words (lines noFonts 50 "TEST" ws))
       = filter (fun word => isLineBreak word = false) ws
    /\ Forall
         (fun l =>
            (2 <= length (line_words l))%nat ->
            line_width noFonts "TEST" (after_wrap l) (line_words l) <= 50
            /\ (0 <= getRunePixelWidth noFonts (rune " ") "TEST" ->
                Forall (fun word => 0 <= getWordPixelWidth noFonts word "TEST")
                  (line_words l) ->
                Zsum (map (fun word =>
                             getRunePixelWidth noFonts (rune " ") "TEST"
                             + getWordPixelWidth noFonts word "TEST")
                        (line_words l)) < 2 ^ 63 ->
                line_pixels noFonts "TEST" (line_words l) <= 50))
         (lines noFonts 50 "TEST" ws).
Proof.
  apply (FormatText_lines_fit noFonts "aa bb cc" 50 "TEST").
  right. by left.
Defined.

(** X11: no automatic break is put where the word still fits.  Where a line
    of the output ends with an automatic break, the line has a word, the
    next line starts with a word, and the width of the line and of that
    word with its space, added up as [FormatText] adds them, exceeds
    [maxWidth]. *)
Theorem FormatText_breaks_needed
    (fc : FontConfig) (text : string) (maxWidth : Z) (fontID : string) :
  fontID = "" \/ fontID = testFontID \/ is_Some (FontTable fc !! fontID) ->
  exists ws,
    tokens (Go.len text) (Go.ReplaceAll_newline_space text) = Some ws
    /\ FormatText fc text maxWidth fontID
       = Some (render (lines fc maxWidth fontID ws), None)
    /\ breaks_needed fc maxWidth fontID (lines fc maxWidth fontID ws).
Proof.
  intros Hcheck%font_check_accepts.
  destruct (FormatText_accepted fc text maxWidth fontID Hcheck)
    as (ws & Hws & ->).
  pose proof (tokens_nonempty _ _ _ Hws) as Hne.
  exists ws. split; [done|]. split.
  - pose proof (FormatText_words_render fc maxWidth fontID ws wrap0 false []
                  Hne (on_line_start _ _ _)) as Hout.
    rewrite app_empty_l in Hout. unfold lines. rewrite <- Hout.
    by unfold FormatText_finish.
  - apply lines_of_needed; [done|apply on_line_start].
Qed.

Lemma FormatText_breaks_needed_witness :
  exists ws,
    tokens 8 "aa bb cc" = Some ws
    /\ FormatText noFonts "aa bb cc" 50 "TEST"
       = Some (render (lines noFonts 50 "TEST" ws), None)
    /\ breaks_needed noFonts 50 "TEST" (lines noFonts 50 "TEST" ws).
Proof.
  apply (FormatText_breaks_needed noFonts "aa bb cc" 50 "TEST").
  right. by left.
Defined.

(** ** Further properties of [FormatText]: text that fits *)

Lemma Zsum_nonneg {A} (f : A -> Z) (l : list A) :
  Forall (fun x => 0 <= f x) l -> 0 <= Zsum (map f l).
Proof. induction 1; simpl; [done|]. lia. Qed.

Lemma FormatText_words_unwrapped fc maxWidth fontID ws : forall w,
  let space := getRunePixelWidth fc (rune " ") fontID in
  Forall (fun word => word <> "") ws -> wrap_ok w ->
  0 <= space ->
  Forall (fun word => 0 <= getWordPixelWidth fc word fontID) ws ->
  0 <= curWidth w ->
  curWidth w
    + Zsum (map (fun word => space + getWordPixelWidth fc word fontID) ws)
    <= maxWidth ->
  curWidth w
    + Zsum (map (fun word => space + getWordPixelWidth fc word fontID) ws)
    < 2 ^ 63 ->
  (FormatText_finish (FormatText_words fc maxWidth fontID w ws)).1
  = formattedSb w +:+ curLineSb w +:+ unwrapped (isFirstWord w) ws.
Proof.
  intros w space. revert w.
  induction ws as [|word ws IH]; intros w Hws Hok Hspace Hpx Hcur Hfit Hint.
  - unfold FormatText_finish. simpl. rewrite app_empty_r.
    destruct (0 <? Go.len (curLineSb w))%nat eqn:Hlen; [done|].
    destruct (curLineSb w); [by rewrite app_empty_r|done].
  - apply Forall_cons in Hws as [Hword Hws].
    apply Forall_cons in Hpx as [Hpxw Hpx].
    cbn [map Zsum foldr] in Hfit, Hint.
    fold (Zsum (map (fun word => space + getWordPixelWidth fc word fontID)
                  ws)) in Hfit, Hint.
    pose proof (Zsum_nonneg
                  (fun word => space + getWordPixelWidth fc word fontID) ws)
      as Hrest.
    assert (0 <= Zsum (map (fun word =>
                     space + getWordPixelWidth fc word fontID) ws)) as Hrest'.
    { apply Hrest. eapply Forall_impl; [exact Hpx|]. simpl. lia. }
    clear Hrest.
    pose proof (FormatText_word_ok fc maxWidth fontID w word Hword) as Hok'.
    unfold FormatText_words in *. cbn [fold_left unwrapped].
    assert (Hwidth : wordWidthOf fc fontID (isFirstWord w) word
                     = (if isFirstWord w then 0 else space)
                       + getWordPixelWidth fc word fontID).
    { destruct (isFirstWord w).
      - rewrite wordWidthOf_first. lia.
      - rewrite wordWidthOf_later. fold space.
        apply wrap64_int. unfold is_int. lia. }
    revert Hok' IH. unfold FormatText_word.
    destruct (isLineBreak word) eqn:Hbreak.
    { intros Hok' IH. rewrite IH; try done; simpl; try lia.
      by rewrite !app_assoc_str. }
    assert (Hover : overflows maxWidth w
                      (wordWidthOf fc fontID (isFirstWord w) word) = false).
    { unfold overflows. rewrite Hwidth. unfold Go.int_add.
      rewrite wrap64_int by (unfold is_int; destruct (isFirstWord w); lia).
      apply andb_false_iff. left. apply Z.ltb_ge.
      destruct (isFirstWord w); lia. }
    rewrite Hover. intros Hok' IH. rewrite IH; try done; simpl.
    + destruct (isFirstWord w); simpl; by rewrite !app_assoc_str.
    + rewrite Hwidth. unfold Go.int_add.
      rewrite wrap64_int by (unfold is_int; destruct (isFirstWord w); lia).
      destruct (isFirstWord w); lia.
    + rewrite Hwidth. unfold Go.int_add.
      rewrite wrap64_int by (unfold is_int; destruct (isFirstWord w); lia).
      destruct (isFirstWord w); lia.
    + rewrite Hwidth. unfold Go.int_add.
      rewrite wrap64_int by (unfold is_int; destruct (isFirstWord w); lia).
      destruct (isFirstWord w); lia.
Qed.

Lemma getWordPixelWidth_no_font fc word fontID :
  FontTable fc !! fontID = None -> fontID <> testFontID ->
  getWordPixelWidth fc word fontID = 0.
Proof.
  intros Hnone Htest. rewrite getWordPixelWidth_sum.
  apply String.eqb_neq in Htest.
  rewrite (Zsum_const _ 0), (Zsum_const _ 0); [done|..].
  - intros pr. unfold getRunePixelWidth, readWidthFromFontConfig.
    by rewrite Htest, Hnone.
  - intros code. unfold getControlCodePixelWidth, readWidthFromFontConfig.
    by rewrite Htest, Hnone.
Qed.

(** X12: a text that fits is not wrapped.  When no width is negative and
    the widths of all tokens, every one with the width of a space, add up to
    at most [maxWidth], which is a value of [int], the output has no
    automatic break: it is the tokens with one space between two words of a
    line and a newline after every authored break. *)
Theorem FormatText_unwrapped_when_fits
    (fc : FontConfig) (text : string) (maxWidth : Z) (fontID : string)
    (ws : list string) :
  fontID = "" \/ fontID = testFontID \/ is_Some (FontTable fc !! fontID) ->
  tokens (Go.len text) (Go.ReplaceAll_newline_space text) = Some ws ->
  0 <= getRunePixelWidth fc (rune " ") fontID ->
  Forall (fun word => 0 <= getWordPixelWidth fc word fontID) ws ->
  Zsum (map (fun word =>
               getRunePixelWidth fc (rune " ") fontID
               + getWordPixelWidth fc word fontID) ws) <= maxWidth ->
  maxWidth < 2 ^ 63 ->
  FormatText fc text maxWidth fontID = Some (unwrapped true ws, None).
Proof.
  intros Hcheck%font_check_accepts Hws Hspace Hpx Hfit Hint.
  destruct (FormatText_accepted fc text maxWidth fontID Hcheck)
    as (ws' & Hws' & ->).
  assert (ws' = ws) as -> by congruence.
  assert (Hout : (FormatText_finish
                    (FormatText_words fc maxWidth fontID wrap0 ws)).1
                 = unwrapped true ws).
  { rewrite FormatText_words_unwrapped; try done;
      [by eapply tokens_nonempty|..]; change (curWidth wrap0) with 0; lia. }
  rewrite <- Hout. by unfold FormatText_finish.
Qed.

Lemma FormatText_unwrapped_when_fits_witness :
  FormatText noFonts "aa bb\p cc" 200 "TEST"
  = Some (unwrapped true ["aa"; "bb"; "\p"; "cc"], None).
Proof.
  apply (FormatText_unwrapped_when_fits noFonts "aa bb\p cc" 200 "TEST");
    [right; by left|reflexivity|by vm_compute
    |repeat constructor; by vm_compute|by vm_compute|by vm_compute].
Defined.

(** X13: without a font, nothing is wrapped.  With the empty font identifier
    and no font of that name in the table, every width is the fallback
    width 0; so for every [maxWidth] that is not negative the output has no
    automatic break, whatever the length of the text. *)
Theorem FormatText_without_font
    (fc : FontConfig) (text : string) (maxWidth : Z) :
  FontTable fc !! "" = None ->
  0 <= maxWidth ->
  exists ws,
    tokens (Go.len text) (Go.ReplaceAll_newline_space text) = Some ws
    /\ FormatText fc text maxWidth "" = Some (unwrapped true ws, None).
Proof.
  intros Hnone Hmax.
  destruct (FormatText_accepted fc text maxWidth ""
              (font_check_accepts fc "" (or_introl eq_refl)))
    as (ws & Hws & ->).
  exists ws. split; [done|].
  assert (Hspace : getRunePixelWidth fc (rune " ") "" = 0).
  { unfold getRunePixelWidth, readWidthFromFontConfig. by rewrite Hnone. }
  assert (Hsum : Zsum (map (fun word =>
                   getRunePixelWidth fc (rune " ") ""
                   + getWordPixelWidth fc word "") ws) = 0).
  { rewrite (Zsum_const _ 0); [lia|]. intros word.
    by rewrite Hspace, getWordPixelWidth_no_font. }
  assert (Hout : (FormatText_finish
                    (FormatText_words fc maxWidth "" wrap0 ws)).1
                 = unwrapped true ws).
  { rewrite FormatText_words_unwrapped; try done.
    - by eapply tokens_nonempty.
    - lia.
    - apply Forall_forall. intros word _.
      by rewrite getWordPixelWidth_no_font.
    - change (curWidth wrap0) with 0. lia.
    - change (curWidth wrap0) with 0. lia. }
  rewrite <- Hout. by unfold FormatText_finish.
Qed.

Lemma FormatText_without_font_witness :
  exists ws,
    tokens 11 "hello world" = Some ws
    /\ FormatText noFonts "hello world" 0 "" = Some (unwrapped true ws, None).
Proof.
  apply (FormatText_without_font noFonts "hello world" 0); [done|lia].
Defined.

(** ** Further properties of [FormatText]: newlines *)

Lemma newline_in_word t rest pre post :
  has_byte "010" t = false ->
  t +:+ rest = pre +:+ NL +:+ post ->
  exists m, pre = t +:+ m /\ rest = m +:+ NL +:+ post.
Proof.
  intros Ht Heq. apply app_eq_app_str in Heq as [(m & -> & ->)|(m & -> & Heq)].
  - by exists m.
  - destruct m as [|c m].
    + exists "". by rewrite !app_empty_r, app_empty_l in *.
    + rewrite app_cons in Heq. injection Heq as <- _.
      rewrite has_byte_app in Ht. by apply orb_false_elim in Ht as [_ Ht].
Qed.

Lemma newline_after_marker c rest pre post :
  is_lnp (Go.byte_val c) = true ->
  String "\" (String c (NL +:+ rest)) = pre +:+ NL +:+ post ->
  pre = String "\" (String c "")
  \/ exists m, pre = String "\" (String c (NL +:+ m))
               /\ rest = m +:+ NL +:+ post.
Proof.
  intros Hc Heq. unfold NL in *.
  destruct pre as [|a [|b [|d pre]]];
    rewrite ?app_cons, ?app_empty_l in Heq.
  - by injection Heq.
  - injection Heq as _ Heq _. subst c. by vm_compute in Hc.
  - injection Heq as <- <- _. by left.
  - injection Heq as <- <- <- Heq. right. exists pre.
    by rewrite !app_cons, !app_empty_l.
Qed.

Lemma layout_newlines first ws out :
  layout first ws out ->
  Forall (fun word => has_byte "010" word = false) ws ->
  forall pre post,
    out = pre +:+ NL +:+ post ->
    exists pre' c,
      pre = pre' +:+ String "\" (String c "")
      /\ is_lnp (Go.byte_val c) = true.
Proof.
  induction 1 as [|first word words out Hbreak _ IH
                  |word words out Hbreak _ IH
                  |sep word words out Hbreak Hsep _ IH];
    intros Hnl pre post Heq.
  - destruct pre; done.
  - apply Forall_cons in Hnl as [_ Hnl].
    destruct (isLineBreak_inv _ Hbreak) as [c ->].
    assert (Hc : is_lnp (Go.byte_val c) = true).
    { unfold isLineBreak in Hbreak. simpl in Hbreak. rewrite is_lnp_byte.
      destruct (Ascii.eqb c "l"), (Ascii.eqb c "n"), (Ascii.eqb c "p");
        simpl in *; done. }
    destruct (newline_after_marker c out pre post Hc Heq)
      as [->|(m & -> & Heq')].
    + by exists "", c.
    + destruct (IH Hnl _ _ Heq') as (pre' & c' & -> & Hc').
      by exists (String "\" (String c (NL +:+ pre'))), c'.
  - apply Forall_cons in Hnl as [Hword Hnl].
    apply newline_in_word in Heq as (m & -> & Heq); [|done].
    destruct (IH Hnl _ _ Heq) as (pre' & c' & -> & Hc').
    exists (word +:+ pre'), c'. by rewrite app_assoc_str.
  - apply Forall_cons in Hnl as [Hword Hnl].
    assert (Hstep : forall pre post,
              word +:+ out = pre +:+ NL +:+ post ->
              exists pre' c,
                pre = pre' +:+ String "\" (String c "")
                /\ is_lnp (Go.byte_val c) = true).
    { intros pre1 post1 Heq1.
      apply newline_in_word in Heq1 as (m & -> & Heq1); [|done].
      destruct (IH Hnl _ _ Heq1) as (pre' & c' & -> & Hc').
      exists (word +:+ pre'), c'. by rewrite app_assoc_str. }
    destruct Hsep as [->|[->| ->]].
    + apply (newline_in_word " ") in Heq as (m & -> & Heq); [|done].
      destruct (Hstep _ _ Heq) as (pre' & c' & -> & Hc').
      by exists (" " +:+ pre'), c'.
    + destruct (newline_after_marker "n" (word +:+ out) pre post
                  eq_refl Heq) as [->|(m & -> & Heq')].
      * by exists "", "n"%char.
      * destruct (Hstep _ _ Heq') as (pre' & c' & -> & Hc').
        by exists (String "\" (String "n" (NL +:+ pre'))), c'.
    + destruct (newline_after_marker "l" (word +:+ out) pre post
                  eq_refl Heq) as [->|(m & -> & Heq')].
      * by exists "", "l"%char.
      * destruct (Hstep _ _ Heq') as (pre' & c' & -> & Hc').
        by exists (String "\" (String "l" (NL +:+ pre'))), c'.
Qed.

(** X14: [FormatText] writes no newline of its own accord.  Every newline of
    the output stands directly after a break, which is a backslash and one
    of l, n, p; the newlines of the text are not in the output, and none of
    its tokens has one. *)
Theorem FormatText_newlines_after_breaks
    (fc : FontConfig) (text : string) (maxWidth : Z) (fontID out : string)
    (err : error) (pre post : string) :
  FormatText fc text maxWidth fontID = Some (out, err) ->
  out = pre +:+ NL +:+ post ->
  exists pre' c,
    pre = pre' +:+ String "\" (String c "")
    /\ is_lnp (Go.byte_val c) = true.
Proof.
  intros Hout Heq.
  destruct (negb (isFontIDValid fc fontID) && (0 <? Go.len fontID)%nat
            && negb (String.eqb fontID testFontID)) eqn:Hcheck.
  { unfold FormatText, FormatText_fuel in Hout. rewrite Hcheck in Hout.
    injection Hout as <- _. destruct pre; done. }
  destruct (FormatText_layout fc text maxWidth fontID Hcheck)
    as (ws & out' & Hws & Hout' & Hlay).
  assert (out' = out) as -> by congruence.
  eapply layout_newlines; [exact Hlay| |exact Heq].
  eapply cut_no_newline; [by eapply tokens_cut|].
  apply has_byte_ReplaceAll.
Qed.

Lemma FormatText_newlines_after_breaks_witness :
  exists pre' c,
    "ab\n" = pre' +:+ String "\" (String c "")
    /\ is_lnp (Go.byte_val c) = true.
Proof.
  apply (FormatText_newlines_after_breaks noFonts "ab cd" 25 "TEST"
           ("ab\n" +:+ NL +:+ "cd") None "ab\n" "cd"); reflexivity.
Defined.

(** ** Further properties of the control codes *)

Lemma no_code_prefix pre s :
  has_byte Regexp.lbrace pre = false -> no_code s -> no_code (pre +:+ s).
Proof.
  induction pre as [|a pre IH]; [done|]. simpl.
  intros [Ha Hpre]%orb_false_elim Hs. rewrite app_cons.
  apply no_code_cons; [|by apply IH]. by apply Ascii.eqb_neq.
Qed.

Lemma code_split_no_code word codes stripped :
  code_split word codes stripped -> no_code stripped.
Proof.
  induction 1 as [s Hs|pre body rest codes stripped Hpre Hbody _ IH];
    [done|]. by apply no_code_prefix.
Qed.

Lemma no_code_tail a s : no_code (String a s) -> no_code s.
Proof.
  intros Hs pre post Heq. apply (Hs (String a pre)).
  by rewrite app_cons, Heq.
Qed.

Lemma no_code_nothing_found s : forall pos,
  no_code s ->
  Regexp.find_from pos 0 s = [] /\ Regexp.strip_from 0 s = s.
Proof.
  induction s as [|a s IH]; intros pos Hs; [done|].
  cbn [Regexp.find_from Regexp.strip_from].
  destruct (Ascii.eqb a Regexp.lbrace) eqn:Ha.
  - apply Ascii.eqb_eq in Ha as ->.
    pose proof (Hs "" s eq_refl) as Hnone.
    apply index_rbrace_None in Hnone. by rewrite Hnone.
  - destruct (IH (S pos) (no_code_tail _ _ Hs)) as [-> ->]. done.
Qed.

Lemma code_split_len word codes stripped :
  code_split word codes stripped ->
  Go.len word
  = (Go.len stripped + foldr (fun code n => Go.len code + n) 0 codes)%nat.
Proof.
  induction 1 as [s Hs|pre body rest codes stripped Hpre Hbody _ IH].
  - simpl. lia.
  - cbn [foldr]. rewrite !len_app, !len_cons, IH. simpl. lia.
Qed.

(** X15: stripping the control codes leaves none.  In the word that
    [processControlCodes] returns, the pattern matches nowhere, so that
    stripping it again changes nothing and gives the width 0; and the bytes
    of a word are those of its stripped word and of its control codes. *)
Theorem processControlCodes_leaves_no_code
    (fc : FontConfig) (word fontID : string) :
  let stripped := (processControlCodes fc word fontID).1 in
  controlCodes stripped = []
  /\ processControlCodes fc stripped fontID = (stripped, 0)
  /\ Go.len word
     = (Go.len stripped
        + foldr (fun code n => Go.len code + n) 0 (controlCodes word))%nat.
Proof.
  cbn [processControlCodes fst]. cbv zeta.
  pose proof (controlCodes_split word) as Hsplit.
  pose proof (code_split_no_code _ _ _ Hsplit) as Hnone.
  destruct (no_code_nothing_found _ 0 Hnone) as [Hfind Hstrip].
  assert (Hcodes : controlCodes (Regexp.ReplaceAllString_empty word) = []).
  { unfold controlCodes, Regexp.FindAllStringIndex. by rewrite Hfind. }
  split; [done|]. split.
  - unfold processControlCodes. rewrite Hcodes.
    change (Regexp.ReplaceAllString_empty
              (Regexp.ReplaceAllString_empty word))
      with (Regexp.strip_from 0 (Regexp.ReplaceAllString_empty word)).
    by rewrite Hstrip.
  - by apply code_split_len.
Qed.

(** ** Further properties of [FormatText]: what it reads of the font table *)

Lemma readWidthFromFontConfig_same fc fc' value fontID :
  Widths <$> FontTable fc !! fontID = Widths <$> FontTable fc' !! fontID ->
  readWidthFromFontConfig fc value fontID
  = readWidthFromFontConfig fc' value fontID.
Proof.
  unfold readWidthFromFontConfig.
  destruct (FontTable fc !! fontID) as [font|],
           (FontTable fc' !! fontID) as [font'|]; simpl; try done.
  by intros [= ->].
Qed.

Lemma getWordPixelWidth_same fc fc' word fontID :
  fontID = testFontID
  \/ Widths <$> FontTable fc !! fontID = Widths <$> FontTable fc' !! fontID ->
  getWordPixelWidth fc word fontID = getWordPixelWidth fc' word fontID.
Proof.
  intros Hsame. rewrite !getWordPixelWidth_sum. do 2 f_equal.
  - f_equal. apply map_ext. intros code. unfold getControlCodePixelWidth.
    destruct Hsame as [->|Hsame]; [done|].
    by rewrite (readWidthFromFontConfig_same fc fc').
  - f_equal. apply map_ext. intros pr. unfold getRunePixelWidth.
    destruct Hsame as [->|Hsame]; [done|].
    by rewrite (readWidthFromFontConfig_same fc fc').
Qed.

Lemma FormatText_word_same fc fc' maxWidth fontID w word :
  fontID = testFontID
  \/ Widths <$> FontTable fc !! fontID = Widths <$> FontTable fc' !! fontID ->
  FormatText_word fc maxWidth fontID w word
  = FormatText_word fc' maxWidth fontID w word.
Proof.
  intros Hsame. unfold FormatText_word, wordWidthOf.
  rewrite (getWordPixelWidth_same fc fc' word fontID Hsame).
  replace (getRunePixelWidth fc (rune " ") fontID)
    with (getRunePixelWidth fc' (rune " ") fontID); [done|].
  unfold getRunePixelWidth. destruct Hsame as [->|Hsame]; [done|].
  by rewrite (readWidthFromFontConfig_same fc fc').
Qed.

(** X16: of the font table, [FormatText] reads the widths of the one font
    it is called with, and with the test font it reads nothing.  Two tables
    in which that font has the same widths give the same result for every
    accepted font identifier, whatever their other fonts, their default font
    and the maximal line lengths are. *)
Theorem FormatText_reads_one_font
    (fc fc' : FontConfig) (text : string) (maxWidth : Z) (fontID : string) :
  fontID = "" \/ fontID = testFontID \/ is_Some (FontTable fc !! fontID) ->
  fontID = testFontID
  \/ Widths <$> FontTable fc !! fontID = Widths <$> FontTable fc' !! fontID ->
  FormatText fc text maxWidth fontID = FormatText fc' text maxWidth fontID.
Proof.
  intros Hok Hsame.
  assert (Hok' : fontID = "" \/ fontID = testFontID
                 \/ is_Some (FontTable fc' !! fontID)).
  { destruct Hok as [?|[?|[font Hfont]]]; auto.
    destruct Hsame as [?|Hsame]; auto. right; right.
    rewrite Hfont in Hsame. simpl in Hsame.
    destruct (FontTable fc' !! fontID); [by eexists|done]. }
  destruct (FormatText_accepted fc text maxWidth fontID
              (font_check_accepts _ _ Hok)) as (ws & Hws & ->).
  destruct (FormatText_accepted fc' text maxWidth fontID
              (font_check_accepts _ _ Hok')) as (ws' & Hws' & ->).
  assert (ws' = ws) as -> by congruence.
  do 2 f_equal. unfold FormatText_words. generalize wrap0.
  clear Hws Hws'. induction ws as [|word ws IH]; intros w; [done|].
  cbn [fold_left]. by rewrite (FormatText_word_same fc fc'), IH.
Qed.

Lemma FormatText_reads_one_font_witness :
  FormatText noFonts "ab cd" 25 "TEST"
  = FormatText (mkFontConfig "x" {[ "TEST" := mkFonts {[ "a" := 1 ]} 7 ]})
      "ab cd" 25 "TEST".
Proof.
  apply (FormatText_reads_one_font noFonts); [right|]; by left.
Defined.

(** ** Further properties of the width lookup: the key of a rune *)

Lemma byte_of_val b : Go.byte_of (Go.byte_val b) = b.
Proof.
  unfold Go.byte_of, Go.byte_val. by rewrite N2Z.id, ascii_N_embedding.
Qed.

Lemma lor_shiftl_low a n b :
  0 <= n -> 0 <= b < 2 ^ n -> Z.lor (Z.shiftl a n) b = a * 2 ^ n + b.
Proof.
  intros Hn Hb.
  assert (Hland : Z.land (Z.shiftl a n) b = 0).
  { apply Z.bits_inj'. intros i Hi. rewrite Z.land_spec, Z.bits_0.
    destruct (Z.lt_ge_cases i n) as [Hlt|Hge].
    - by rewrite Z.shiftl_spec_low.
    - rewrite <- (Z.mod_small b (2 ^ n)) by done.
      rewrite Z.mod_pow2_bits_high by lia. apply andb_false_r. }
  rewrite <- Z.lxor_lor, <- Z.add_nocarry_lxor by done.
  by rewrite Z.shiftl_mul_pow2.
Qed.

Lemma lor_128 v : 0 <= v < 64 -> Z.lor 128 v = 128 + v.
Proof. intros. change 128 with (Z.shiftl 2 6). by rewrite lor_shiftl_low. Qed.

Lemma lor_192 v : 0 <= v < 32 -> Z.lor 192 v = 192 + v.
Proof. intros. change 192 with (Z.shiftl 6 5). by rewrite lor_shiftl_low. Qed.

Lemma lor_224 v : 0 <= v < 16 -> Z.lor 224 v = 224 + v.
Proof. intros. change 224 with (Z.shiftl 14 4). by rewrite lor_shiftl_low. Qed.

Lemma lor_240 v : 0 <= v < 8 -> Z.lor 240 v = 240 + v.
Proof. intros. change 240 with (Z.shiftl 30 3). by rewrite lor_shiftl_low. Qed.

(** The continuation byte that [string(r)] writes for the six bits of [v]. *)
Lemma cont_byte v b :
  0 <= v -> v mod 64 = Go.byte_val b - 128 ->
  Go.byte_of (Z.lor 128 (Z.land v 63)) = b.
Proof.
  intros Hv Hmod. change 63 with (Z.ones 6). rewrite land_low by lia.
  rewrite lor_128 by (apply Z.mod_pos_bound; lia).
  change (2 ^ 6) with 64. rewrite Hmod.
  replace (128 + (Go.byte_val b - 128)) with (Go.byte_val b) by lia.
  apply byte_of_val.
Qed.

Lemma rune_of_two x y :
  Z.lor (Z.shiftl (Z.land x 31) 6) (Z.land y 63)
  = x mod 32 * 64 + y mod 64.
Proof.
  change 31 with (Z.ones 5). change 63 with (Z.ones 6).
  rewrite !land_low by lia.
  rewrite lor_shiftl_low; [done|lia|apply Z.mod_pos_bound; lia].
Qed.

Lemma rune_of_three x y z :
  Z.lor (Z.shiftl (Z.land x 15) 12)
    (Z.lor (Z.shiftl (Z.land y 63) 6) (Z.land z 63))
  = x mod 16 * 4096 + y mod 64 * 64 + z mod 64.
Proof.
  change 15 with (Z.ones 4). change 63 with (Z.ones 6).
  rewrite !land_low by lia.
  rewrite (lor_shiftl_low (y mod 2 ^ 6));
    [|lia|apply Z.mod_pos_bound; lia].
  rewrite lor_shiftl_low; [|lia|].
  - change (2 ^ 12) with 4096. change (2 ^ 6) with 64.
    change (2 ^ 4) with 16. lia.
  - change (2 ^ 12) with 4096. change (2 ^ 6) with 64.
    Z.div_mod_to_equations. lia.
Qed.

Lemma rune_of_four x y z w :
  Z.lor (Z.shiftl (Z.land x 7) 18)
    (Z.lor (Z.shiftl (Z.land y 63) 12)
       (Z.lor (Z.shiftl (Z.land z 63) 6) (Z.land w 63)))
  = x mod 8 * 262144 + y mod 64 * 4096 + z mod 64 * 64 + w mod 64.
Proof.
  change 7 with (Z.ones 3). change 63 with (Z.ones 6).
  rewrite !land_low by lia.
  rewrite (lor_shiftl_low (z mod 2 ^ 6));
    [|lia|apply Z.mod_pos_bound; lia].
  rewrite (lor_shiftl_low (y mod 2 ^ 6)); [|lia|].
  2:{ change (2 ^ 12) with 4096. change (2 ^ 6) with 64.
      Z.div_mod_to_equations. lia. }
  rewrite lor_shiftl_low; [|lia|].
  - change (2 ^ 18) with 262144. change (2 ^ 12) with 4096.
    change (2 ^ 6) with 64. change (2 ^ 3) with 8. lia.
  - change (2 ^ 18) with 262144. change (2 ^ 12) with 4096.
    change (2 ^ 6) with 64. Z.div_mod_to_equations. lia.
Qed.

(** [string(r)] of a rune that [range] has decoded from two bytes or more is
    these bytes. *)
Lemma string_of_rune_decoded b0 t r size :
  Go.DecodeRune (String b0 t) = (r, size) -> (1 < size)%nat ->
  Go.string_of_rune r = Go.take size (String b0 t).
Proof.
  unfold Go.DecodeRune.
  pose proof (byte_val_range b0) as Hx. set (x := Go.byte_val b0) in *.
  destruct (Z.ltb_spec x 128) as [|Hhigh]; [intros [= <- <-]; lia|].
  assert (Herr : forall r size, (Go.RuneError, 1%nat) = (r, size) ->
            (1 < size)%nat ->
            Go.string_of_rune r = Go.take size (String b0 t)).
  { intros ? ? [= <- <-]. lia. }
  destruct (Go.between 194 223 x) eqn:H2.
  { apply between_true in H2.
    destruct t as [|b1 t]; [apply Herr|].
    pose proof (byte_val_range b1) as Hy. set (y := Go.byte_val b1) in *.
    destruct (Go.is_cont y) eqn:Hc1; [|apply Herr].
    apply between_true in Hc1. intros [= <- <-] _.
    rewrite rune_of_two. set (r := x mod 32 * 64 + y mod 64).
    assert (Hr : 128 <= r < 2048 /\ r / 64 = x - 192 /\ r mod 64 = y - 128).
    { subst r. Z.div_mod_to_equations. lia. }
    destruct Hr as (Hr & Hhi & Hlo).
    unfold Go.string_of_rune, Go.between.
    destruct (Z.ltb_spec r 0); [lia|].
    destruct (Z.ltb_spec 1114111 r); [lia|].
    destruct (Z.leb_spec 55296 r); [lia|]. simpl.
    destruct (Z.ltb_spec r 128); [lia|].
    destruct (Z.ltb_spec r 2048); [|lia].
    rewrite (cont_byte r b1) by (fold y; lia).
    rewrite Z.shiftr_div_pow2 by lia. change (2 ^ 6) with 64.
    rewrite Hhi, lor_192 by lia.
    replace (192 + (x - 192)) with x by lia.
    unfold x. by rewrite byte_of_val. }
  destruct (Go.between 224 239 x) eqn:H3.
  { apply between_true in H3.
    destruct t as [|b1 [|b2 t]]; try apply Herr.
    pose proof (byte_val_range b1) as Hy. set (y := Go.byte_val b1) in *.
    pose proof (byte_val_range b2) as Hz. set (z := Go.byte_val b2) in *.
    destruct (Go.between _ _ y) eqn:Hc1; [|apply Herr].
    destruct (Go.is_cont z) eqn:Hc2; [|apply Herr].
    simpl. apply between_true in Hc1, Hc2. intros [= <- <-] _.
    rewrite rune_of_three.
    set (r := x mod 16 * 4096 + y mod 64 * 64 + z mod 64).
    assert (Hr : 2048 <= r < 65536 /\ ~ 55296 <= r <= 57343
                 /\ r / 4096 = x - 224 /\ (r / 64) mod 64 = y - 128
                 /\ r mod 64 = z - 128).
    { subst r. destruct (Z.eqb_spec x 224), (Z.eqb_spec x 237);
        Z.div_mod_to_equations; lia. }
    destruct Hr as (Hr & Hsur & Hhi & Hmid & Hlo).
    unfold Go.string_of_rune.
    destruct (Z.ltb_spec r 0); [lia|].
    destruct (Z.ltb_spec 1114111 r); [lia|].
    destruct (Go.between 55296 57343 r) eqn:Hbad;
      [apply between_true in Hbad; lia|]. simpl.
    destruct (Z.ltb_spec r 128); [lia|].
    destruct (Z.ltb_spec r 2048); [lia|].
    destruct (Z.ltb_spec r 65536); [|lia].
    rewrite (cont_byte r b2) by (fold z; lia).
    rewrite (cont_byte (Z.shiftr r 6) b1).
    2:{ apply Z.shiftr_nonneg. lia. }
    2:{ rewrite Z.shiftr_div_pow2 by lia. change (2 ^ 6) with 64.
        fold y. lia. }
    rewrite Z.shiftr_div_pow2 by lia. change (2 ^ 12) with 4096.
    rewrite Hhi, lor_224 by lia.
    replace (224 + (x - 224)) with x by lia.
    unfold x. by rewrite byte_of_val. }
  destruct (Go.between 240 244 x) eqn:H4; [|apply Herr].
  apply between_true in H4.
  destruct t as [|b1 [|b2 [|b3 t]]]; try apply Herr.
  pose proof (byte_val_range b1) as Hy. set (y := Go.byte_val b1) in *.
  pose proof (byte_val_range b2) as Hz. set (z := Go.byte_val b2) in *.
  pose proof (byte_val_range b3) as Hw. set (w := Go.byte_val b3) in *.
  destruct (Go.between _ _ y) eqn:Hc1; [|apply Herr].
  destruct (Go.is_cont z) eqn:Hc2; [|apply Herr].
  destruct (Go.is_cont w) eqn:Hc3; [|apply Herr].
  simpl. apply between_true in Hc1, Hc2, Hc3. intros [= <- <-] _.
  rewrite rune_of_four.
  set (r := x mod 8 * 262144 + y mod 64 * 4096 + z mod 64 * 64 + w mod 64).
  assert (Hr : 65536 <= r <= 1114111
               /\ r / 262144 = x - 240 /\ (r / 4096) mod 64 = y - 128
               /\ (r / 64) mod 64 = z - 128 /\ r mod 64 = w - 128).
  { subst r. destruct (Z.eqb_spec x 240), (Z.eqb_spec x 244);
      Z.div_mod_to_equations; lia. }
  destruct Hr as (Hr & Hhi & Hmid1 & Hmid2 & Hlo).
  unfold Go.string_of_rune.
  destruct (Z.ltb_spec r 0); [lia|].
  destruct (Z.ltb_spec 1114111 r); [lia|].
  destruct (Go.between 55296 57343 r) eqn:Hbad;
    [apply between_true in Hbad; lia|]. simpl.
  destruct (Z.ltb_spec r 128); [lia|].
  destruct (Z.ltb_spec r 2048); [lia|].
  destruct (Z.ltb_spec r 65536); [lia|].
  rewrite (cont_byte r b3) by (fold w; lia).
  rewrite (cont_byte (Z.shiftr r 6) b2).
  2:{ apply Z.shiftr_nonneg. lia. }
  2:{ rewrite Z.shiftr_div_pow2 by lia. change (2 ^ 6) with 64.
      fold z. lia. }
  rewrite (cont_byte (Z.shiftr r 12) b1).
  2:{ apply Z.shiftr_nonneg. lia. }
  2:{ rewrite Z.shiftr_div_pow2 by lia. change (2 ^ 12) with 4096.
      fold y. lia. }
  rewrite Z.shiftr_div_pow2 by lia. change (2 ^ 18) with 262144.
  rewrite Hhi, lor_240 by lia.
  replace (240 + (x - 240)) with x by lia.
  unfold x. by rewrite byte_of_val.
Qed.

(** What [range] yields for bytes that are no encoding. *)
Lemma DecodeRune_malformed b0 t r :
  Go.DecodeRune (String b0 t) = (r, 1%nat) -> 128 <= r ->
  r = Go.RuneError.
Proof.
  unfold Go.DecodeRune.
  destruct (Z.ltb_spec (Go.byte_val b0) 128) as [|Hhigh];
    [intros [= <-]; lia|].
  repeat match goal with
         | |- context [if ?c then _ else _] => destruct c
         | |- context [match ?s with EmptyString => _ | String _ _ => _ end] =>
           destruct s
         end; by intros [= <-].
Qed.

(** X17: the key under which the width of a rune is looked up.  For a rune
    that [range] has decoded from a well-formed encoding, ASCII or of two
    to four bytes, [string(r)] is these bytes of the text, so the width is
    read from the font table under the character as the text has it; for
    bytes that are no encoding the rune is U+FFFD and the key is the
    encoding of U+FFFD. *)
Theorem getRunePixelWidth_key
    (fc : FontConfig) (fontID : string) (b0 : ascii) (t : string)
    (r : Z) (size : nat) :
  Go.DecodeRune (String b0 t) = (r, size) ->
  let key :=
    if (r <? 128) || (1 <? size)%nat then Go.take size (String b0 t)
    else String "239" (String "191" (String "189" "")) in
  Go.string_of_rune r = key
  /\ (fontID <> testFontID ->
      getRunePixelWidth fc r fontID = readWidthFromFontConfig fc key fontID).
Proof.
  intros Hdec key.
  assert (Hkey : Go.string_of_rune r = key).
  { subst key. destruct (Nat.ltb_spec 1 size) as [Hsize|Hsize].
    - rewrite orb_true_r. by apply string_of_rune_decoded.
    - rewrite orb_false_r.
      pose proof (byte_val_range b0) as Hx.
      destruct (Z.ltb_spec (Go.byte_val b0) 128) as [Hlow|Hhigh].
      + rewrite DecodeRune_ascii in Hdec by done.
        injection Hdec as <- <-.
        destruct (Z.ltb_spec (Go.byte_val b0) 128); [|lia].
        unfold Go.string_of_rune, Go.between.
        destruct (Z.ltb_spec (Go.byte_val b0) 0); [lia|].
        destruct (Z.ltb_spec 1114111 (Go.byte_val b0)); [lia|].
        destruct (Z.leb_spec 55296 (Go.byte_val b0)); [lia|]. simpl.
        destruct (Z.ltb_spec (Go.byte_val b0) 128); [|lia].
        by rewrite byte_of_val.
      + destruct (DecodeRune_high _ _ _ _ Hhigh Hdec) as (Hr & Hone & _).
        assert (size = 1%nat) as -> by lia.
        rewrite (DecodeRune_malformed _ _ _ Hdec Hr).
        by vm_compute. }
  split; [done|]. intros Htest%String.eqb_neq.
  unfold getRunePixelWidth. by rewrite Htest, Hkey.
Qed.

Lemma getRunePixelWidth_key_witness :
  Go.string_of_rune 233 = String "195" (String "169" "")
  /\ ("f" <> testFontID ->
      getRunePixelWidth noFonts 233 "f"
      = readWidthFromFontConfig noFonts (String "195" (String "169" "")) "f").
Proof.
  apply (getRunePixelWidth_key noFonts "f" "195" (String "169" "x") 233 2).
  reflexivity.
Defined.

(** ** Further properties of [FormatText]: a width that nothing fits *)

Lemma Zsum_app (l1 l2 : list Z) : Zsum (l1 ++ l2) = Zsum l1 + Zsum l2.
Proof. induction l1 as [|x l1 IH]; simpl; [done|]. rewrite IH. lia. Qed.

Lemma Zsum_filter_le {A} (f : A -> Z) (P : A -> Prop)
    `{!forall x, Decision (P x)} (l : list A) :
  Forall (fun x => 0 <= f x) l ->
  0 <= Zsum (map f (filter P l)) <= Zsum (map f l).
Proof.
  induction 1 as [|x l Hx _ IH]; [done|].
  rewrite filter_cons. destruct (decide (P x)); simpl; lia.
Qed.

Lemma Zsum_concat_le {A} (f : A -> Z) (ls : list (list A)) (l : list A) :
  Forall (fun x => 0 <= f x) (concat ls) ->
  l ∈ ls ->
  0 <= Zsum (map f l) <= Zsum (map f (concat ls)).
Proof.
  induction ls as [|l' ls IH]; intros Hpos Hin.
  { by apply elem_of_nil in Hin. }
  cbn [concat] in *. apply Forall_app in Hpos as [Hl' Hls].
  rewrite map_app, Zsum_app.
  pose proof (Zsum_nonneg f l' Hl').
  pose proof (Zsum_nonneg f (concat ls) Hls).
  apply elem_of_cons in Hin as [->|Hin]; [lia|].
  specialize (IH Hls Hin). lia.
Qed.

(** X18: a maximal width below the width of a space puts every word on a
    line of its own.  When no width is negative and the widths do not wrap
    around, a [maxWidth] that is less than the width of a space, a negative
    one for example, leaves no line of the output with two words. *)
Theorem FormatText_one_word_per_line
    (fc : FontConfig) (text : string) (maxWidth : Z) (fontID : string)
    (ws : list string) :
  let space := getRunePixelWidth fc (rune " ") fontID in
  fontID = "" \/ fontID = testFontID \/ is_Some (FontTable fc !! fontID) ->
  tokens (Go.len text) (Go.ReplaceAll_newline_space text) = Some ws ->
  0 <= space ->
  Forall (fun word => 0 <= getWordPixelWidth fc word fontID) ws ->
  Zsum (map (fun word => space + getWordPixelWidth fc word fontID) ws)
    < 2 ^ 63 ->
  maxWidth < space ->
  FormatText fc text maxWidth fontID
  = Some (render (lines fc maxWidth fontID ws), None)
  /\ Forall (fun l => (length (line_words l) <= 1)%nat)
       (lines fc maxWidth fontID ws).
Proof.
  intros space Hcheck%font_check_accepts Hws Hspace Hpx Hsum Hmax.
  destruct (FormatText_accepted fc text maxWidth fontID Hcheck)
    as (ws' & Hws' & ->).
  assert (ws' = ws) as -> by congruence.
  pose proof (tokens_nonempty _ _ _ Hws) as Hne.
  split.
  { pose proof (FormatText_words_render fc maxWidth fontID ws wrap0 false []
                  Hne (on_line_start _ _ _)) as Hout.
    rewrite app_empty_l in Hout. unfold lines. rewrite <- Hout.
    by unfold FormatText_finish. }
  pose proof (lines_of_fit fc maxWidth fontID ws wrap0 false [] Hne
                (on_line_start _ _ _)) as Hfit.
  pose proof (lines_of_words fc maxWidth fontID ws wrap0 false []) as Hwords.
  fold (lines fc maxWidth fontID ws) in Hfit, Hwords. simpl in Hwords.
  apply Forall_forall. intros l Hl.
  destruct (Nat.le_gt_cases (length (line_words l)) 1) as [|Hlen]; [done|].
  exfalso. rewrite Forall_forall in Hfit. specialize (Hfit l Hl Hlen).
  set (f := fun word => space + getWordPixelWidth fc word fontID) in *.
  assert (Hpos : Forall (fun word => 0 <= f word) ws).
  { eapply Forall_impl; [exact Hpx|]. intros word. unfold f. lia. }
  assert (Hin : line_words l ∈ map line_words (lines fc maxWidth fontID ws)).
  { apply list_elem_of_fmap. by exists l. }
  pose proof (Zsum_filter_le f (fun word => isLineBreak word = false) ws Hpos)
    as Hfilter.
  rewrite <- Hwords in Hfilter.
  assert (Hsub : forall P : string -> Prop, Forall P ws ->
            Forall P (concat (map line_words (lines fc maxWidth fontID ws)))).
  { intros P HP. rewrite Hwords. apply Forall_forall.
    intros word [_ Hword]%list_elem_of_filter.
    rewrite Forall_forall in HP. by apply HP. }
  pose proof (Zsum_concat_le f _ _ (Hsub _ Hpos) Hin) as Hline.
  assert (Hlinepx : Forall (fun word => 0 <= getWordPixelWidth fc word fontID)
                      (line_words l)).
  { pose proof (Hsub _ Hpx) as Hall. apply Forall_concat in Hall.
    rewrite Forall_forall in Hall. by apply Hall. }
  rewrite line_width_pixels in Hfit; try done.
  - fold space in Hfit. unfold line_pixels in Hfit. fold space in Hfit.
    pose proof (Zsum_nonneg (fun word => getWordPixelWidth fc word fontID)
                  (line_words l) Hlinepx).
    assert (space * 1 <= space * (Z.of_nat (length (line_words l)) - 1))
      by (apply Z.mul_le_mono_nonneg_l; lia).
    destruct (after_wrap l); lia.
  - fold space. fold f. lia.
  - intros Hnil. rewrite Hnil in Hlen. simpl in Hlen. lia.
Qed.

Lemma FormatText_one_word_per_line_witness :
  FormatText noFonts "aa bb cc" (-1) "TEST"
  = Some (render (lines noFonts (-1) "TEST" ["aa"; "bb"; "cc"]), None)
  /\ Forall (fun l => (length (line_words l) <= 1)%nat)
       (lines noFonts (-1) "TEST" ["aa"; "bb"; "cc"]).
Proof.
  apply (FormatText_one_word_per_line noFonts "aa bb cc" (-1) "TEST");
    [right; by left|reflexivity|by vm_compute
    |repeat constructor; by vm_compute|by vm_compute|by vm_compute].
Defined.

(** ** Further properties of [FormatText]: well-formed UTF-8 *)

Lemma high_prefix_len k : forall s,
  high_prefix k s -> Go.len (Go.take k s) = k.
Proof.
  induction k as [|k IH]; intros s; [done|].
  destruct s as [|b s]; [done|]. intros [_ Hs]. rewrite take_cons, len_cons.
  by rewrite IH.
Qed.

(** The rune at the head of a text depends on the bytes of its encoding
    only. *)
Lemma DecodeRune_local b0 t r size Y :
  Go.DecodeRune (String b0 t) = (r, size) ->
  r < 128 \/ (1 < size)%nat ->
  Go.DecodeRune (Go.take size (String b0 t) +:+ Y) = (r, size).
Proof.
  unfold Go.DecodeRune at 1.
  pose proof (byte_val_range b0) as Hx.
  destruct (Z.ltb_spec (Go.byte_val b0) 128) as [Hlow|Hhigh].
  { intros [= <- <-] _. rewrite take_cons, app_cons. simpl Go.take.
    by apply DecodeRune_ascii. }
  assert (Herr : forall r size, (Go.RuneError, 1%nat) = (r, size) ->
            r < 128 \/ (1 < size)%nat ->
            Go.DecodeRune (Go.take size (String b0 t) +:+ Y) = (r, size)).
  { intros ? ? [= <- <-]. unfold Go.RuneError. lia. }
  destruct (Go.between 194 223 (Go.byte_val b0)) eqn:H2.
  { destruct t as [|b1 t]; [apply Herr|].
    destruct (Go.is_cont (Go.byte_val b1)) eqn:Hc1; [|apply Herr].
    intros [= <- <-] _. rewrite !take_cons, !app_cons. simpl Go.take.
    rewrite app_empty_l. unfold Go.DecodeRune.
    destruct (Z.ltb_spec (Go.byte_val b0) 128); [lia|].
    by rewrite H2, Hc1. }
  destruct (Go.between 224 239 (Go.byte_val b0)) eqn:H3.
  { destruct t as [|b1 [|b2 t]]; try apply Herr.
    destruct (Go.between _ _ (Go.byte_val b1) && _) eqn:Hc; [|apply Herr].
    intros [= <- <-] _. rewrite !take_cons, !app_cons. simpl Go.take.
    rewrite app_empty_l. unfold Go.DecodeRune.
    destruct (Z.ltb_spec (Go.byte_val b0) 128); [lia|].
    by rewrite H2, H3, Hc. }
  destruct (Go.between 240 244 (Go.byte_val b0)) eqn:H4; [|apply Herr].
  destruct t as [|b1 [|b2 [|b3 t]]]; try apply Herr.
  destruct (Go.between _ _ (Go.byte_val b1) && _ && _) eqn:Hc; [|apply Herr].
  intros [= <- <-] _. rewrite !take_cons, !app_cons. simpl Go.take.
  rewrite app_empty_l. unfold Go.DecodeRune.
  destruct (Z.ltb_spec (Go.byte_val b0) 128); [lia|].
  by rewrite H2, H3, H4, Hc.
Qed.

(** The bytes of an encoding are in the text, and those after the first are
    not ASCII. *)
Lemma DecodeRune_bytes b0 t r size :
  Go.DecodeRune (String b0 t) = (r, size) ->
  r < 128 \/ (1 < size)%nat ->
  (1 <= size)%nat /\ high_prefix (size - 1) t
  /\ Go.len (Go.take size (String b0 t)) = size
  /\ (Go.byte_val b0 < 128 -> size = 1%nat).
Proof.
  intros Hdec Hwf. pose proof (byte_val_range b0) as Hx.
  destruct (Z.ltb_spec (Go.byte_val b0) 128) as [Hlow|Hhigh].
  - rewrite DecodeRune_ascii in Hdec by done. injection Hdec as <- <-.
    by repeat split.
  - destruct (DecodeRune_high _ _ _ _ Hhigh Hdec) as (Hr & Hone & Hpre).
    repeat split; try done; [|lia].
    destruct size as [|k]; [lia|]. rewrite take_cons, len_cons.
    simpl in Hpre. rewrite Nat.sub_0_r in Hpre.
    by rewrite high_prefix_len.
Qed.

Lemma drop_app_le n : forall s t,
  (n <= Go.len s)%nat -> Go.drop n (s +:+ t) = Go.drop n s +:+ t.
Proof.
  induction n as [|n IH]; intros s t Hlen; [by rewrite !drop_zero|].
  destruct s as [|a s]; [rewrite len_cons in Hlen || simpl in Hlen; lia|].
  rewrite len_cons in Hlen. rewrite app_cons, !drop_cons. apply IH. lia.
Qed.

Lemma take_app_le n : forall s t,
  (n <= Go.len s)%nat -> Go.take n (s +:+ t) = Go.take n s.
Proof.
  induction n as [|n IH]; intros s t Hlen; [by destruct s|].
  destruct s as [|a s]; [simpl in Hlen; lia|].
  rewrite len_cons in Hlen. rewrite app_cons, !take_cons. f_equal.
  apply IH. lia.
Qed.

Lemma take_len_le n : forall s, (Go.len (Go.take n s) <= Go.len s)%nat.
Proof.
  induction n as [|n IH]; intros s; [simpl; lia|].
  destruct s as [|a s]; [simpl; lia|].
  rewrite take_cons, !len_cons. specialize (IH s). lia.
Qed.

Lemma utf8_app a b : utf8 a -> utf8 b -> utf8 (a +:+ b).
Proof.
  intros Ha Hb.
  induction Ha as [|s r size Hne Hdec Hwf _ IH]; [done|].
  destruct s as [|b0 t]; [done|].
  destruct (DecodeRune_bytes _ _ _ _ Hdec Hwf) as (_ & _ & Hlen & _).
  assert (Hsize : (size <= Go.len (String b0 t))%nat).
  { rewrite <- Hlen at 1. apply take_len_le. }
  apply (utf8_rune _ r size).
  - by rewrite app_cons.
  - rewrite <- (take_drop size (String b0 t)) at 1.
    rewrite app_assoc_str. by apply DecodeRune_local.
  - done.
  - by rewrite drop_app_le.
Qed.

(** Text of ASCII bytes only. *)
Lemma utf8_ascii s :
  (forall pre b post, s = pre +:+ String b post -> Go.byte_val b < 128) ->
  utf8 s.
Proof.
  induction s as [|b s IH]; intros Hs; [constructor|].
  assert (Hb : Go.byte_val b < 128) by (by apply (Hs "" b s)).
  apply (utf8_rune _ (Go.byte_val b) 1); [done| |by left|].
  - by apply DecodeRune_ascii.
  - rewrite drop_cons, drop_zero. apply IH. intros pre c post ->.
    by apply (Hs (String b pre) c post).
Qed.

(** What follows well-formed text in well-formed text is well-formed. *)
Lemma utf8_after a b : utf8 a -> utf8 (a +:+ b) -> utf8 b.
Proof.
  intros Ha. induction Ha as [|s r size Hne Hdec Hwf _ IH]; [done|].
  intros Hab. destruct s as [|b0 t]; [done|].
  destruct (DecodeRune_bytes _ _ _ _ Hdec Hwf) as (_ & _ & Hlen & _).
  assert (Hsize : (size <= Go.len (String b0 t))%nat).
  { rewrite <- Hlen at 1. apply take_len_le. }
  rewrite app_cons in Hab.
  inversion Hab as [|s' r' size' Hne' Hdec' Hwf' Hrest Heq]. subst s'.
  rewrite <- app_cons in Hdec', Hrest.
  rewrite <- (take_drop size (String b0 t)) in Hdec' at 1.
  rewrite app_assoc_str, (DecodeRune_local _ _ _ _ _ Hdec Hwf) in Hdec'.
  injection Hdec' as <- <-. apply IH. by rewrite <- drop_app_le.
Qed.

(** Well-formed text up to an ASCII byte, or up to the end, is
    well-formed. *)
Lemma utf8_before s :
  utf8 s ->
  forall t rest,
    s = t +:+ rest ->
    rest = "" \/ (exists c X, rest = String c X /\ Go.byte_val c < 128) ->
    utf8 t.
Proof.
  induction 1 as [|s r size Hne Hdec Hwf _ IH]; intros t rest Heq Hrest.
  { symmetry in Heq. apply app_eq_empty in Heq as [-> _]. constructor. }
  destruct t as [|b0 t]; [constructor|].
  rewrite app_cons in Heq. subst s.
  destruct (DecodeRune_bytes _ _ _ _ Hdec Hwf) as (Hone & Hpre & Hlen & Hlow).
  assert (Hsize : (size <= Go.len (String b0 t))%nat).
  { rewrite len_cons.
    destruct (Nat.le_gt_cases size (S (Go.len t))) as [|Hgt]; [done|].
    exfalso. destruct Hrest as [->|(c & X & -> & Hc)].
    - rewrite app_empty_r in Hlen.
      pose proof (take_len_le size (String b0 t)) as Hle.
      rewrite Hlen, len_cons in Hle. lia.
    - clear -Hpre Hgt Hc. revert size Hpre Hgt.
      induction t as [|a t IHt]; intros size Hpre Hgt.
      + destruct size as [|[|k]]; simpl in *; lia.
      + destruct size as [|[|k]]; simpl in Hgt; try lia.
        rewrite app_cons in Hpre. simpl in Hpre. destruct Hpre as [_ Hpre].
        apply (IHt (S k)); [|simpl; lia].
        simpl. by rewrite Nat.sub_0_r. }
  apply (utf8_rune _ r size); [done| |done|].
  - pose proof (DecodeRune_local b0 (t +:+ rest) r size
                  (Go.drop size (String b0 t)) Hdec Hwf) as Hloc.
    rewrite <- app_cons in Hloc. rewrite take_app_le in Hloc by done.
    by rewrite take_drop in Hloc.
  - apply (IH (Go.drop size (String b0 t)) rest); [|done].
    rewrite <- app_cons. by apply drop_app_le.
Qed.

Lemma drop_ReplaceAll n : forall s,
  Go.drop n (Go.ReplaceAll_newline_space s)
  = Go.ReplaceAll_newline_space (Go.drop n s).
Proof.
  induction n as [|n IH]; intros s; [by rewrite !drop_zero|].
  destruct s as [|a s]; [done|]. simpl. apply IH.
Qed.

Lemma take_ReplaceAll_high k : forall s,
  high_prefix k s ->
  Go.take k (Go.ReplaceAll_newline_space s) = Go.take k s.
Proof.
  induction k as [|k IH]; intros s; [by destruct s|].
  destruct s as [|b s]; [done|]. intros [Hb Hs]. simpl. rewrite IH by done.
  destruct (Ascii.eqb_spec b "010") as [->|_]; [|done].
  by vm_compute in Hb.
Qed.

(** Replacing the newlines by spaces keeps the text well-formed. *)
Lemma utf8_ReplaceAll s : utf8 s -> utf8 (Go.ReplaceAll_newline_space s).
Proof.
  induction 1 as [|s r size Hne Hdec Hwf _ IH]; [constructor|].
  destruct s as [|b0 t]; [done|].
  destruct (DecodeRune_bytes _ _ _ _ Hdec Hwf) as (Hone & Hpre & Hlen & Hlow).
  rewrite <- drop_ReplaceAll in IH.
  destruct (Z.ltb_spec (Go.byte_val b0) 128) as [Hb|Hb].
  - rewrite (Hlow Hb) in *. simpl in IH |- *.
    set (b := if Ascii.eqb b0 "010" then " "%char else b0).
    assert (Hb' : Go.byte_val b < 128).
    { subst b. by destruct (Ascii.eqb b0 "010"). }
    apply (utf8_rune _ (Go.byte_val b) 1); [done| |by left|done].
    by apply DecodeRune_ascii.
  - apply (utf8_rune _ r size); [done| |done|done].
    rewrite <- (take_drop size (Go.ReplaceAll_newline_space (String b0 t))).
    rewrite take_ReplaceAll_high.
    + by apply DecodeRune_local.
    + destruct size as [|k]; [done|]. simpl in Hpre |- *.
      rewrite Nat.sub_0_r in Hpre. done.
Qed.

Lemma utf8_gap gap : only_gap gap = true -> utf8 gap.
Proof.
  induction gap as [|a gap IH]; [constructor|]. simpl.
  intros [Ha Hgap]%andb_true_iff.
  assert (Hlow : Go.byte_val a < 128).
  { apply orb_true_iff in Ha as [->%Ascii.eqb_eq| ->%Ascii.eqb_eq]; done. }
  apply (utf8_rune _ (Go.byte_val a) 1); [done| |by left|by apply IH].
  by apply DecodeRune_ascii.
Qed.

Lemma utf8_two_ascii a b :
  Go.byte_val a < 128 -> Go.byte_val b < 128 -> utf8 (String a (String b "")).
Proof.
  intros Ha Hb.
  apply (utf8_rune _ (Go.byte_val a) 1);
    [done|by apply DecodeRune_ascii|by left|].
  apply (utf8_rune _ (Go.byte_val b) 1);
    [done|by apply DecodeRune_ascii|by left|constructor].
Qed.

Lemma utf8_break word : isLineBreak word = true -> utf8 word.
Proof.
  unfold isLineBreak. rewrite !orb_true_iff, !String.eqb_eq.
  intros [[->| ->]| ->]; by apply utf8_two_ascii.
Qed.

Lemma cut_utf8 text ws : cut text ws -> utf8 text -> Forall utf8 ws.
Proof.
  induction 1 as [gap Hgap|gap word rest words Hgap Hword Hend _ IH];
    [done|].
  intros Htext.
  pose proof (utf8_after _ _ (utf8_gap _ Hgap) Htext) as Hrest.
  assert (Hw : utf8 word).
  { destruct Hend as [X -> _| -> _|Hbreak|c X -> Hc].
    - apply (utf8_before _ Hrest word (String " " X) eq_refl).
      right. by exists " "%char, X.
    - apply (utf8_before _ Hrest word "" eq_refl). by left.
    - by apply utf8_break.
    - apply (utf8_before _ Hrest word (String "\" (String c X)) eq_refl).
      right. by exists "\"%char, (String c X). }
  constructor; [done|]. apply IH. by apply (utf8_after word).
Qed.

Lemma layout_utf8 first ws out :
  layout first ws out -> Forall utf8 ws -> utf8 out.
Proof.
  assert (Hnl : utf8 NL).
  { apply (utf8_rune _ 10 1); [done|done|by left|constructor]. }
  induction 1 as [|first word words out Hbreak _ IH
                  |word words out Hbreak _ IH
                  |sep word words out Hbreak Hsep _ IH];
    [constructor|..]; intros [Hword Hwords]%Forall_cons.
  - apply utf8_app; [done|]. apply utf8_app; [done|by apply IH].
  - apply utf8_app; [done|by apply IH].
  - apply utf8_app; [|apply utf8_app; [done|by apply IH]].
    destruct Hsep as [->|[->| ->]].
    + apply (utf8_rune _ 32 1); [done|done|by left|constructor].
    + apply utf8_app; [by apply utf8_two_ascii|done].
    + apply utf8_app; [by apply utf8_two_ascii|done].
Qed.

(** X19: [FormatText] keeps well-formed UTF-8 well-formed.  It cuts the
    text at ASCII bytes only and puts only ASCII bytes between the tokens,
    so for a text that is well-formed UTF-8 every token and the output are
    well-formed UTF-8: no character of several bytes is split. *)
Theorem FormatText_keeps_utf8
    (fc : FontConfig) (text : string) (maxWidth : Z) (fontID out : string)
    (err : error) :
  utf8 text ->
  FormatText fc text maxWidth fontID = Some (out, err) ->
  utf8 out
  /\ forall ws,
       tokens (Go.len text) (Go.ReplaceAll_newline_space text) = Some ws ->
       Forall utf8 ws.
Proof.
  intros Htext Hout.
  assert (Hws : forall ws,
            tokens (Go.len text) (Go.ReplaceAll_newline_space text) = Some ws ->
            Forall utf8 ws).
  { intros ws Hws. eapply cut_utf8; [by eapply tokens_cut|].
    by apply utf8_ReplaceAll. }
  split; [|done].
  destruct (negb (isFontIDValid fc fontID) && (0 <? Go.len fontID)%nat
            && negb (String.eqb fontID testFontID)) eqn:Hcheck.
  { unfold FormatText, FormatText_fuel in Hout. rewrite Hcheck in Hout.
    injection Hout as <- _. constructor. }
  destruct (FormatText_layout fc text maxWidth fontID Hcheck)
    as (ws & out' & Hws' & Hout' & Hlay).
  assert (out' = out) as -> by congruence.
  eapply layout_utf8; [exact Hlay|by apply Hws].
Qed.

Lemma FormatText_keeps_utf8_witness :
  utf8 ("caf" +:+ String "195" (String "169" "") +:+ "\n" +:+ NL +:+ "au")
  /\ forall ws,
       tokens 8 (Go.ReplaceAll_newline_space
                   ("caf" +:+ String "195" (String "169" " au")))
       = Some ws ->
       Forall utf8 ws.
Proof.
  apply (FormatText_keeps_utf8 noFonts
           ("caf" +:+ String "195" (String "169" " au")) 45 "TEST"
           ("caf" +:+ String "195" (String "169" "") +:+ "\n" +:+ NL +:+ "au")
           None); [|reflexivity].
  repeat (eapply utf8_rune; [done|reflexivity|(by left) || (right; lia)|]);
    constructor.
Defined.
